(** * Skia core: the image-filter result cache, the filter evaluator and the
  edge builder

  A shallow embedding of [src/core/SkImageFilter.cpp] and
  [src/core/SkEdgeBuilder.cpp].  Machine integers are [Z] with their
  wrap-around written out; the intrusive LRU list of the cache is a list of
  heap objects tagged with their address (head first), its hash table a
  [gmap]; classes that live in other translation units (the matrix, the
  clippers, the curve choppers, the edge set-up routines) are section
  variables. *)

From Stdlib Require Import ZArith Lia.
From stdpp Require Import base decidable option countable numbers list gmap.

Local Open Scope Z_scope.

(** ** Machine integers *)

(** An unsigned [bits]-wide integer ([size_t], [uint32_t]): arithmetic
  results are reduced modulo [2 ^ bits]. *)
Definition wrap_unsigned (bits x : Z) : Z := x mod 2 ^ bits.

(** A signed 32-bit integer ([int], [int32_t], [SkFixed]) in two's
  complement. *)
Definition wrap_int32 (x : Z) : Z := (x + 2 ^ 31) mod 2 ^ 32 - 2 ^ 31.

Definition is_int32 (x : Z) : Prop := - 2 ^ 31 <= x < 2 ^ 31.

(** ** Integer geometry *)

Module SkIPoint.
Record t := Make { fX : Z; fY : Z }.
Definition x (p : t) : Z := fX p.
Definition y (p : t) : Z := fY p.
End SkIPoint.

Module SkIRect.
Record t := Make { fLeft : Z; fTop : Z; fRight : Z; fBottom : Z }.

Definition MakeWH (w h : Z) : t := Make 0 0 w h.

(** [int width() const { return fRight - fLeft; }] *)
Definition width (r : t) : Z := wrap_int32 (fRight r - fLeft r).
Definition height (r : t) : Z := wrap_int32 (fBottom r - fTop r).

Definition valid (r : t) : Prop :=
  is_int32 (fLeft r) ∧ is_int32 (fTop r) ∧
  is_int32 (fRight r) ∧ is_int32 (fBottom r).

Definition to_tuple (r : t) : Z * Z * Z * Z :=
  (fLeft r, fTop r, fRight r, fBottom r).
Definition of_tuple (q : Z * Z * Z * Z) : t :=
  let '(l, u, r, b) := q in Make l u r b.
End SkIRect.

#[global] Instance SkIPoint_eq_dec : EqDecision SkIPoint.t.
Proof. solve_decision. Defined.

#[global] Instance SkIRect_eq_dec : EqDecision SkIRect.t.
Proof. solve_decision. Defined.

#[global] Instance SkIRect_countable : Countable SkIRect.t.
Proof.
apply (inj_countable' SkIRect.to_tuple SkIRect.of_tuple).
by intros [].
Defined.

(** ** Images held by the cache *)

(** [SkBitmap], as far as the cache looks at it. *)
Record SkBitmap := { bm_generationID : Z; bm_getSize : Z }.

(** The default-constructed bitmap of a [Value] built from a special image. *)
Definition SkBitmap_empty : SkBitmap :=
{| bm_generationID := 0; bm_getSize := 0 |}.

(** [SkSpecialImage], as far as the evaluator and the cache look at it. *)
Record SkSpecialImage := {
uniqueID : Z;
subset : SkIRect.t;
img_width : Z;
img_height : Z;
getSize : Z
}.

#[global] Instance SkBitmap_eq_dec : EqDecision SkBitmap.
Proof. solve_decision. Defined.

#[global] Instance SkSpecialImage_eq_dec : EqDecision SkSpecialImage.
Proof. solve_decision. Defined.

(** ** The result cache ([CacheImpl]) *)

Module Cache.
Section CacheImpl.
(** [SkMatrix] is compared and hashed, never computed with, by the cache. *)
Context {SkMatrix : Type} `{Countable SkMatrix}.
(** Width of [size_t] on the target. *)
Variable size_t_bits : Z.

(** [SkImageFilter::Cache::Key]. *)
Record Key := MkKey {
  fUniqueID : Z;
  fMatrix : SkMatrix;
  fClipBounds : SkIRect.t;
  fSrcGenID : Z;
  fSrcSubset : SkIRect.t
}.

#[global] Instance Key_eq_dec : EqDecision Key.
Proof. solve_decision. Defined.

#[global] Instance Key_countable : Countable Key.
Proof.
  apply (inj_countable'
           (λ k, (fUniqueID k, fMatrix k, fClipBounds k, fSrcGenID k,
                  fSrcSubset k))
           (λ q, let '(a, b, c, d, e) := q in MkKey a b c d e)).
  by intros [].
Defined.

(** [CacheImpl::Value].  Its fields are never written after construction;
    what changes is the object's place in the list and the table.  A
    [Value*] is therefore the object itself together with its address
    [fAddr], and pointer comparison is comparison of addresses. *)
Record Value := MkValue {
  fAddr : nat;
  fKey : Key;
  fBitmap : SkBitmap;
  fImage : option SkSpecialImage;
  fOffset : SkIPoint.t
}.

Record CacheImpl := MkCache {
  fLookup : gmap Key Value;       (* SkTDynamicHash<Value, Key> *)
  fLRU : list Value;              (* SkTInternalLList<Value>, head first *)
  fMaxBytes : Z;
  fCurrentBytes : Z;
  fNextAddr : nat                 (* the address [new Value] returns next *)
}.

(** [CacheImpl(size_t maxBytes)] *)
Definition Create (maxBytes : Z) : CacheImpl :=
  MkCache ∅ [] maxBytes 0 0%nat.

Definition Value_bytes (v : Value) : Z :=
  match fImage v with
  | Some img => getSize img
  | None => bm_getSize (fBitmap v)
  end.

(** [fLRU.remove(v)]: unlink the node at [v]'s address. *)
Definition LRU_remove (v : Value) (l : list Value) : list Value :=
  filter (λ x, fAddr x ≠ fAddr v) l.

Definition removeInternal (v : Value) (c : CacheImpl) : CacheImpl :=
  MkCache (delete (fKey v) (fLookup c))
          (LRU_remove v (fLRU c))
          (fMaxBytes c)
          (wrap_unsigned size_t_bits (fCurrentBytes c - Value_bytes v))
          (fNextAddr c).

(** [if (v != fLRU.head()) { fLRU.remove(v); fLRU.addToHead(v); }] *)
Definition touch (v : Value) (l : list Value) : list Value :=
  match head l with
  | Some h => if decide (fAddr h = fAddr v) then l else v :: LRU_remove v l
  | None => v :: LRU_remove v l
  end.

(** [SkSpecialImage* get(const Key&, SkIPoint* offset) const]: the
    returned image, the value left in [*offset], the cache afterwards. *)
Definition get (key : Key) (offset : SkIPoint.t) (c : CacheImpl)
  : option SkSpecialImage * SkIPoint.t * CacheImpl :=
  match fLookup c !! key with
  | Some v =>
      (fImage v, fOffset v,
       MkCache (fLookup c) (touch v (fLRU c)) (fMaxBytes c)
               (fCurrentBytes c) (fNextAddr c))
  | None => (None, offset, c)
  end.

(** [bool get(const Key&, SkBitmap* result, SkIPoint* offset) const] *)
Definition get_bitmap (key : Key) (result : SkBitmap) (offset : SkIPoint.t)
    (c : CacheImpl) : bool * SkBitmap * SkIPoint.t * CacheImpl :=
  match fLookup c !! key with
  | Some v =>
      (true, fBitmap v, fOffset v,
       MkCache (fLookup c) (touch v (fLRU c)) (fMaxBytes c)
               (fCurrentBytes c) (fNextAddr c))
  | None => (false, result, offset, c)
  end.

(** The eviction loop of [set]:
    [while (fCurrentBytes > fMaxBytes) { tail = fLRU.tail();
       if (tail == v) break; removeInternal(tail); }].
    Every round unlinks one node, so [length fLRU] rounds are enough;
    [evict_fuel_enough] below shows that the bound is never the reason the
    loop stops. *)
Fixpoint evict (fuel : nat) (v : Value) (c : CacheImpl) : CacheImpl :=
  if decide (fCurrentBytes c > fMaxBytes c) then
    match last (fLRU c) with
    | None => c
    | Some tail =>
        if decide (fAddr tail = fAddr v) then c
        else match fuel with
             | O => c
             | S fuel' => evict fuel' v (removeInternal tail c)
             end
    end
  else c.

(** [fLookup.add(v); fLRU.addToHead(v); fCurrentBytes += bytes;] *)
Definition add_value (v : Value) (bytes : Z) (c : CacheImpl) : CacheImpl :=
  MkCache (<[fKey v := v]> (fLookup c))
          (v :: fLRU c)
          (fMaxBytes c)
          (wrap_unsigned size_t_bits (fCurrentBytes c + bytes))
          (S (fNextAddr c)).

(** The part of both [set] overloads after [new Value]. *)
Definition insert_value (v : Value) (bytes : Z) (c : CacheImpl)
  : CacheImpl :=
  let c2 := add_value v bytes c in
  evict (length (fLRU c2)) v c2.

Definition remove_if_present (key : Key) (c : CacheImpl) : CacheImpl :=
  match fLookup c !! key with
  | Some v => removeInternal v c
  | None => c
  end.

(** [void set(const Key&, SkSpecialImage* image, const SkIPoint& offset)] *)
Definition set (key : Key) (image : SkSpecialImage) (offset : SkIPoint.t)
    (c : CacheImpl) : CacheImpl :=
  let c1 := remove_if_present key c in
  let v := MkValue (fNextAddr c1) key SkBitmap_empty (Some image) offset in
  insert_value v (getSize image) c1.

(** [void set(const Key&, const SkBitmap& result, const SkIPoint& offset)] *)
Definition set_bitmap (key : Key) (result : SkBitmap) (offset : SkIPoint.t)
    (c : CacheImpl) : CacheImpl :=
  let c1 := remove_if_present key c in
  let v := MkValue (fNextAddr c1) key result None offset in
  insert_value v (bm_getSize result) c1.

(** [purge]: [while (fCurrentBytes > 0) { tail = fLRU.tail();
    removeInternal(tail); }].  [None] is the dereference of a null tail.
    With [length fLRU] rounds of fuel the list is empty when the fuel is,
    so running out of fuel is that same null tail. *)
Fixpoint purge_loop (fuel : nat) (c : CacheImpl) : option CacheImpl :=
  if decide (fCurrentBytes c > 0) then
    match fuel with
    | O => None
    | S fuel' =>
        match last (fLRU c) with
        | None => None
        | Some tail => purge_loop fuel' (removeInternal tail c)
        end
    end
  else Some c.

Definition purge (c : CacheImpl) : option CacheImpl :=
  purge_loop (length (fLRU c)) c.

(** [void purgeByKeys(const Key keys[], int count)] *)
Definition purgeByKeys (keys : list Key) (c : CacheImpl) : CacheImpl :=
  foldl (λ c k, remove_if_present k c) c keys.

(** *** The representation invariant *)

Definition sum_bytes (l : list Value) : Z :=
  foldr (λ v acc, Value_bytes v + acc) 0 l.

Record wf (c : CacheImpl) : Prop := {
  wf_addrs : NoDup (fAddr <$> fLRU c);
  wf_fresh : ∀ v, v ∈ fLRU c → (fAddr v < fNextAddr c)%nat;
  wf_lookup : ∀ k v, fLookup c !! k = Some v ↔ v ∈ fLRU c ∧ fKey v = k;
  wf_bytes :
    fCurrentBytes c = wrap_unsigned size_t_bits (sum_bytes (fLRU c))
}.

End CacheImpl.
End Cache.

(** ** Scalar rectangles and the crop rectangle *)

Module SkRect.
Record t (SkScalar : Type) :=
  Make { fLeft : SkScalar; fTop : SkScalar; fRight : SkScalar; fBottom : SkScalar }.
Arguments Make {SkScalar} _ _ _ _.
Arguments fLeft {SkScalar} _.
Arguments fTop {SkScalar} _.
Arguments fRight {SkScalar} _.
Arguments fBottom {SkScalar} _.
End SkRect.

Module CropRect.

(** Modelled from the spec: the enumerators of [CropRect::CropEdge] are
    declared in SkImageFilter.h, which is not in this development; the spec
    gives "a four-bit edge mask {hasLeft, hasTop, hasWidth, hasHeight}", one
    bit per edge, here in that order from the least significant bit. *)
Definition kHasLeft_CropEdge : Z := 0x01.
Definition kHasTop_CropEdge : Z := 0x02.
Definition kHasWidth_CropEdge : Z := 0x04.
Definition kHasHeight_CropEdge : Z := 0x08.

(** [fFlags & edge] used as a condition. *)
Definition has_edge (flags edge : Z) : bool := negb (Z.land flags edge =? 0).

Section ApplyTo.
Context {SkScalar SkMatrix : Type}.
(** [SkMatrix::mapRect(SkRect* dst, const SkRect& src)] and
    [SkRect::roundOut()] compute on floats in other translation units. *)
Variable mapRect : SkMatrix → SkRect.t SkScalar → SkRect.t SkScalar.
Variable roundOut : SkRect.t SkScalar → SkIRect.t.

Record t := Make { fRect : SkRect.t SkScalar; fFlags : Z }.

(** [void CropRect::applyTo(const SkIRect& imageBounds, const SkMatrix& ctm,
    SkIRect* cropped) const]; the result is what is left in [*cropped]. *)
Definition applyTo (self : t) (imageBounds : SkIRect.t) (ctm : SkMatrix)
  : SkIRect.t :=
  let cropped := imageBounds in
  if negb (fFlags self =? 0) then
    let devCropR := mapRect ctm (fRect self) in
    let devICropR := roundOut devCropR in
    let cropped :=
      if has_edge (fFlags self) kHasLeft_CropEdge
      then SkIRect.Make (SkIRect.fLeft devICropR) (SkIRect.fTop cropped)
                        (SkIRect.fRight cropped) (SkIRect.fBottom cropped)
      else cropped in
    let cropped :=
      if has_edge (fFlags self) kHasTop_CropEdge
      then SkIRect.Make (SkIRect.fLeft cropped) (SkIRect.fTop devICropR)
                        (SkIRect.fRight cropped) (SkIRect.fBottom cropped)
      else cropped in
    let cropped :=
      if has_edge (fFlags self) kHasWidth_CropEdge
      then SkIRect.Make (SkIRect.fLeft cropped) (SkIRect.fTop cropped)
             (wrap_int32 (SkIRect.fLeft cropped + SkIRect.width devICropR))
             (SkIRect.fBottom cropped)
      else cropped in
    let cropped :=
      if has_edge (fFlags self) kHasHeight_CropEdge
      then SkIRect.Make (SkIRect.fLeft cropped) (SkIRect.fTop cropped)
             (SkIRect.fRight cropped)
             (wrap_int32 (SkIRect.fTop cropped + SkIRect.height devICropR))
      else cropped in
    cropped
  else cropped.

End ApplyTo.
Arguments t : clear implicits.
End CropRect.

(** ** The evaluation state ([SkImageFilter::Context], [fCacheKeys]) *)

Module ImageFilter.
Section State.
Context {SkMatrix : Type} `{Countable SkMatrix}.
Variable size_t_bits : Z.

(** [SkImageFilter::Context].  [cache()] is a borrowed pointer; the cache it
    points at lives in the evaluation state below, and the field records
    whether the pointer is non-null. *)
Record Context := MkContext {
  ctm : SkMatrix;
  clipBounds : SkIRect.t;
  cache : bool
}.

(** The state one node's evaluation runs against: the cache behind
    [context.cache()], the node's own [fCacheKeys], and three history
    variables the C++ does not have: how often the node's [onFilterImage]
    ran, how often its [filterImageDeprecated] got past the cache probe, and
    the keys the node's [filterImage] and [filterImageDeprecated] passed to
    [Cache::set], oldest first. *)
Record State := MkState {
  the_cache : Cache.CacheImpl (SkMatrix:=SkMatrix);
  fCacheKeys : list (Cache.Key (SkMatrix:=SkMatrix));
  computeCalls : nat;
  deprecatedCalls : nat;
  insertedKeys : list (Cache.Key (SkMatrix:=SkMatrix))
}.

(** The state with the cache as a callee leaves it. *)
Definition with_cache (c : Cache.CacheImpl (SkMatrix:=SkMatrix)) (s : State)
  : State :=
  MkState c (fCacheKeys s) (computeCalls s) (deprecatedCalls s)
          (insertedKeys s).

(** [context.cache()->set(key, image, offset)] and
    [context.cache()->set(key, result, offset)] as the node's own methods
    call them: the cache is updated, and the history notes the key. *)
Definition cache_set (key : Cache.Key) (image : SkSpecialImage)
    (offset : SkIPoint.t) (s : State) : State :=
  MkState (Cache.set size_t_bits key image offset (the_cache s))
          (fCacheKeys s) (computeCalls s) (deprecatedCalls s)
          (insertedKeys s ++ [key]).

Definition cache_set_bitmap (key : Cache.Key) (result : SkBitmap)
    (offset : SkIPoint.t) (s : State) : State :=
  MkState (Cache.set_bitmap size_t_bits key result offset (the_cache s))
          (fCacheKeys s) (computeCalls s) (deprecatedCalls s)
          (insertedKeys s ++ [key]).

(** [fCacheKeys.push_back(key)] *)
Definition push_back (key : Cache.Key) (s : State) : State :=
  MkState (the_cache s) (fCacheKeys s ++ [key]) (computeCalls s)
          (deprecatedCalls s) (insertedKeys s).

(** A change of the cache from [c] to [c'] that stores nothing under the
    node id [id]: what [c'] holds under that id, [c] held already. *)
Definition foreign_to (id : Z)
    (c c' : Cache.CacheImpl (SkMatrix:=SkMatrix)) : Prop :=
  ∀ k, Cache.fUniqueID k = id →
       is_Some (Cache.fLookup c' !! k) → is_Some (Cache.fLookup c !! k).

(** A step from [s] to [s'] in which the node [id] records what it stores:
    the keys [new], all of that node, have been appended both to
    [fCacheKeys] and to the history of stores, and whatever the cache holds
    under the node's id afterwards it held before or is among them. *)
Definition records_stores (id : Z)
    (new : list (Cache.Key (SkMatrix:=SkMatrix))) (s s' : State) : Prop :=
  fCacheKeys s' = fCacheKeys s ++ new ∧
  insertedKeys s' = insertedKeys s ++ new ∧
  (∀ k, k ∈ new → Cache.fUniqueID k = id) ∧
  (∀ k, Cache.fUniqueID k = id →
        is_Some (Cache.fLookup (the_cache s') !! k) →
        is_Some (Cache.fLookup (the_cache s) !! k) ∨ k ∈ new).

End State.
End ImageFilter.

(** ** Edges *)

(** [SkEdgeBuilder::Combine] *)
Inductive Combine := kNo_Combine | kPartial_Combine | kTotal_Combine.

(** The fields of [SkEdge] the builder reads and writes.  A quadratic or
    cubic edge is an [SkEdge] with [fCurveCount] non-zero; its curve state is
    never looked at here. *)
Module SkEdge.
Record t := Make {
  fX : Z; fDX : Z; fFirstY : Z; fLastY : Z; fCurveCount : Z; fWinding : Z
}.

(** [is_vertical], at [SkEdge] *)
Definition is_vertical (edge : t) : bool :=
  (fDX edge =? 0) && (fCurveCount edge =? 0).

(** [SkBasicEdgeBuilder::combineVertical(const SkEdge* edge, SkEdge* last)]:
    the verdict and [*last] afterwards. *)
Definition combineVertical (edge last : t) : Combine * t :=
  if negb (fCurveCount last =? 0) || negb (fDX last =? 0)
     || negb (fX edge =? fX last)
  then (kNo_Combine, last)
  else if fWinding edge =? fWinding last then
    if wrap_int32 (fLastY edge + 1) =? fFirstY last then
      (kPartial_Combine,
       Make (fX last) (fDX last) (fFirstY edge) (fLastY last)
            (fCurveCount last) (fWinding last))
    else if fFirstY edge =? wrap_int32 (fLastY last + 1) then
      (kPartial_Combine,
       Make (fX last) (fDX last) (fFirstY last) (fLastY edge)
            (fCurveCount last) (fWinding last))
    else (kNo_Combine, last)
  else if fFirstY edge =? fFirstY last then
    if fLastY edge =? fLastY last then (kTotal_Combine, last)
    else if fLastY edge <? fLastY last then
      (kPartial_Combine,
       Make (fX last) (fDX last) (wrap_int32 (fLastY edge + 1)) (fLastY last)
            (fCurveCount last) (fWinding last))
    else
      (kPartial_Combine,
       Make (fX last) (fDX last) (wrap_int32 (fLastY last + 1)) (fLastY edge)
            (fCurveCount last) (fWinding edge))
  else if fLastY edge =? fLastY last then
    if fFirstY edge >? fFirstY last then
      (kPartial_Combine,
       Make (fX last) (fDX last) (fFirstY last) (wrap_int32 (fFirstY edge - 1))
            (fCurveCount last) (fWinding last))
    else
      (kPartial_Combine,
       Make (fX last) (fDX last) (fFirstY edge) (wrap_int32 (fFirstY last - 1))
            (fCurveCount last) (fWinding edge))
  else (kNo_Combine, last).
End SkEdge.

(** Modelled from the spec: [SkAbs32] is declared in SkTypes.h, which is not
    in this development; the spec reads the tolerance test built on it as
    "approximately equal" within [0x100], so it is the absolute value of a
    32-bit integer. *)
Definition SkAbs32 (value : Z) : Z :=
  if value <? 0 then wrap_int32 (- value) else value.

Module SkAnalyticEdge.
Record t := Make {
  fX : Z; fDX : Z; fUpperY : Z; fLowerY : Z; fY : Z;
  fCurveCount : Z; fWinding : Z
}.

Definition is_vertical (edge : t) : bool :=
  (fDX edge =? 0) && (fCurveCount edge =? 0).

(** The lambda [approximately_equal] of the analytic [combineVertical]. *)
Definition approximately_equal (a b : Z) : bool :=
  SkAbs32 (wrap_int32 (a - b)) <? 0x100.

(** [SkAnalyticEdgeBuilder::combineVertical(const SkAnalyticEdge* edge,
    SkAnalyticEdge* last)]: the verdict and [*last] afterwards. *)
Definition combineVertical (edge last : t) : Combine * t :=
  if negb (fCurveCount last =? 0) || negb (fDX last =? 0)
     || negb (fX edge =? fX last)
  then (kNo_Combine, last)
  else if fWinding edge =? fWinding last then
    if fLowerY edge =? fUpperY last then
      (kPartial_Combine,
       Make (fX last) (fDX last) (fUpperY edge) (fLowerY last) (fUpperY edge)
            (fCurveCount last) (fWinding last))
    else if approximately_equal (fUpperY edge) (fLowerY last) then
      (kPartial_Combine,
       Make (fX last) (fDX last) (fUpperY last) (fLowerY edge) (fY last)
            (fCurveCount last) (fWinding last))
    else (kNo_Combine, last)
  else if approximately_equal (fUpperY edge) (fUpperY last) then
    if approximately_equal (fLowerY edge) (fLowerY last) then
      (kTotal_Combine, last)
    else if fLowerY edge <? fLowerY last then
      (kPartial_Combine,
       Make (fX last) (fDX last) (fLowerY edge) (fLowerY last) (fLowerY edge)
            (fCurveCount last) (fWinding last))
    else
      (kPartial_Combine,
       Make (fX last) (fDX last) (fLowerY last) (fLowerY edge) (fLowerY last)
            (fCurveCount last) (fWinding edge))
  else if approximately_equal (fLowerY edge) (fLowerY last) then
    if fUpperY edge >? fUpperY last then
      (kPartial_Combine,
       Make (fX last) (fDX last) (fUpperY last) (fUpperY edge) (fY last)
            (fCurveCount last) (fWinding last))
    else
      (kPartial_Combine,
       Make (fX last) (fDX last) (fUpperY edge) (fUpperY last) (fUpperY edge)
            (fCurveCount last) (fWinding edge))
  else (kNo_Combine, last).

(** The same-winding test "the new edge ends where the previous one
    starts", as the spec has it: with the tolerance. *)
Definition touches_above_spec (edge last : t) : bool :=
  approximately_equal (fLowerY edge) (fUpperY last).
End SkAnalyticEdge.

(** ** Paths, as the builder sees them *)

Module SkPoint.
Record t (SkScalar : Type) := Make { fX : SkScalar; fY : SkScalar }.
Arguments Make {SkScalar} _ _.
Arguments fX {SkScalar} _.
Arguments fY {SkScalar} _.
End SkPoint.

(** [SkPath::Verb], without [kDone_Verb], which ends an iteration and is
    never handed to a [switch]. *)
Inductive Verb :=
  kMove_Verb | kLine_Verb | kQuad_Verb | kConic_Verb | kCubic_Verb
| kClose_Verb.

#[global] Instance Verb_eq_dec : EqDecision Verb.
Proof. solve_decision. Defined.

(** Modelled from the spec: [SkPathPriv::PtsInIter] is declared in
    SkPathPriv.h, which is not in this development; it is "the associated
    point count" of a verb as an iterator hands it out, "at most 4 points per
    verb". *)
Definition PtsInIter (verb : Verb) : nat :=
  match verb with
  | kMove_Verb => 1
  | kLine_Verb => 2
  | kQuad_Verb => 3
  | kConic_Verb => 3
  | kCubic_Verb => 4
  | kClose_Verb => 0
  end.

Module EdgeBuilder.
Section Builder.
Context {SkScalar : Type}.
(** Width of [size_t] on the target. *)
Variable size_t_bits : Z.

Local Abbreviation SkPoint := (SkPoint.t SkScalar).
Local Abbreviation SkRect := (SkRect.t SkScalar).

(** What one call of [SkPath::Iter::next(pts, false)] or of
    [SkEdgeClipper::next(pts)] hands out: the verb with the points it fills
    in (and the conic weight, read through [conicWeight()]). *)
Inductive Segment :=
| Move (p0 : SkPoint)
| Line (p0 p1 : SkPoint)
| Quad (p0 p1 p2 : SkPoint)
| Conic (p0 p1 p2 : SkPoint) (weight : SkScalar)
| Cubic (p0 p1 p2 p3 : SkPoint)
| Close.

Definition seg_verb (seg : Segment) : Verb :=
  match seg with
  | Move _ => kMove_Verb
  | Line _ _ => kLine_Verb
  | Quad _ _ _ => kQuad_Verb
  | Conic _ _ _ _ => kConic_Verb
  | Cubic _ _ _ _ => kCubic_Verb
  | Close => kClose_Verb
  end.

Definition seg_pts (seg : Segment) : list SkPoint :=
  match seg with
  | Move p0 => [p0]
  | Line p0 p1 => [p0; p1]
  | Quad p0 p1 p2 => [p0; p1; p2]
  | Conic p0 p1 p2 _ => [p0; p1; p2]
  | Cubic p0 p1 p2 p3 => [p0; p1; p2; p3]
  | Close => []
  end.

(** [SkPath], as far as the builder asks: what [Iter(path, true)] yields
    before [kDone_Verb], and three queries. *)
Record SkPath := MkPath {
  iter : list Segment;
  countPoints : Z;
  isConvex : bool;
  getSegmentMasks : Z
}.

(** *** Collaborators from other translation units *)

Variable SkScalarIsFinite : SkScalar → bool.
Variable SkIntToScalar : Z → SkScalar.
(** [SkPath::kLine_SegmentMask] and
    [SkLineClipper::kMaxClippedLineSegments]. *)
Variable kLine_SegmentMask : Z.
Variable kMaxClippedLineSegments : Z.
(** [SkLineClipper::ClipLine(pts, clip, lines, canCullToTheRight)]: the
    points written to [lines[0 .. lineCount]], none when [lineCount] is 0. *)
Variable ClipLine : SkPoint → SkPoint → SkRect → bool → list SkPoint.
(** [SkEdgeClipper::clipLine], [clipQuad], [clipCubic] of a clipper built
    with [canCullToTheRight]: [None] when the call returns false, else the
    segments [next] hands out before [kDone_Verb]. *)
Variable clipLine : bool → SkPoint → SkPoint → SkRect → option (list Segment).
Variable clipQuad :
  bool → SkPoint → SkPoint → SkPoint → SkRect → option (list Segment).
Variable clipCubic :
  bool → SkPoint → SkPoint → SkPoint → SkPoint → SkRect →
  option (list Segment).
(** [SkAutoConicToQuads::computeQuads(pts, weight, conicTol)] with
    [conicTol = SK_Scalar1 / 4]: the [countQuads()] quads, each the window
    [quadPts[0..2]] of the loop that steps [quadPts] by two. *)
Variable computeQuads :
  SkPoint → SkPoint → SkPoint → SkScalar → list (SkPoint * SkPoint * SkPoint).
(** [SkChopQuadAtYExtrema] and [SkChopCubicAtYExtrema]: the [n + 1] pieces
    at [&monoX[i * 2]], [&monoY[i * 3]]. *)
Variable SkChopQuadAtYExtrema :
  SkPoint → SkPoint → SkPoint → list (SkPoint * SkPoint * SkPoint).
Variable SkChopCubicAtYExtrema :
  SkPoint → SkPoint → SkPoint → SkPoint →
  list (SkPoint * SkPoint * SkPoint * SkPoint).

(** [SkScalarsAreFinite(&pts[0].fX, count * 2)] *)
Definition SkScalarsAreFinite (pts : list SkPoint) (count : nat) : bool :=
  forallb (λ p, SkScalarIsFinite (SkPoint.fX p)
                && SkScalarIsFinite (SkPoint.fY p))
          (take count pts).

(** Modelled from the spec: [SkSafeMath] is declared in SkSafeMath.h, which
    is not in this development.  [mul] multiplies two [size_t] and the object
    converts to false once a product has overflowed [size_t]. *)
Definition SkSafeMath_mul (x y : Z) : bool * Z :=
  (x * y <? 2 ^ size_t_bits, wrap_unsigned size_t_bits (x * y)).

(** *** The builder and its three flavours *)

(** What [fAlloc] has been asked for. *)
Inductive Alloc :=
| alloc_edge                        (* fAlloc.make<Edge>() *)
| alloc_edges (n : Z)               (* fAlloc.makeArrayDefault<Edge>(n) *)
| alloc_pointers (n : Z).           (* fAlloc.makeArrayDefault<char*>(n) *)

(** [SkEdgeBuilder] over edges of type [E]: [fList] and [fEdgeList] hold
    pointers to edges no one else points to, so they are the edges, and
    writing through [fList.top()] replaces the last element. *)
Record t (E : Type) := MkBuilder {
  fList : list E;
  fEdgeList : list E;
  fAlloc : list Alloc
}.
Arguments MkBuilder {E} _ _ _.
Arguments fList {E} _.
Arguments fEdgeList {E} _.
Arguments fAlloc {E} _.

Definition make_edge {E} (b : t E) : t E :=
  MkBuilder (fList b) (fEdgeList b) (fAlloc b ++ [alloc_edge]).

Definition set_top {E} (top : E) (l : list E) : list E :=
  removelast l ++ [top].

(** The [switch (combine)] of [addLine], after [combineVertical] has written
    [*fList.top()]. *)
Definition finish_addLine {E} (combine : Combine) (edge : E) (b : t E) : t E :=
  match combine with
  | kTotal_Combine => MkBuilder (removelast (fList b)) (fEdgeList b) (fAlloc b)
  | kPartial_Combine => b
  | kNo_Combine => MkBuilder (fList b ++ [edge]) (fEdgeList b) (fAlloc b)
  end.

Definition push_back {E} (edge : E) (b : t E) : t E :=
  MkBuilder (fList b ++ [edge]) (fEdgeList b) (fAlloc b).

(** The virtual interface of [SkEdgeBuilder].  [addPolyLine] is given the
    pointers written so far and hands back its verdict, the edge it has set
    up in the free slot (none when the set-up failed) and the pointers'
    targets as [combineVertical] leaves [edgePtr[-1]]. *)
Class Flavour (E : Type) := {
  addLine : SkPoint → SkPoint → t E → t E;
  addQuad : SkPoint → SkPoint → SkPoint → t E → t E;
  addCubic : SkPoint → SkPoint → SkPoint → SkPoint → t E → t E;
  addPolyLine : SkPoint → SkPoint → list E → Combine * option E * list E;
  recoverClip : SkIRect.t → SkRect;
  allocEdges : Z → t E → t E;
  chopCubics : bool
}.

Definition SkRect_Make (src : SkIRect.t) : SkRect :=
  SkRect.Make (SkIntToScalar (SkIRect.fLeft src))
              (SkIntToScalar (SkIRect.fTop src))
              (SkIntToScalar (SkIRect.fRight src))
              (SkIntToScalar (SkIRect.fBottom src)).

Definition alloc_array {E} (n : Z) (b : t E) : t E :=
  MkBuilder (fList b) (fEdgeList b) (fAlloc b ++ [alloc_edges n]).

Section Basic.
(** [SkEdge::setLine(p0, p1, shift)], [SkQuadraticEdge::setQuadratic(pts,
    shift)], [SkCubicEdge::setCubic(pts, shift)]: the edge as set up, or
    [None] when the call returns false. *)
Variable setLine : SkPoint → SkPoint → Z → option SkEdge.t.
Variable setQuadratic : SkPoint → SkPoint → SkPoint → Z → option SkEdge.t.
Variable setCubic :
  SkPoint → SkPoint → SkPoint → SkPoint → Z → option SkEdge.t.
Variable fClipShift : Z.
Variable chops : bool.

Definition combine_with_top (edge : SkEdge.t) (l : list SkEdge.t)
  : Combine * list SkEdge.t :=
  match (if SkEdge.is_vertical edge then last l else None) with
  | Some top =>
      let '(combine, top') := SkEdge.combineVertical edge top in
      (combine, set_top top' l)
  | None => (kNo_Combine, l)
  end.

#[export] Instance SkBasicEdgeBuilder : Flavour SkEdge.t := {|
  addLine p0 p1 b :=
    let b := make_edge b in
    match setLine p0 p1 fClipShift with
    | Some edge =>
        let '(combine, l) := combine_with_top edge (fList b) in
        finish_addLine combine edge (MkBuilder l (fEdgeList b) (fAlloc b))
    | None => b
    end;
  addQuad p0 p1 p2 b :=
    let b := make_edge b in
    match setQuadratic p0 p1 p2 fClipShift with
    | Some edge => push_back edge b
    | None => b
    end;
  addCubic p0 p1 p2 p3 b :=
    let b := make_edge b in
    match setCubic p0 p1 p2 p3 fClipShift with
    | Some edge => push_back edge b
    | None => b
    end;
  addPolyLine p0 p1 edgePtr :=
    match setLine p0 p1 fClipShift with
    | Some edge =>
        let '(combine, l) := combine_with_top edge edgePtr in
        (combine, Some edge, l)
    | None => (kPartial_Combine, None, edgePtr)
    end;
  recoverClip src :=
    SkRect.Make (SkIntToScalar (Z.shiftr (SkIRect.fLeft src) fClipShift))
                (SkIntToScalar (Z.shiftr (SkIRect.fTop src) fClipShift))
                (SkIntToScalar (Z.shiftr (SkIRect.fRight src) fClipShift))
                (SkIntToScalar (Z.shiftr (SkIRect.fBottom src) fClipShift));
  allocEdges := alloc_array;
  chopCubics := chops
|}.
End Basic.

Section Analytic.
Variable setLine : SkPoint → SkPoint → option SkAnalyticEdge.t.
Variable setQuadratic :
  SkPoint → SkPoint → SkPoint → option SkAnalyticEdge.t.
Variable setCubic :
  SkPoint → SkPoint → SkPoint → SkPoint → option SkAnalyticEdge.t.
Variable chops : bool.

Definition analytic_combine_with_top (edge : SkAnalyticEdge.t)
    (l : list SkAnalyticEdge.t) : Combine * list SkAnalyticEdge.t :=
  match (if SkAnalyticEdge.is_vertical edge then last l else None) with
  | Some top =>
      let '(combine, top') := SkAnalyticEdge.combineVertical edge top in
      (combine, set_top top' l)
  | None => (kNo_Combine, l)
  end.

#[export] Instance SkAnalyticEdgeBuilder : Flavour SkAnalyticEdge.t := {|
  addLine p0 p1 b :=
    let b := make_edge b in
    match setLine p0 p1 with
    | Some edge =>
        let '(combine, l) := analytic_combine_with_top edge (fList b) in
        finish_addLine combine edge (MkBuilder l (fEdgeList b) (fAlloc b))
    | None => b
    end;
  addQuad p0 p1 p2 b :=
    let b := make_edge b in
    match setQuadratic p0 p1 p2 with
    | Some edge => push_back edge b
    | None => b
    end;
  addCubic p0 p1 p2 p3 b :=
    let b := make_edge b in
    match setCubic p0 p1 p2 p3 with
    | Some edge => push_back edge b
    | None => b
    end;
  addPolyLine p0 p1 edgePtr :=
    match setLine p0 p1 with
    | Some edge =>
        let '(combine, l) := analytic_combine_with_top edge edgePtr in
        (combine, Some edge, l)
    | None => (kPartial_Combine, None, edgePtr)
    end;
  recoverClip := SkRect_Make;
  allocEdges := alloc_array;
  chopCubics := chops
|}.
End Analytic.

Section Bezier.
(** [SkLine], [SkQuad], [SkCubic]: the raw control points. *)
Inductive SkBezier :=
| SkLine (p0 p1 : SkPoint)
| SkQuad (p0 p1 p2 : SkPoint)
| SkCubic (p0 p1 p2 p3 : SkPoint).

(** The [set(pts)] of the three; true when the primitive is kept. *)
Variable line_set : SkPoint → SkPoint → bool.
Variable quad_set : SkPoint → SkPoint → SkPoint → bool.
Variable cubic_set : SkPoint → SkPoint → SkPoint → SkPoint → bool.
Variable chops : bool.

#[export] Instance SkBezierEdgeBuilder : Flavour SkBezier := {|
  addLine p0 p1 b :=
    let b := make_edge b in
    if line_set p0 p1 then push_back (SkLine p0 p1) b else b;
  addQuad p0 p1 p2 b :=
    let b := make_edge b in
    if quad_set p0 p1 p2 then push_back (SkQuad p0 p1 p2) b else b;
  addCubic p0 p1 p2 p3 b :=
    let b := make_edge b in
    if cubic_set p0 p1 p2 p3 then push_back (SkCubic p0 p1 p2 p3) b else b;
  addPolyLine p0 p1 edgePtr :=
    if line_set p0 p1 then (kNo_Combine, Some (SkLine p0 p1), edgePtr)
    else (kPartial_Combine, None, edgePtr);
  recoverClip := SkRect_Make;
  allocEdges := alloc_array;
  chopCubics := chops
|}.
End Bezier.

(** *** [buildPoly], [build], [buildEdges] *)

Section Build.
Context {E : Type} `{Flavour E}.

(** [switch (this->addPolyLine(pts, edge, edgePtr))]: the pointers written
    so far, afterwards.  A slot is kept only under [kNo_Combine], which no
    flavour returns without having set the slot up. *)
Definition poly_line (p0 p1 : SkPoint) (edgePtr : list E) : list E :=
  let '(combine, edge, edgePtr) := addPolyLine p0 p1 edgePtr in
  match combine with
  | kTotal_Combine => removelast edgePtr
  | kPartial_Combine => edgePtr
  | kNo_Combine =>
      match edge with Some e => edgePtr ++ [e] | None => edgePtr end
  end.

(** The lines [lines + i], [i < lineCount]. *)
Fixpoint line_segments (lines : list SkPoint) : list (SkPoint * SkPoint) :=
  match lines with
  | p :: (q :: _) as rest => (p, q) :: line_segments rest
  | _ => []
  end.

Definition poly_verb (clip : option SkRect) (canCullToTheRight : bool)
    (seg : Segment) (edgePtr : list E) : list E :=
  match seg with
  | Line p0 p1 =>
      match clip with
      | Some clip =>
          foldl (λ edgePtr l, poly_line l.1 l.2 edgePtr) edgePtr
                (line_segments (ClipLine p0 p1 clip canCullToTheRight))
      | None => poly_line p0 p1 edgePtr
      end
  | _ => edgePtr
  end.

(** [int buildPoly(const SkPath&, const SkIRect* iclip, bool)]: the returned
    count and the builder afterwards.  [fEdgeList] points at the pointer
    array, which the loop then fills. *)
Definition buildPoly (path : SkPath) (iclip : option SkIRect.t)
    (canCullToTheRight : bool) (b : t E) : Z * t E :=
  let maxEdgeCount := wrap_unsigned size_t_bits (countPoints path) in
  let '(safe, maxEdgeCount) :=
    match iclip with
    | Some _ => SkSafeMath_mul maxEdgeCount kMaxClippedLineSegments
    | None => (true, maxEdgeCount)
    end in
  if negb safe then (0, b)
  else
    let b := allocEdges maxEdgeCount b in
    let alloc := fAlloc b ++ [alloc_pointers maxEdgeCount] in
    let clip := recoverClip <$> iclip in
    let edgePtr :=
      foldl (λ edgePtr seg, poly_verb clip canCullToTheRight seg edgePtr)
            [] (iter path) in
    (Z.of_nat (length edgePtr), MkBuilder (fList b) edgePtr alloc).

(** The [switch (verb)] inside [apply_clipper]. *)
Definition add_segment (seg : Segment) (b : t E) : t E :=
  match seg with
  | Line p0 p1 => addLine p0 p1 b
  | Quad p0 p1 p2 => addQuad p0 p1 p2 b
  | Cubic p0 p1 p2 p3 => addCubic p0 p1 p2 p3 b
  | _ => b
  end.

(** The lambda [apply_clipper] of [build], over the segments the clipper
    holds; the state is the builder and the captured [is_finite]. *)
Fixpoint apply_clipper (segs : list Segment) (st : t E * bool) : t E * bool :=
  match segs with
  | [] => st
  | seg :: rest =>
      if negb (SkScalarsAreFinite (seg_pts seg) (PtsInIter (seg_verb seg)))
      then (st.1, false)
      else apply_clipper rest (add_segment seg st.1, st.2)
  end.

(** [if (clipper.clipXxx(..., clip)) { apply_clipper(); }] *)
Definition clipped (r : option (list Segment)) (st : t E * bool)
  : t E * bool :=
  match r with
  | Some segs => apply_clipper segs st
  | None => st
  end.

(** The [switch (verb)] of [build] with a clip. *)
Definition build_clipped_verb (clip : SkRect) (canCullToTheRight : bool)
    (seg : Segment) (st : t E * bool) : t E * bool :=
  match seg with
  | Move _ | Close => st
  | Line p0 p1 => clipped (clipLine canCullToTheRight p0 p1 clip) st
  | Quad p0 p1 p2 => clipped (clipQuad canCullToTheRight p0 p1 p2 clip) st
  | Conic p0 p1 p2 weight =>
      foldl (λ st q, clipped (clipQuad canCullToTheRight q.1.1 q.1.2 q.2 clip) st)
            st (computeQuads p0 p1 p2 weight)
  | Cubic p0 p1 p2 p3 =>
      clipped (clipCubic canCullToTheRight p0 p1 p2 p3 clip) st
  end.

(** The lambda [handle_quad] of [build]. *)
Definition handle_quad (p0 p1 p2 : SkPoint) (b : t E) : t E :=
  foldl (λ b q, addQuad q.1.1 q.1.2 q.2 b) b (SkChopQuadAtYExtrema p0 p1 p2).

(** The [switch (verb)] of [build] without a clip. *)
Definition build_verb (seg : Segment) (b : t E) : t E :=
  match seg with
  | Move _ | Close => b
  | Line p0 p1 => addLine p0 p1 b
  | Quad p0 p1 p2 => handle_quad p0 p1 p2 b
  | Conic p0 p1 p2 weight =>
      foldl (λ b q, handle_quad q.1.1 q.1.2 q.2 b) b
            (computeQuads p0 p1 p2 weight)
  | Cubic p0 p1 p2 p3 =>
      if negb chopCubics then addCubic p0 p1 p2 p3 b
      else foldl (λ b c, addCubic c.1.1.1 c.1.1.2 c.1.2 c.2 b) b
                 (SkChopCubicAtYExtrema p0 p1 p2 p3)
  end.

(** The verb loop of [build]: the builder and [is_finite] after it. *)
Definition build_loop (path : SkPath) (iclip : option SkIRect.t)
    (canCullToTheRight : bool) (b : t E) : t E * bool :=
  match iclip with
  | Some iclip =>
      foldl (λ st seg,
               build_clipped_verb (recoverClip iclip) canCullToTheRight seg st)
            (b, true) (iter path)
  | None => (foldl (λ b seg, build_verb seg b) b (iter path), true)
  end.

(** [int build(const SkPath&, const SkIRect* iclip, bool)] *)
Definition build (path : SkPath) (iclip : option SkIRect.t)
    (canCullToTheRight : bool) (b : t E) : Z * t E :=
  let '(b, is_finite) := build_loop path iclip canCullToTheRight b in
  (if is_finite then Z.of_nat (length (fList b)) else 0,
   MkBuilder (fList b) (fList b) (fAlloc b)).

(** [int buildEdges(const SkPath&, const SkIRect* shiftedClip)] *)
Definition buildEdges (path : SkPath) (shiftedClip : option SkIRect.t)
    (b : t E) : Z * t E :=
  let canCullToTheRight := negb (isConvex path) in
  if kLine_SegmentMask =? getSegmentMasks path
  then buildPoly path shiftedClip canCullToTheRight b
  else build path shiftedClip canCullToTheRight b.

(** Whether the assertions of [buildEdges] hold on a call:
    [SkASSERT(count >= 0)] and
    [if (!canCullToTheRight && count == 1) SkASSERT(!chopCubics())]. *)
Definition buildEdges_asserts (path : SkPath) (shiftedClip : option SkIRect.t)
    (b : t E) : bool :=
  let canCullToTheRight := negb (isConvex path) in
  let count := (buildEdges path shiftedClip b).1 in
  (0 <=? count)
  && (if negb canCullToTheRight && (count =? 1) then negb chopCubics
      else true).

(** What the clipper holds for one verb of the path, call by call. *)
Definition clipper_batches (clip : SkRect) (canCullToTheRight : bool)
    (seg : Segment) : list (list Segment) :=
  match seg with
  | Move _ | Close => []
  | Line p0 p1 => option_list (clipLine canCullToTheRight p0 p1 clip)
  | Quad p0 p1 p2 => option_list (clipQuad canCullToTheRight p0 p1 p2 clip)
  | Conic p0 p1 p2 weight =>
      q ← computeQuads p0 p1 p2 weight;
      option_list (clipQuad canCullToTheRight q.1.1 q.1.2 q.2 clip)
  | Cubic p0 p1 p2 p3 =>
      option_list (clipCubic canCullToTheRight p0 p1 p2 p3 clip)
  end.

(** [apply_clipper] run on one batch after the other. *)
Definition drain_batches (batches : list (list Segment)) (st : t E * bool)
  : t E * bool :=
  foldl (λ st batch, apply_clipper batch st) st batches.

(** The test [apply_clipper] makes on a drained segment. *)
Definition segment_is_finite (seg : Segment) : bool :=
  SkScalarsAreFinite (seg_pts seg) (PtsInIter (seg_verb seg)).

End Build.
End Builder.
Arguments MkBuilder {E} _ _ _.
Arguments fList {E} _.
Arguments fEdgeList {E} _.
Arguments fAlloc {E} _.
End EdgeBuilder.

(** ** Sequences of cache operations *)

Module CacheOps.
Section Ops.
Context {SkMatrix : Type} `{Countable SkMatrix}.
Variable size_t_bits : Z.

(** The public operations of [SkImageFilter::Cache], with their arguments. *)
Inductive Op :=
| op_get (key : Cache.Key (SkMatrix:=SkMatrix)) (offset : SkIPoint.t)
| op_get_bitmap (key : Cache.Key (SkMatrix:=SkMatrix)) (result : SkBitmap)
    (offset : SkIPoint.t)
| op_set (key : Cache.Key (SkMatrix:=SkMatrix)) (image : SkSpecialImage)
    (offset : SkIPoint.t)
| op_set_bitmap (key : Cache.Key (SkMatrix:=SkMatrix)) (result : SkBitmap)
    (offset : SkIPoint.t)
| op_purge
| op_purgeByKeys (keys : list (Cache.Key (SkMatrix:=SkMatrix))).

(** The cache after one operation; [None] is [purge] dereferencing a null
    tail. *)
Definition step (o : Op) (c : Cache.CacheImpl (SkMatrix:=SkMatrix))
  : option (Cache.CacheImpl (SkMatrix:=SkMatrix)) :=
  match o with
  | op_get key offset => Some (Cache.get key offset c).2
  | op_get_bitmap key result offset =>
      Some (Cache.get_bitmap key result offset c).2
  | op_set key image offset => Some (Cache.set size_t_bits key image offset c)
  | op_set_bitmap key result offset =>
      Some (Cache.set_bitmap size_t_bits key result offset c)
  | op_purge => Cache.purge size_t_bits c
  | op_purgeByKeys keys => Some (Cache.purgeByKeys size_t_bits keys c)
  end.

Fixpoint run (ops : list Op) (c : Cache.CacheImpl (SkMatrix:=SkMatrix))
  : option (Cache.CacheImpl (SkMatrix:=SkMatrix)) :=
  match ops with
  | [] => Some c
  | o :: ops =>
      match step o c with
      | Some c' => run ops c'
      | None => None
      end
  end.

End Ops.
End CacheOps.

(** ** Unique ids *)

Module UniqueID.
(** Modelled from the spec: [sk_atomic_inc] is declared in SkAtomics.h,
    which is not in this development; the spec has the counter "incremented
    atomically".  It adds one to the 32-bit counter and returns the value the
    counter had: the returned value and the counter afterwards. *)
Definition sk_atomic_inc (counter : Z) : Z * Z :=
  (counter, wrap_int32 (counter + 1)).

(** [next_image_filter_unique_id()]:
    [do { id = sk_atomic_inc(&gImageFilterUniqueID) + 1; } while (0 == id);].
    The result is the id and [gImageFilterUniqueID] afterwards; [None] is a
    loop still running after [fuel] rounds. *)
Fixpoint next_image_filter_unique_id (fuel : nat) (gImageFilterUniqueID : Z)
  : option (Z * Z) :=
  match fuel with
  | O => None
  | S fuel' =>
      let '(old, counter) := sk_atomic_inc gImageFilterUniqueID in
      let id := wrap_int32 (old + 1) in
      if 0 =? id then next_image_filter_unique_id fuel' counter
      else Some (id, counter)
  end.

(** The ids of [n] calls in a row, oldest first, and the counter after
    them. *)
Fixpoint ids (fuel n : nat) (counter : Z) : option (list Z * Z) :=
  match n with
  | O => Some ([], counter)
  | S n' =>
      match next_image_filter_unique_id fuel counter with
      | Some (id, counter) =>
          match ids fuel n' counter with
          | Some (l, counter) => Some (id :: l, counter)
          | None => None
          end
      | None => None
      end
  end.
End UniqueID.

(** ** The filter graph: construction and bounds *)

Module FilterGraph.

(** [SkImageFilter::MapDirection] *)
Inductive MapDirection := kForward_MapDirection | kReverse_MapDirection.

Section Graph.
Context {SkScalar SkMatrix : Type}.
Variable mapRect : SkMatrix → SkRect.t SkScalar → SkRect.t SkScalar.
Variable roundOut : SkRect.t SkScalar → SkIRect.t.
(** [SkIRect::join] and [SkRect::join], from SkRect.h: the receiver
    afterwards. *)
Variable SkIRect_join : SkIRect.t → SkIRect.t → SkIRect.t.
Variable SkRect_join : SkRect.t SkScalar → SkRect.t SkScalar → SkRect.t SkScalar.
(** [SkRect()] *)
Variable SkRect_default : SkRect.t SkScalar.

(** A filter node as the base class [SkImageFilter] holds it: its input
    slots (a null slot is [None]), the fields the constructor computes, and
    the virtual [onFilterNodeBounds] it was built with ([*dst] as the call
    leaves it). *)
#[warnings="-register-all"]
Inductive Node := MkNode {
  fInputs : list (option Node);
  fUsesSrcInput : bool;
  fCropRect : CropRect.t SkScalar;
  fUniqueID : Z;
  onFilterNodeBounds : SkIRect.t → SkMatrix → MapDirection → SkIRect.t
}.

Definition usesSrcInput (n : Node) : bool := fUsesSrcInput n.

(** The loop of both constructors:
    [if (nullptr == inputs[i] || inputs[i]->usesSrcInput())
       fUsesSrcInput = true;], from [fUsesSrcInput(false)]. *)
Definition uses_src_loop (inputs : list (option Node)) : bool :=
  foldl (λ uses input,
           if match input with
              | None => true
              | Some i => usesSrcInput i
              end
           then true else uses)
        false inputs.

(** [SkImageFilter(int inputCount, SkImageFilter** inputs,
    const CropRect* cropRect)]; [id] is what
    [next_image_filter_unique_id()] returned and [bounds] the
    [onFilterNodeBounds] of the class being constructed. *)
Definition SkImageFilter_new (inputs : list (option Node))
    (cropRect : option (CropRect.t SkScalar)) (id : Z)
    (bounds : SkIRect.t → SkMatrix → MapDirection → SkIRect.t) : Node :=
  MkNode inputs (uses_src_loop inputs)
         (match cropRect with
          | Some r => r
          | None => CropRect.Make SkRect_default 0x0
          end)
         id bounds.

(** The default [SkImageFilter::onFilterNodeBounds]: [*dst = src]. *)
Definition default_onFilterNodeBounds (src : SkIRect.t) (ctm : SkMatrix)
    (direction : MapDirection) : SkIRect.t := src.

(** The graphs the constructor builds: every node is made by
    [SkImageFilter_new] from inputs made that way. *)
Inductive constructed : Node → Prop :=
| constructed_new inputs cropRect id bounds :
    (∀ i, Some i ∈ inputs → constructed i) →
    constructed (SkImageFilter_new inputs cropRect id bounds).

(** Some chain of input slots from the node ends in a null slot. *)
Inductive reaches_null : Node → Prop :=
| reaches_here n : None ∈ fInputs n → reaches_null n
| reaches_through n i : Some i ∈ fInputs n → reaches_null i → reaches_null n.

(** [bool filterBounds(const SkIRect& src, const SkMatrix& ctm, SkIRect* dst,
    MapDirection) const] with the base class's [onFilterBounds] in every
    node: [None] is a return of false ([*dst] is then not written), else
    [*dst]. *)
Fixpoint filterBounds (n : Node) (src : SkIRect.t) (ctm : SkMatrix)
    (direction : MapDirection) {struct n} : option SkIRect.t :=
  match n with
  | MkNode inputs _ cropRect _ nodeBounds =>
      let onFilterBounds (src : SkIRect.t) : option SkIRect.t :=
        match inputs with
        | [] => Some src
        | first :: rest =>
            match (match first with
                   | Some filter => filterBounds filter src ctm direction
                   | None => Some src
                   end) with
            | None => None
            | Some rect =>
                (fix loop (rest : list (option Node)) (totalBounds : SkIRect.t)
                   : option SkIRect.t :=
                   match rest with
                   | [] => Some totalBounds
                   | filter :: rest =>
                       match (match filter with
                              | Some filter =>
                                  filterBounds filter src ctm direction
                              | None => Some src
                              end) with
                       | None => None
                       | Some rect => loop rest (SkIRect_join totalBounds rect)
                       end
                   end) rest rect
            end
        end in
      match direction with
      | kReverse_MapDirection =>
          onFilterBounds (nodeBounds src ctm direction)
      | kForward_MapDirection =>
          match onFilterBounds src with
          | None => None
          | Some bounds =>
              Some (CropRect.applyTo mapRect roundOut cropRect
                      (nodeBounds bounds ctm direction) ctm)
          end
      end
  end.

(** [SkIRect rect = src; if (filter && !filter->filterBounds(src, ctm, &rect,
    direction)) return false;] *)
Definition input_bounds (src : SkIRect.t) (ctm : SkMatrix)
    (direction : MapDirection) (filter : option Node) : option SkIRect.t :=
  match filter with
  | Some filter => filterBounds filter src ctm direction
  | None => Some src
  end.

(** The rounds [i > 0] of the loop of [onFilterBounds]. *)
Fixpoint join_inputs (src : SkIRect.t) (ctm : SkMatrix)
    (direction : MapDirection) (rest : list (option Node))
    (totalBounds : SkIRect.t) : option SkIRect.t :=
  match rest with
  | [] => Some totalBounds
  | filter :: rest =>
      match input_bounds src ctm direction filter with
      | None => None
      | Some rect =>
          join_inputs src ctm direction rest (SkIRect_join totalBounds rect)
      end
  end.

(** The base class's [onFilterBounds]. *)
Definition onFilterBounds (n : Node) (src : SkIRect.t) (ctm : SkMatrix)
    (direction : MapDirection) : option SkIRect.t :=
  match fInputs n with
  | [] => Some src
  | first :: rest =>
      match input_bounds src ctm direction first with
      | None => None
      | Some rect => join_inputs src ctm direction rest rect
      end
  end.

(** [void computeFastBounds(const SkRect& src, SkRect* dst) const], the base
    class's, in every node. *)
Fixpoint computeFastBounds (n : Node) (src : SkRect.t SkScalar)
    {struct n} : SkRect.t SkScalar :=
  match n with
  | MkNode inputs _ _ _ _ =>
      match inputs with
      | [] => src
      | first :: rest =>
          let combinedBounds :=
            match first with
            | Some input => computeFastBounds input src
            | None => src
            end in
          foldl (λ combinedBounds input,
                   match input with
                   | Some input =>
                       SkRect_join combinedBounds (computeFastBounds input src)
                   | None => SkRect_join combinedBounds src
                   end)
                combinedBounds rest
      end
  end.

(** [bool canComputeFastBounds() const], the base class's, in every node. *)
Fixpoint canComputeFastBounds (n : Node) {struct n} : bool :=
  match n with
  | MkNode inputs _ _ _ _ =>
      forallb (λ input,
                 match input with
                 | Some input => canComputeFastBounds input
                 | None => true
                 end)
              inputs
  end.

(** A graph that leaves bounds alone in the given direction: no node
    overrides [onFilterNodeBounds], and where the crop rectangle is applied
    (forward) it has no edge set. *)
Inductive passes_bounds (direction : MapDirection) : Node → Prop :=
| passes_node n :
    (∀ src ctm, onFilterNodeBounds n src ctm direction = src) →
    (direction = kForward_MapDirection → CropRect.fFlags (fCropRect n) = 0) →
    (∀ i, Some i ∈ fInputs n → passes_bounds direction i) →
    passes_bounds direction n.

End Graph.
Arguments MkNode {SkScalar SkMatrix} _ _ _ _ _.
Arguments fInputs {SkScalar SkMatrix} _.
Arguments fUsesSrcInput {SkScalar SkMatrix} _.
Arguments fCropRect {SkScalar SkMatrix} _.
Arguments fUniqueID {SkScalar SkMatrix} _.
Arguments onFilterNodeBounds {SkScalar SkMatrix} _ _ _ _.
End FilterGraph.

(** ** The deprecated bitmap path *)

Module Deprecated.
Section Evaluator.
Context {SkMatrix : Type} `{Countable SkMatrix}.
(** [SkImageFilter::Proxy], an interface implemented by the devices. *)
Context {Proxy : Type}.
Variable size_t_bits : Z.

(** A bitmap filter step, [bool f(const SkBitmap& src, const Context&,
    SkBitmap* result, SkIPoint* offset)], run against the cache: what it
    returns, what it leaves in [*result] and [*offset], and the cache
    afterwards. *)
Definition BitmapFilter : Type :=
  SkBitmap → ImageFilter.Context (SkMatrix:=SkMatrix) → SkBitmap →
  SkIPoint.t → Cache.CacheImpl (SkMatrix:=SkMatrix) →
  bool * SkBitmap * SkIPoint.t * Cache.CacheImpl (SkMatrix:=SkMatrix).

(** What a node is to [filterImageDeprecated]: its identity, whether it
    reads the dynamic source, and its virtual [onFilterImageDeprecated],
    which is handed the proxy (or nullptr) first. *)
Record SkImageFilter := MkFilter {
  fUniqueID : Z;
  fUsesSrcInput : bool;
  onFilterImageDeprecated : option Proxy → BitmapFilter
}.

(** [Proxy::filterImage(const SkImageFilter*, const SkBitmap& src,
    const Context&, SkBitmap* result, SkIPoint* offset)], defined by the
    device behind the proxy. *)
Variable Proxy_filterImage : Proxy → SkImageFilter → BitmapFilter.

(** [Cache::Key key(fUniqueID, context.ctm(), context.clipBounds(), srcGenID,
    SkIRect::MakeWH(0, 0))] *)
Definition make_key (f : SkImageFilter) (src : SkBitmap)
    (context : ImageFilter.Context (SkMatrix:=SkMatrix)) : Cache.Key :=
  let srcGenID := if fUsesSrcInput f then bm_generationID src else 0 in
  Cache.MkKey (fUniqueID f) (ImageFilter.ctm context)
              (ImageFilter.clipBounds context) srcGenID (SkIRect.MakeWH 0 0).

(** The history notes a call that got past the cache probe. *)
Definition past_probe (c : Cache.CacheImpl (SkMatrix:=SkMatrix))
    (s : ImageFilter.State (SkMatrix:=SkMatrix))
  : ImageFilter.State (SkMatrix:=SkMatrix) :=
  ImageFilter.MkState c (ImageFilter.fCacheKeys s)
    (ImageFilter.computeCalls s) (S (ImageFilter.deprecatedCalls s))
    (ImageFilter.insertedKeys s).

(** [bool filterImageDeprecated(Proxy* proxy, const SkBitmap& src,
    const Context&, SkBitmap* result, SkIPoint* offset) const] *)
Definition filterImageDeprecated (f : SkImageFilter) (proxy : option Proxy)
    (src : SkBitmap) (context : ImageFilter.Context (SkMatrix:=SkMatrix))
    (result : SkBitmap) (offset : SkIPoint.t)
    (s : ImageFilter.State (SkMatrix:=SkMatrix))
  : bool * SkBitmap * SkIPoint.t * ImageFilter.State (SkMatrix:=SkMatrix) :=
  let key := make_key f src context in
  let '(hit, result, offset, c) :=
    if ImageFilter.cache context
    then Cache.get_bitmap key result offset (ImageFilter.the_cache s)
    else (false, result, offset, ImageFilter.the_cache s) in
  if hit then (true, result, offset, ImageFilter.with_cache c s)
  else
    let '(ok, result, offset, c) :=
      match proxy with
      | Some p => Proxy_filterImage p f src context result offset c
      | None => (false, result, offset, c)
      end in
    let '(ok, result, offset, c) :=
      if ok then (true, result, offset, c)
      else onFilterImageDeprecated f proxy src context result offset c in
    let s := past_probe c s in
    if ok then
      if ImageFilter.cache context then
        (true, result, offset,
         ImageFilter.push_back key
           (ImageFilter.cache_set_bitmap size_t_bits key result offset s))
      else (true, result, offset, s)
    else (false, result, offset, s).

(** A bitmap filter step that leaves a well-formed cache well formed. *)
Definition step_keeps_wf (step : BitmapFilter) : Prop :=
  ∀ src context result offset c,
    Cache.wf size_t_bits c →
    Cache.wf size_t_bits (step src context result offset c).2.

(** A bitmap filter step that stores nothing under the node id [id]. *)
Definition step_stores_nothing_under (id : Z) (step : BitmapFilter) : Prop :=
  ∀ src context result offset c,
    ImageFilter.foreign_to id c (step src context result offset c).2.

End Evaluator.
End Deprecated.

(** ** The filter evaluator ([SkImageFilter::filterImage]) *)

Module Evaluator.
Section Evaluator.
Context {SkMatrix : Type} `{Countable SkMatrix}.
Context {Proxy : Type}.
Variable size_t_bits : Z.

(** A derived class's [onFilterImage].  It gets the source, the context and
    the incoming [*offset]; it hands back its result (or nullptr), the
    [*offset] it leaves and the cache as its own evaluation of inputs leaves
    it.  [fCacheKeys] is private to the base class, out of its reach. *)
Definition Override : Type :=
  SkSpecialImage → ImageFilter.Context (SkMatrix:=SkMatrix) → SkIPoint.t →
  Cache.CacheImpl (SkMatrix:=SkMatrix) →
  option SkSpecialImage * SkIPoint.t * Cache.CacheImpl (SkMatrix:=SkMatrix).

(** What a filter node is to [filterImage]: its identity, whether it reads
    the dynamic source, its virtual [onFilterImage] ([None] when the class
    does not override it, so that the base class's runs) and its virtual
    [onFilterImageDeprecated]. *)
Record SkImageFilter := MkFilter {
  fUniqueID : Z;
  fUsesSrcInput : bool;
  onFilterImage : option Override;
  onFilterImageDeprecated :
    option Proxy → Deprecated.BitmapFilter (SkMatrix:=SkMatrix)
}.

(** The node as [filterImageDeprecated] sees it. *)
Definition deprecated_part (f : SkImageFilter)
  : Deprecated.SkImageFilter (SkMatrix:=SkMatrix) (Proxy:=Proxy) :=
  Deprecated.MkFilter (fUniqueID f) (fUsesSrcInput f)
                      (onFilterImageDeprecated f).

Variable Proxy_filterImage :
  Proxy → Deprecated.SkImageFilter (SkMatrix:=SkMatrix) (Proxy:=Proxy) →
  Deprecated.BitmapFilter (SkMatrix:=SkMatrix).
(** [SkSpecialImage::internal_getBM] (the bitmap it fills in, [None] when
    it returns false), [internal_getProxy()] and
    [SkSpecialImage::internal_fromBM(proxy, bm)] (nullptr is [None]), from
    SkSpecialImage.cpp. *)
Variable internal_getBM : SkSpecialImage → option SkBitmap.
Variable internal_getProxy : SkSpecialImage → option Proxy.
Variable internal_fromBM : option Proxy → SkBitmap → option SkSpecialImage.

(** [Cache::Key key(fUniqueID, context.ctm(), context.clipBounds(),
    srcGenID, srcSubset)] *)
Definition make_key (f : SkImageFilter) (src : SkSpecialImage)
    (context : ImageFilter.Context (SkMatrix:=SkMatrix)) : Cache.Key :=
  let srcGenID := if fUsesSrcInput f then uniqueID src else 0 in
  let srcSubset := if fUsesSrcInput f then subset src else SkIRect.MakeWH 0 0 in
  Cache.MkKey (fUniqueID f) (ImageFilter.ctm context)
              (ImageFilter.clipBounds context) srcGenID srcSubset.

(** The base class's [SkImageFilter::onFilterImage], the bridge to the
    deprecated bitmap path. *)
Definition base_onFilterImage (f : SkImageFilter) (src : SkSpecialImage)
    (ctx : ImageFilter.Context (SkMatrix:=SkMatrix)) (offset : SkIPoint.t)
    (s : ImageFilter.State (SkMatrix:=SkMatrix))
  : option SkSpecialImage * SkIPoint.t
    * ImageFilter.State (SkMatrix:=SkMatrix) :=
  match internal_getBM src with
  | None => (None, offset, s)
  | Some srcBM =>
      let '(ok, resultBM, offset, s) :=
        Deprecated.filterImageDeprecated size_t_bits Proxy_filterImage
          (deprecated_part f) (internal_getProxy src) srcBM ctx
          SkBitmap_empty offset s in
      if ok then (internal_fromBM (internal_getProxy src) resultBM, offset, s)
      else (None, offset, s)
  end.

(** The history notes a run of [onFilterImage]. *)
Definition count_run (s : ImageFilter.State (SkMatrix:=SkMatrix))
  : ImageFilter.State (SkMatrix:=SkMatrix) :=
  ImageFilter.MkState (ImageFilter.the_cache s) (ImageFilter.fCacheKeys s)
    (S (ImageFilter.computeCalls s)) (ImageFilter.deprecatedCalls s)
    (ImageFilter.insertedKeys s).

(** [this->onFilterImage(src, context, offset)], dispatched. *)
Definition call_onFilterImage (f : SkImageFilter) (src : SkSpecialImage)
    (context : ImageFilter.Context (SkMatrix:=SkMatrix)) (offset : SkIPoint.t)
    (s : ImageFilter.State (SkMatrix:=SkMatrix))
  : option SkSpecialImage * SkIPoint.t
    * ImageFilter.State (SkMatrix:=SkMatrix) :=
  match onFilterImage f with
  | Some override =>
      let '(result, offset, c) :=
        override src context offset (ImageFilter.the_cache s) in
      (result, offset, ImageFilter.with_cache c (count_run s))
  | None => base_onFilterImage f src context offset (count_run s)
  end.

(** [SkSpecialImage* filterImage(SkSpecialImage* src, const Context&,
    SkIPoint* offset) const]: the returned image, the value left in
    [*offset], the state afterwards. *)
Definition filterImage (f : SkImageFilter) (src : SkSpecialImage)
    (context : ImageFilter.Context (SkMatrix:=SkMatrix)) (offset : SkIPoint.t)
    (s : ImageFilter.State (SkMatrix:=SkMatrix))
  : option SkSpecialImage * SkIPoint.t
    * ImageFilter.State (SkMatrix:=SkMatrix) :=
  let key := make_key f src context in
  let '(hit, offset, c) :=
    if ImageFilter.cache context
    then Cache.get key offset (ImageFilter.the_cache s)
    else (None, offset, ImageFilter.the_cache s) in
  match hit with
  | Some result => (Some result, offset, ImageFilter.with_cache c s)
  | None =>
      let '(result, offset, s) :=
        call_onFilterImage f src context offset (ImageFilter.with_cache c s) in
      match result with
      | Some image =>
          if ImageFilter.cache context then
            (Some image, offset,
             ImageFilter.push_back key
               (ImageFilter.cache_set size_t_bits key image offset s))
          else (Some image, offset, s)
      | None => (None, offset, s)
      end
  end.

(** The states a node's evaluation can be in: it starts with no recorded
    keys and nothing cached under its id; the node is evaluated
    ([reach_filter]); a parent on the deprecated path calls the node's
    [onFilterImage] directly, as [filterInputDeprecated] does
    ([reach_compute]); and between these the rest of the program may use the
    cache ([reach_other]) in any way that does not store entries under this
    node's id, which belongs to it alone.  [filterImageDeprecated] runs
    inside the base class's [onFilterImage], its one caller in this file
    ("the only valid call to the old filterImage path"). *)
Inductive reachable (f : SkImageFilter)
  : ImageFilter.State (SkMatrix:=SkMatrix) → Prop :=
| reach_init c :
    (∀ k, Cache.fUniqueID k = fUniqueID f → Cache.fLookup c !! k = None) →
    reachable f (ImageFilter.MkState c [] 0%nat 0%nat [])
| reach_filter s src context offset :
    reachable f s →
    reachable f (filterImage f src context offset s).2
| reach_compute s src context offset :
    reachable f s →
    reachable f (call_onFilterImage f src context offset s).2
| reach_other s c' :
    reachable f s →
    ImageFilter.foreign_to (fUniqueID f) (ImageFilter.the_cache s) c' →
    reachable f (ImageFilter.with_cache c' s).

(** What the node's virtual methods may do to the cache.  They keep it well
    formed: the override of [onFilterImage] where there is one, else
    [onFilterImageDeprecated] and the proxy's [filterImage], which the base
    class's [onFilterImage] runs. *)
Definition keeps_wf (f : SkImageFilter) : Prop :=
  match onFilterImage f with
  | Some override =>
      ∀ src context offset c,
        Cache.wf size_t_bits c →
        Cache.wf size_t_bits (override src context offset c).2
  | None =>
      (∀ proxy, Deprecated.step_keeps_wf size_t_bits
                  (onFilterImageDeprecated f proxy)) ∧
      (∀ p, Deprecated.step_keeps_wf size_t_bits
              (Proxy_filterImage p (deprecated_part f)))
  end.

(** And they store nothing under the node's own id themselves: storing
    under it is left to [filterImage] and [filterImageDeprecated]. *)
Definition stores_nothing_own (f : SkImageFilter) : Prop :=
  match onFilterImage f with
  | Some override =>
      ∀ src context offset c,
        ImageFilter.foreign_to (fUniqueID f) c
          (override src context offset c).2
  | None =>
      (∀ proxy, Deprecated.step_stores_nothing_under (fUniqueID f)
                  (onFilterImageDeprecated f proxy)) ∧
      (∀ p, Deprecated.step_stores_nothing_under (fUniqueID f)
              (Proxy_filterImage p (deprecated_part f)))
  end.

(** The reading of "the recorded keys are the inserted keys minus the
    evicted ones": a key is recorded exactly when the node has stored it and
    the cache still holds it. *)
Definition recorded_are_live_inserted
    (s : ImageFilter.State (SkMatrix:=SkMatrix)) : Prop :=
  ∀ k, k ∈ ImageFilter.fCacheKeys s ↔
       k ∈ ImageFilter.insertedKeys s ∧
       is_Some (Cache.fLookup (ImageFilter.the_cache s) !! k).

End Evaluator.
End Evaluator.

(** ** The destructor *)

Module Lifecycle.
Section Destructor.
Context {SkMatrix : Type} `{Countable SkMatrix}.
Variable size_t_bits : Z.

(** [~SkImageFilter()], as far as the cache goes:
    [Cache::Get()->purgeByKeys(fCacheKeys.begin(), fCacheKeys.count())];
    [global] is the process-wide cache [Cache::Get()] returns. *)
Definition destructor (s : ImageFilter.State (SkMatrix:=SkMatrix))
    (global : Cache.CacheImpl (SkMatrix:=SkMatrix))
  : Cache.CacheImpl (SkMatrix:=SkMatrix) :=
  Cache.purgeByKeys size_t_bits (ImageFilter.fCacheKeys s) global.

End Destructor.
End Lifecycle.

(** ** What an edge covers *)

(** The scan lines an [SkEdge] spans are [fFirstY .. fLastY], both included
    (the fusion tests of [combineVertical] take [fLastY + 1] for the first
    line after an edge): the edge's contribution to the winding count on scan
    line [y]. *)
Definition SkEdge_winding_at (e : SkEdge.t) (y : Z) : Z :=
  if (SkEdge.fFirstY e <=? y) && (y <=? SkEdge.fLastY e)
  then SkEdge.fWinding e else 0.

(** What [addLine] leaves of the previous edge and the new one under each
    verdict of [combineVertical]. *)
Definition SkEdge_after_combine (combine : Combine) (last' edge : SkEdge.t)
  : list SkEdge.t :=
  match combine with
  | kTotal_Combine => []
  | kPartial_Combine => [last']
  | kNo_Combine => [last'; edge]
  end.

(** ** Collaborators for the examples *)

(** Integer-valued coordinates and the basic flavour. *)
Module Grid.
Definition point (x y : Z) : SkPoint.t Z := SkPoint.Make x y.

(** Modelled from the spec: [SkEdge::setLine] is defined in SkEdge.cpp,
    which is not in this development.  By the spec's data model a line edge
    carries integer [firstY <= lastY], fixed-point [x] and [dx], a winding
    of +1 or -1 and [curveCount = 0], and the set-up rejects degenerate
    input, here a line of no height.  [x] is taken at the middle of the
    first scan line. *)
Definition setLine (p0 p1 : SkPoint.t Z) (shift : Z) : option SkEdge.t :=
  let x0 := Z.shiftl (SkPoint.fX p0) shift in
  let y0 := Z.shiftl (SkPoint.fY p0) shift in
  let x1 := Z.shiftl (SkPoint.fX p1) shift in
  let y1 := Z.shiftl (SkPoint.fY p1) shift in
  let '(x0, y0, x1, y1, winding) :=
    if y0 >? y1 then (x1, y1, x0, y0, -1) else (x0, y0, x1, y1, 1) in
  if y0 =? y1 then None
  else
    let slope := (x1 - x0) * 65536 / (y1 - y0) in
    Some (SkEdge.Make (x0 * 65536 + slope / 2) slope y0 (y1 - 1) 0 winding).

(** Modelled from the spec: [SkQuadraticEdge::setQuadratic] and
    [SkCubicEdge::setCubic] are defined in SkEdge.cpp; of a curve edge the
    spec fixes [curveCount > 0] and that degenerate input is rejected.  The
    edge spans the scan lines between the end points. *)
Definition setCurve (first last : SkPoint.t Z) (shift : Z)
  : option SkEdge.t :=
  match setLine first last shift with
  | Some e =>
      Some (SkEdge.Make (SkEdge.fX e) (SkEdge.fDX e) (SkEdge.fFirstY e)
              (SkEdge.fLastY e) 1 (SkEdge.fWinding e))
  | None => None
  end.

Definition sect_with_horizontal (p0 p1 : SkPoint.t Z) (Y : Z) : Z :=
  let dy := SkPoint.fY p1 - SkPoint.fY p0 in
  if dy =? 0 then (SkPoint.fX p0 + SkPoint.fX p1) / 2
  else SkPoint.fX p0
       + (Y - SkPoint.fY p0) * (SkPoint.fX p1 - SkPoint.fX p0) / dy.

Definition sect_with_vertical (p0 p1 : SkPoint.t Z) (X : Z) : Z :=
  let dx := SkPoint.fX p1 - SkPoint.fX p0 in
  if dx =? 0 then (SkPoint.fY p0 + SkPoint.fY p1) / 2
  else SkPoint.fY p0
       + (X - SkPoint.fX p0) * (SkPoint.fY p1 - SkPoint.fY p0) / dx.

(** Modelled from the spec: [SkLineClipper::ClipLine] is defined in
    SkLineClipper.cpp, which is not in this development.  The spec and the
    comment in [buildPoly] give its contract: a line outside the clip's
    vertical extent yields nothing; otherwise it is cut to that extent and
    "portions that are clipped out on the left/right" turn "into vertical
    segments" along that side, up to [kMaxClippedLineSegments] lines in the
    direction of the input; and when [canCullToTheRight] is set a line that
    lies wholly to the right of the clip is dropped instead.  An
    intersection is rounded to the grid. *)
Definition ClipLine (p0 p1 : SkPoint.t Z) (clip : SkRect.t Z)
    (canCullToTheRight : bool) : list (SkPoint.t Z) :=
  let down := SkPoint.fY p0 <? SkPoint.fY p1 in
  let upper := if down then p0 else p1 in
  let lower := if down then p1 else p0 in
  if SkPoint.fY lower <=? SkRect.fTop clip then []
  else if SkPoint.fY upper >=? SkRect.fBottom clip then []
  else
    let upper :=
      if SkPoint.fY upper <? SkRect.fTop clip
      then point (sect_with_horizontal p0 p1 (SkRect.fTop clip))
                 (SkRect.fTop clip)
      else upper in
    let lower :=
      if SkPoint.fY lower >? SkRect.fBottom clip
      then point (sect_with_horizontal p0 p1 (SkRect.fBottom clip))
                 (SkRect.fBottom clip)
      else lower in
    let tmp0 := if down then upper else lower in
    let tmp1 := if down then lower else upper in
    let rightwards := SkPoint.fX p0 <? SkPoint.fX p1 in
    let leftmost := if rightwards then tmp0 else tmp1 in
    let rightmost := if rightwards then tmp1 else tmp0 in
    if SkPoint.fX rightmost <=? SkRect.fLeft clip then
      [point (SkRect.fLeft clip) (SkPoint.fY tmp0);
       point (SkRect.fLeft clip) (SkPoint.fY tmp1)]
    else if SkPoint.fX leftmost >=? SkRect.fRight clip then
      if canCullToTheRight then []
      else [point (SkRect.fRight clip) (SkPoint.fY tmp0);
            point (SkRect.fRight clip) (SkPoint.fY tmp1)]
    else
      let first :=
        if SkPoint.fX leftmost <? SkRect.fLeft clip
        then [point (SkRect.fLeft clip) (SkPoint.fY leftmost);
              point (SkRect.fLeft clip)
                    (sect_with_vertical tmp0 tmp1 (SkRect.fLeft clip))]
        else [leftmost] in
      let second :=
        if SkPoint.fX rightmost >? SkRect.fRight clip
        then [point (SkRect.fRight clip)
                    (sect_with_vertical tmp0 tmp1 (SkRect.fRight clip));
              point (SkRect.fRight clip) (SkPoint.fY rightmost)]
        else [rightmost] in
      if rightwards then first ++ second else rev (first ++ second).

Definition inside (clip : SkRect.t Z) (p : SkPoint.t Z) : bool :=
  (SkRect.fLeft clip <=? SkPoint.fX p) && (SkPoint.fX p <=? SkRect.fRight clip)
  && (SkRect.fTop clip <=? SkPoint.fY p)
  && (SkPoint.fY p <=? SkRect.fBottom clip).

(** The edge clipper of the examples: lines go through [ClipLine]; a curve
    is handed back as it is when the clip contains its control points and is
    rejected otherwise (no example clips a curve that crosses the clip). *)
Definition clipLine (canCullToTheRight : bool) (p0 p1 : SkPoint.t Z)
    (clip : SkRect.t Z) : option (list (EdgeBuilder.Segment (SkScalar:=Z))) :=
  match ClipLine p0 p1 clip canCullToTheRight with
  | [] => None
  | lines =>
      Some ((λ l, EdgeBuilder.Line l.1 l.2)
              <$> EdgeBuilder.line_segments lines)
  end.

Definition clipQuad (canCullToTheRight : bool) (p0 p1 p2 : SkPoint.t Z)
    (clip : SkRect.t Z) : option (list (EdgeBuilder.Segment (SkScalar:=Z))) :=
  if forallb (inside clip) [p0; p1; p2]
  then Some [EdgeBuilder.Quad p0 p1 p2] else None.

Definition clipCubic (canCullToTheRight : bool) (p0 p1 p2 p3 : SkPoint.t Z)
    (clip : SkRect.t Z) : option (list (EdgeBuilder.Segment (SkScalar:=Z))) :=
  if forallb (inside clip) [p0; p1; p2; p3]
  then Some [EdgeBuilder.Cubic p0 p1 p2 p3] else None.

(** The basic builder with [fClipShift = 0] that chops cubics. *)
Definition basic : EdgeBuilder.Flavour SkEdge.t :=
  EdgeBuilder.SkBasicEdgeBuilder id setLine
    (λ p0 p1 p2, setCurve p0 p2) (λ p0 p1 p2 p3, setCurve p0 p3) 0 true.

(** [buildEdges] and its assertions on a 32-bit target with these
    collaborators; conics and curve chopping stay out of the examples, a
    conic is one quad and every curve one piece. *)
Definition buildEdges :=
  EdgeBuilder.buildEdges 32 (λ _ : Z, true) 1 3 ClipLine clipLine clipQuad
    clipCubic (λ p0 p1 p2 w, [(p0, p1, p2)]) (λ p0 p1 p2, [(p0, p1, p2)])
    (λ p0 p1 p2 p3, [(p0, p1, p2, p3)]) (H:=basic).

Definition buildEdges_asserts :=
  EdgeBuilder.buildEdges_asserts 32 (λ _ : Z, true) 1 3 ClipLine clipLine
    clipQuad clipCubic (λ p0 p1 p2 w, [(p0, p1, p2)])
    (λ p0 p1 p2, [(p0, p1, p2)]) (λ p0 p1 p2 p3, [(p0, p1, p2, p3)])
    (H:=basic).

Definition empty : EdgeBuilder.t SkEdge.t := EdgeBuilder.MkBuilder [] [] [].

(** An L-shaped hexagon, a non-convex polygon:
    (10,0) (60,0) (60,20) (70,20) (70,50) (10,50), closed. *)
Definition hexagon : EdgeBuilder.SkPath :=
  EdgeBuilder.MkPath
    [EdgeBuilder.Move (point 10 0);
     EdgeBuilder.Line (point 10 0) (point 60 0);
     EdgeBuilder.Line (point 60 0) (point 60 20);
     EdgeBuilder.Line (point 60 20) (point 70 20);
     EdgeBuilder.Line (point 70 20) (point 70 50);
     EdgeBuilder.Line (point 70 50) (point 10 50);
     EdgeBuilder.Line (point 10 50) (point 10 0);
     EdgeBuilder.Close]
    6 false 1.

(** A convex square (10,10) (40,10) (40,40) (10,40), closed. *)
Definition square : EdgeBuilder.SkPath :=
  EdgeBuilder.MkPath
    [EdgeBuilder.Move (point 10 10);
     EdgeBuilder.Line (point 10 10) (point 40 10);
     EdgeBuilder.Line (point 40 10) (point 40 40);
     EdgeBuilder.Line (point 40 40) (point 10 40);
     EdgeBuilder.Line (point 10 40) (point 10 10);
     EdgeBuilder.Close]
    4 true 1.

(** A path of 1 500 000 000 points; its contents do not matter where it is
    used. *)
Definition huge : EdgeBuilder.SkPath (SkScalar:=Z) :=
  EdgeBuilder.MkPath [] 1500000000 false 1.

Definition window : SkIRect.t := SkIRect.Make 0 0 50 50.

(** Two vertical analytic edges at [x = 0] with the same winding: the
    previous one spans [2.0, 3.0], the new one [1.0, 2.0 + 1/65536]. *)
Definition previous_edge : SkAnalyticEdge.t :=
  SkAnalyticEdge.Make 0 0 0x20000 0x30000 0x20000 0 1.
Definition new_edge : SkAnalyticEdge.t :=
  SkAnalyticEdge.Make 0 0 0x10000 0x20001 0x10000 0 1.
End Grid.

(** Coordinates that may be NaN ([None]), the Bezier flavour, and a clipper
    whose clip contains everything it is shown: it hands every segment back
    as it is. *)
Module Wide.
Definition point (x y : option Z) : SkPoint.t (option Z) := SkPoint.Make x y.

Definition finite (x : option Z) : bool := bool_decide (is_Some x).

Definition bezier
  : EdgeBuilder.Flavour (EdgeBuilder.SkBezier (SkScalar:=option Z)) :=
  EdgeBuilder.SkBezierEdgeBuilder Some (λ _ _, true) (λ _ _ _, true)
    (λ _ _ _ _, true) false.

Definition buildEdges :=
  EdgeBuilder.buildEdges 64 finite 1 3
    (λ p0 p1 _ _, [p0; p1])
    (λ _ p0 p1 _, Some [EdgeBuilder.Line p0 p1])
    (λ _ p0 p1 p2 _, Some [EdgeBuilder.Quad p0 p1 p2])
    (λ _ p0 p1 p2 p3 _, Some [EdgeBuilder.Cubic p0 p1 p2 p3])
    (λ p0 p1 p2 w, [(p0, p1, p2)]) (λ p0 p1 p2, [(p0, p1, p2)])
    (λ p0 p1 p2 p3, [(p0, p1, p2, p3)]) (H:=bezier).

(** A line followed by a quad one of whose coordinates is NaN. *)
Definition broken : EdgeBuilder.SkPath :=
  EdgeBuilder.MkPath
    [EdgeBuilder.Move (point (Some 0) (Some 0));
     EdgeBuilder.Line (point (Some 0) (Some 0)) (point (Some 10) (Some 10));
     EdgeBuilder.Quad (point (Some 10) (Some 10)) (point None (Some 20))
                      (point (Some 0) (Some 30));
     EdgeBuilder.Line (point (Some 0) (Some 30)) (point (Some 0) (Some 0));
     EdgeBuilder.Close]
    4 false 3.

Definition empty : EdgeBuilder.t (EdgeBuilder.SkBezier (SkScalar:=option Z)) :=
  EdgeBuilder.MkBuilder [] [] [].
End Wide.

(** ** Concrete inputs for the examples *)

Module Scenario.
(** The examples need no more of a matrix than an integer translation. *)
Definition Matrix : Type := (Z * Z)%type.

Definition image (id bytes : Z) : SkSpecialImage :=
  {| uniqueID := id; subset := SkIRect.MakeWH 16 16;
     img_width := 16; img_height := 16; getSize := bytes |}.

Definition origin : SkIPoint.t := SkIPoint.Make 0 0.

(** The key of node [node] under the identity transform and clip
    [(0, 0, w, 64)]. *)
Definition key (node w : Z) : Cache.Key (SkMatrix:=Matrix) :=
  Cache.MkKey node (0, 0) (SkIRect.MakeWH w 64) 0 (SkIRect.MakeWH 0 0).

(** A cache of 300 bytes holding one entry, stored under [key 1 64]. *)
Definition one_entry : Cache.CacheImpl (SkMatrix:=Matrix) :=
  Cache.set 64 (key 1 64) (image 1 100) origin (Cache.Create 300).

(** A cache whose only entry declares a size of zero bytes. *)
Definition zero_sized : Cache.CacheImpl (SkMatrix:=Matrix) :=
  Cache.set 64 (key 1 64) (image 1 0) origin (Cache.Create 300).

(** A context under the identity transform with clip [(0, 0, w, 64)] and a
    cache. *)
Definition context (w : Z) : ImageFilter.Context (SkMatrix:=Matrix) :=
  ImageFilter.MkContext (0, 0) (SkIRect.MakeWH w 64) true.

(** The base class's [onFilterImageDeprecated]: it returns false (after an
    assertion that it is never called). *)
Definition base_onFilterImageDeprecated (proxy : option unit)
  : Deprecated.BitmapFilter (SkMatrix:=Matrix) :=
  λ src context result offset c, (false, result, offset, c).

(** A source-independent leaf whose [onFilterImage] draws a 100-byte image
    at the origin and does not touch the cache. *)
Definition leaf : Evaluator.SkImageFilter (SkMatrix:=Matrix) (Proxy:=unit) :=
  Evaluator.MkFilter 7 false
    (Some (λ src context offset c, (Some (image 9 100), origin, c)))
    base_onFilterImageDeprecated.

(** The same leaf in a class that reads the source image. *)
Definition source_leaf
  : Evaluator.SkImageFilter (SkMatrix:=Matrix) (Proxy:=unit) :=
  Evaluator.MkFilter 7 true
    (Some (λ src context offset c, (Some (image 9 100), origin, c)))
    base_onFilterImageDeprecated.

(** A node whose [onFilterImage] fails: it returns nullptr. *)
Definition failing
  : Evaluator.SkImageFilter (SkMatrix:=Matrix) (Proxy:=unit) :=
  Evaluator.MkFilter 8 false (Some (λ src context offset c, (None, offset, c)))
    base_onFilterImageDeprecated.

(** A source-independent node of a class that has only the deprecated
    method: the base class's [onFilterImage] runs, and
    [onFilterImageDeprecated] draws a 64-byte bitmap at the origin without
    touching the cache. *)
Definition bridged
  : Evaluator.SkImageFilter (SkMatrix:=Matrix) (Proxy:=unit) :=
  Evaluator.MkFilter 6 false None
    (λ proxy src context result offset c,
       (true, {| bm_generationID := 11; bm_getSize := 64 |}, origin, c)).

(** Special images backed by a bitmap of the same id and size, without a
    proxy: what [internal_getBM], [internal_getProxy] and [internal_fromBM]
    are in the examples. *)
Definition internal_getBM (src : SkSpecialImage) : option SkBitmap :=
  Some {| bm_generationID := uniqueID src; bm_getSize := getSize src |}.

Definition internal_getProxy (src : SkSpecialImage) : option unit := None.

Definition internal_fromBM (proxy : option unit) (bm : SkBitmap)
  : option SkSpecialImage :=
  Some (image (bm_generationID bm) (bm_getSize bm)).

(** Integer-valued scalars, mapped by a translation and rounded out to
    themselves. *)
Definition mapRect (m : Matrix) (r : SkRect.t Z) : SkRect.t Z :=
  SkRect.Make (SkRect.fLeft r + m.1) (SkRect.fTop r + m.2)
              (SkRect.fRight r + m.1) (SkRect.fBottom r + m.2).

Definition roundOut (r : SkRect.t Z) : SkIRect.t :=
  SkIRect.Make (SkRect.fLeft r) (SkRect.fTop r)
               (SkRect.fRight r) (SkRect.fBottom r).

(** The crop rectangle [(10, 20, 110, 70)] with the given edge mask. *)
Definition crop (flags : Z) : CropRect.t Z :=
  CropRect.Make (SkRect.Make 10 20 110 70) flags.

(** The evaluation state of a fresh node over an empty cache. *)
Definition fresh (maxBytes : Z) : ImageFilter.State (SkMatrix:=Matrix) :=
  ImageFilter.MkState (Cache.Create maxBytes) [] 0%nat 0%nat [].

(** The union of two rectangles, which stands for [SkIRect::join] and
    [SkRect::join] in the examples. *)
Definition join (a b : SkIRect.t) : SkIRect.t :=
  SkIRect.Make (Z.min (SkIRect.fLeft a) (SkIRect.fLeft b))
               (Z.min (SkIRect.fTop a) (SkIRect.fTop b))
               (Z.max (SkIRect.fRight a) (SkIRect.fRight b))
               (Z.max (SkIRect.fBottom a) (SkIRect.fBottom b)).

Definition join_scalar (a b : SkRect.t Z) : SkRect.t Z :=
  SkRect.Make (Z.min (SkRect.fLeft a) (SkRect.fLeft b))
              (Z.min (SkRect.fTop a) (SkRect.fTop b))
              (Z.max (SkRect.fRight a) (SkRect.fRight b))
              (Z.max (SkRect.fBottom a) (SkRect.fBottom b)).

(** A node without inputs, and a node over it whose second slot is null;
    neither has a crop rectangle or overrides [onFilterNodeBounds]. *)
Definition graph_leaf : FilterGraph.Node (SkScalar:=Z) (SkMatrix:=Matrix) :=
  FilterGraph.SkImageFilter_new (SkRect.Make 0 0 0 0) [] None 1
    FilterGraph.default_onFilterNodeBounds.

Definition graph_root : FilterGraph.Node (SkScalar:=Z) (SkMatrix:=Matrix) :=
  FilterGraph.SkImageFilter_new (SkRect.Make 0 0 0 0)
    [Some graph_leaf; None] None 2 FilterGraph.default_onFilterNodeBounds.

(** A node on the deprecated path whose [onFilterImageDeprecated] draws a
    64-byte bitmap at the origin and does not touch the cache. *)
Definition bitmap_leaf
  : Deprecated.SkImageFilter (SkMatrix:=Matrix) (Proxy:=unit) :=
  Deprecated.MkFilter 9 true
    (λ proxy src context result offset c,
       (true, {| bm_generationID := 11; bm_getSize := 64 |}, origin, c)).

(** A proxy that declines every filter. *)
Definition declining_proxy (p : unit)
    (f : Deprecated.SkImageFilter (SkMatrix:=Matrix) (Proxy:=unit))
  : Deprecated.BitmapFilter (SkMatrix:=Matrix) :=
  λ src context result offset c, (false, result, offset, c).

(** [filterImage] with these collaborators, behind the declining proxy. *)
Definition filterImage :=
  Evaluator.filterImage (SkMatrix:=Matrix) 64 declining_proxy internal_getBM
    internal_getProxy internal_fromBM.
End Scenario.

(** * Properties *)

(** ** Machine arithmetic *)

Lemma wrap_unsigned_sub_l bits a b :
  wrap_unsigned bits (wrap_unsigned bits a - b) = wrap_unsigned bits (a - b).
Proof. unfold wrap_unsigned. apply Zminus_mod_idemp_l. Qed.

Lemma wrap_unsigned_add_l bits a b :
  wrap_unsigned bits (wrap_unsigned bits a + b) = wrap_unsigned bits (a + b).
Proof. unfold wrap_unsigned. apply Zplus_mod_idemp_l. Qed.

Lemma wrap_int32_id x : is_int32 x → wrap_int32 x = x.
Proof.
  unfold is_int32, wrap_int32. intros Hx.
  rewrite Z.mod_small; lia.
Qed.

Lemma wrap_int32_range x : is_int32 (wrap_int32 x).
Proof.
  unfold is_int32, wrap_int32.
  pose proof (Z.mod_pos_bound (x + 2 ^ 31) (2 ^ 32) ltac:(lia)). lia.
Qed.

Lemma wrap_int32_add_sub a b : is_int32 b → wrap_int32 (a + wrap_int32 (b - a)) = b.
Proof.
  intros Hb. unfold wrap_int32.
  replace (a + ((b - a + 2 ^ 31) mod 2 ^ 32 - 2 ^ 31) + 2 ^ 31)
    with ((b - a + 2 ^ 31) mod 2 ^ 32 + a) by lia.
  rewrite Zplus_mod_idemp_l.
  replace (b - a + 2 ^ 31 + a) with (b + 2 ^ 31) by lia.
  apply (wrap_int32_id b Hb).
Qed.

(** ** The cache *)

Section CacheTheory.
Context {SkMatrix : Type} `{Countable SkMatrix}.
Variable size_t_bits : Z.
Import Cache.

Local Abbreviation CacheImpl := (Cache.CacheImpl (SkMatrix:=SkMatrix)).
Local Abbreviation Value := (Cache.Value (SkMatrix:=SkMatrix)).
Local Abbreviation Key := (Cache.Key (SkMatrix:=SkMatrix)).
Local Abbreviation wf := (Cache.wf (SkMatrix:=SkMatrix) size_t_bits).
Local Abbreviation removeInternal :=
  (Cache.removeInternal (SkMatrix:=SkMatrix) size_t_bits).
Local Abbreviation evict := (Cache.evict (SkMatrix:=SkMatrix) size_t_bits).
Local Abbreviation wrap := (wrap_unsigned size_t_bits).

Implicit Types (c : CacheImpl) (v x tail : Value) (l : list Value).
Implicit Types (key k : Key).

Lemma addr_inj l x y :
  NoDup (fAddr <$> l) → x ∈ l → y ∈ l → fAddr x = fAddr y → x = y.
Proof.
  induction l as [|a l IH]; intros Hnd Hx Hy Heq.
  - by apply elem_of_nil in Hx.
  - rewrite fmap_cons in Hnd. apply NoDup_cons in Hnd as [Hna Hnd].
    apply elem_of_cons in Hx as [->|Hx]; apply elem_of_cons in Hy as [->|Hy].
    + done.
    + exfalso. apply Hna. rewrite Heq. by apply list_elem_of_fmap_2.
    + exfalso. apply Hna. rewrite <- Heq. by apply list_elem_of_fmap_2.
    + by apply IH.
Qed.

Lemma elem_of_LRU_remove v l x :
  x ∈ LRU_remove v l ↔ fAddr x ≠ fAddr v ∧ x ∈ l.
Proof. unfold LRU_remove. by rewrite list_elem_of_filter. Qed.

Lemma LRU_remove_absent v l :
  fAddr v ∉ fAddr <$> l → LRU_remove v l = l.
Proof.
  unfold LRU_remove. induction l as [|a l IH]; intros Hv; [done|].
  rewrite fmap_cons in Hv. apply not_elem_of_cons in Hv as [Hne Hv].
  rewrite filter_cons_True; [|congruence]. by rewrite IH.
Qed.

Lemma NoDup_LRU_remove v l :
  NoDup (fAddr <$> l) → NoDup (fAddr <$> LRU_remove v l).
Proof.
  unfold LRU_remove. induction l as [|a l IH]; intros Hnd; [constructor|].
  rewrite fmap_cons in Hnd. apply NoDup_cons in Hnd as [Hna Hnd].
  rewrite filter_cons. case_decide.
  - rewrite fmap_cons. apply NoDup_cons. split; [|by apply IH].
    intros (y & Hy & Hin)%list_elem_of_fmap.
    apply list_elem_of_filter in Hin as [_ Hin].
    apply Hna. rewrite Hy. by apply list_elem_of_fmap_2.
  - by apply IH.
Qed.

Lemma sum_bytes_remove v l :
  NoDup (fAddr <$> l) → v ∈ l →
  sum_bytes (LRU_remove v l) = sum_bytes l - Value_bytes v.
Proof.
  induction l as [|a l IH]; intros Hnd Hv.
  - by apply elem_of_nil in Hv.
  - rewrite fmap_cons in Hnd. apply NoDup_cons in Hnd as [Hna Hnd].
    unfold LRU_remove. rewrite filter_cons.
    apply elem_of_cons in Hv as [->|Hv].
    + rewrite decide_False by (intros Hne; by apply Hne).
      fold (LRU_remove a l). rewrite LRU_remove_absent by done.
      simpl. lia.
    + rewrite decide_True.
      * simpl. fold (LRU_remove v l). rewrite IH by done. lia.
      * intros Heq. apply Hna. rewrite Heq. by apply list_elem_of_fmap_2.
Qed.

Lemma length_LRU_remove v l :
  v ∈ l → (length (LRU_remove v l) < length l)%nat.
Proof.
  intros Hv. unfold LRU_remove.
  apply (length_filter_lt _ _ v); [done|]. intros Hne. by apply Hne.
Qed.

Lemma wf_Create maxBytes : wf (Create maxBytes).
Proof.
  split; simpl.
  - constructor.
  - intros v Hv. by apply elem_of_nil in Hv.
  - intros k v. rewrite lookup_empty. split; [done|].
    intros [Hv _]. by apply elem_of_nil in Hv.
  - done.
Qed.

Lemma wf_lookup_elem c v : wf c → v ∈ fLRU c → fLookup c !! fKey v = Some v.
Proof. intros Hwf Hv. by apply (wf_lookup _ _ Hwf). Qed.

Lemma wf_removeInternal c v : wf c → v ∈ fLRU c → wf (removeInternal v c).
Proof.
  intros Hwf Hv. split; simpl.
  - apply NoDup_LRU_remove, Hwf.
  - intros x [_ Hx]%elem_of_LRU_remove. by apply (wf_fresh _ _ Hwf).
  - intros k x. rewrite elem_of_LRU_remove. split.
    + intros Hl. apply lookup_delete_Some in Hl as [Hne Hl].
      apply (wf_lookup _ _ Hwf) in Hl as [Hx Hk]. split; [split|]; try done.
      intros Ha. apply Hne.
      rewrite <- Hk. f_equal. symmetry.
      by apply (addr_inj (fLRU c)); [apply Hwf|..].
    + intros [[Hne Hx] Hk]. apply lookup_delete_Some. split.
      * intros Hkv. apply Hne. f_equal.
        apply (wf_lookup_elem _ _ Hwf) in Hv, Hx. congruence.
      * by apply (wf_lookup _ _ Hwf).
  - rewrite (wf_bytes _ _ Hwf), wrap_unsigned_sub_l.
    by rewrite sum_bytes_remove; [|apply Hwf|].
Qed.

Lemma elem_of_touch v l x :
  NoDup (fAddr <$> l) → v ∈ l → x ∈ touch v l ↔ x ∈ l.
Proof.
  intros Hnd Hv.
  assert (x ∈ v :: LRU_remove v l ↔ x ∈ l) as Hmove.
  { rewrite elem_of_cons, elem_of_LRU_remove. split.
    - intros [->|[_ Hx]]; done.
    - intros Hx. destruct (decide (fAddr x = fAddr v)) as [Ha|Ha].
      + left. by apply (addr_inj l).
      + by right. }
  unfold touch. destruct (head l) as [h|]; [|done].
  by case_decide.
Qed.

Lemma NoDup_touch v l :
  NoDup (fAddr <$> l) → NoDup (fAddr <$> touch v l).
Proof.
  intros Hnd.
  assert (NoDup (fAddr <$> v :: LRU_remove v l)) as Hmove.
  { rewrite fmap_cons. apply NoDup_cons. split; [|by apply NoDup_LRU_remove].
    intros (y & Hy & [Hne _]%elem_of_LRU_remove)%list_elem_of_fmap.
    by apply Hne. }
  unfold touch. destruct (head l) as [h|]; [|done].
  by case_decide.
Qed.

Lemma sum_bytes_touch v l :
  NoDup (fAddr <$> l) → v ∈ l → sum_bytes (touch v l) = sum_bytes l.
Proof.
  intros Hnd Hv.
  assert (sum_bytes (v :: LRU_remove v l) = sum_bytes l) as Hmove.
  { simpl. rewrite sum_bytes_remove by done. lia. }
  unfold touch. destruct (head l) as [h|]; [|done].
  by case_decide.
Qed.

Lemma wf_get c key offset : wf c → wf (get key offset c).2.
Proof.
  intros Hwf. unfold get.
  destruct (fLookup c !! key) as [v|] eqn:Hl; [|done].
  apply (wf_lookup _ _ Hwf) in Hl as [Hv _].
  split; simpl.
  - apply NoDup_touch, Hwf.
  - intros x Hx. apply elem_of_touch in Hx; [|apply Hwf|done].
    by apply (wf_fresh _ _ Hwf).
  - intros k x. rewrite elem_of_touch; [|apply Hwf|done].
    apply (wf_lookup _ _ Hwf).
  - rewrite sum_bytes_touch; [|apply Hwf|done]. apply Hwf.
Qed.

Lemma get_lookup c key offset :
  fLookup (get key offset c).2 = fLookup c.
Proof. unfold get. by destruct (fLookup c !! key). Qed.

Lemma wf_remove_if_present c key : wf c → wf (remove_if_present size_t_bits key c).
Proof.
  intros Hwf. unfold remove_if_present.
  destruct (fLookup c !! key) as [v|] eqn:Hl; [|done].
  apply wf_removeInternal; [done|]. by apply (wf_lookup _ _ Hwf) in Hl as [].
Qed.

Lemma remove_if_present_lookup c key k :
  wf c →
  fLookup (remove_if_present size_t_bits key c) !! k =
    if decide (k = key) then None else fLookup c !! k.
Proof.
  intros Hwf. unfold remove_if_present.
  destruct (fLookup c !! key) as [v|] eqn:Hl.
  - apply (wf_lookup _ _ Hwf) in Hl as [_ Hk]. simpl. rewrite Hk.
    case_decide as Hd.
    + subst k. apply lookup_delete_eq.
    + by rewrite lookup_delete_ne.
  - case_decide; by subst.
Qed.

Lemma remove_if_present_next c key :
  fNextAddr (remove_if_present size_t_bits key c) = fNextAddr c.
Proof. unfold remove_if_present. by destruct (fLookup c !! key). Qed.

Lemma remove_if_present_max c key :
  fMaxBytes (remove_if_present size_t_bits key c) = fMaxBytes c.
Proof. unfold remove_if_present. by destruct (fLookup c !! key). Qed.

Lemma wf_add_value c v :
  wf c → fLookup c !! fKey v = None → fAddr v = fNextAddr c →
  wf (add_value size_t_bits v (Value_bytes v) c).
Proof.
  intros Hwf Hnone Haddr. split; simpl.
  - apply NoDup_cons. split; [|apply Hwf].
    intros (y & Hy & Hin)%list_elem_of_fmap.
    apply (wf_fresh _ _ Hwf) in Hin. lia.
  - intros x [->|Hx]%elem_of_cons; [lia|].
    apply (wf_fresh _ _ Hwf) in Hx. lia.
  - intros k x. rewrite elem_of_cons. destruct (decide (fKey v = k)) as [<-|Hne].
    + rewrite lookup_insert_eq. split.
      * intros [= <-]. by split; [left|].
      * intros [[->|Hx] Hk]; [done|].
        assert (fLookup c !! fKey v = Some x) as Hsome
          by by apply (wf_lookup _ _ Hwf).
        congruence.
    + rewrite lookup_insert_ne by done. rewrite (wf_lookup _ _ Hwf). split.
      * intros [Hx Hk]. by split; [right|].
      * intros [[->|Hx] Hk]; done.
  - rewrite (wf_bytes _ _ Hwf), wrap_unsigned_add_l. f_equal. lia.
Qed.

(** *** The eviction loop *)

Lemma wf_evict fuel v c : wf c → wf (evict fuel v c).
Proof.
  revert c. induction fuel as [|fuel IH]; intros c Hwf; simpl;
    case_decide; try done;
    destruct (last (fLRU c)) as [tail|] eqn:Hlast; try done;
    case_decide; try done.
  apply IH, wf_removeInternal; [done|]. by apply last_Some_elem_of.
Qed.

Lemma evict_max fuel v c : fMaxBytes (evict fuel v c) = fMaxBytes c.
Proof.
  revert c. induction fuel as [|fuel IH]; intros c; simpl;
    case_decide; try done;
    destruct (last (fLRU c)) as [tail|]; try done;
    case_decide; try done.
  by rewrite IH.
Qed.

Lemma evict_head fuel v c :
  head (fLRU c) = Some v → head (fLRU (evict fuel v c)) = Some v.
Proof.
  revert c. induction fuel as [|fuel IH]; intros c Hhd; simpl;
    case_decide; try done;
    destruct (last (fLRU c)) as [tail|] eqn:Hlast; try done;
    case_decide as Hne; try done.
  apply IH. simpl. destruct (fLRU c) as [|h l]; [done|].
  injection Hhd as ->. unfold LRU_remove. rewrite filter_cons_True; [done|].
  congruence.
Qed.

Lemma head_last_single l v tail :
  NoDup (fAddr <$> l) → head l = Some v → last l = Some tail →
  fAddr tail = fAddr v → l = [v].
Proof.
  intros Hnd Hhd Hlast Ha. destruct l as [|h l]; [done|].
  injection Hhd as ->. destruct l as [|y l]; [done|].
  exfalso. rewrite fmap_cons in Hnd. apply NoDup_cons in Hnd as [Hna _].
  apply Hna. rewrite <- Ha. apply list_elem_of_fmap_2.
  apply last_Some_elem_of. by rewrite last_cons_cons in Hlast.
Qed.

(** The loop stops for one of its own two reasons, never for lack of fuel. *)
Lemma evict_exit fuel v c :
  NoDup (fAddr <$> fLRU c) → head (fLRU c) = Some v →
  (length (fLRU c) ≤ S fuel)%nat →
  fCurrentBytes (evict fuel v c) <= fMaxBytes (evict fuel v c) ∨
  fLRU (evict fuel v c) = [v].
Proof.
  revert c. induction fuel as [|fuel IH]; intros c Hnd Hhd Hlen; simpl.
  - case_decide; [|left; lia].
    destruct (last (fLRU c)) as [tail|] eqn:Hlast.
    + right. destruct (fLRU c) as [|h [|y l]] eqn:Hl; simpl in *; [done| |lia].
      case_decide; rewrite Hl; congruence.
    + apply last_None in Hlast. by rewrite Hlast in Hhd.
  - case_decide; [|left; lia].
    destruct (last (fLRU c)) as [tail|] eqn:Hlast.
    + case_decide as Ha.
      * right. by apply (head_last_single _ _ tail).
      * apply IH; simpl.
        -- by apply NoDup_LRU_remove.
        -- destruct (fLRU c) as [|h l]; [done|]. injection Hhd as ->.
           unfold LRU_remove. rewrite filter_cons_True; [done|]. congruence.
        -- pose proof (length_LRU_remove tail (fLRU c)
                         (last_Some_elem_of _ _ Hlast)). lia.
    + apply last_None in Hlast. by rewrite Hlast in Hhd.
Qed.

Lemma evict_fuel_enough fuel1 fuel2 v c :
  head (fLRU c) = Some v →
  (length (fLRU c) ≤ S fuel1)%nat → (length (fLRU c) ≤ S fuel2)%nat →
  evict fuel1 v c = evict fuel2 v c.
Proof.
  revert fuel2 c. induction fuel1 as [|fuel1 IH]; intros fuel2 c Hhd H1 H2.
  - destruct fuel2 as [|fuel2]; [done|]. simpl.
    case_decide; [|done].
    destruct (fLRU c) as [|h [|y l]] eqn:Hl; simpl in *; [done| |lia].
    injection Hhd as ->. by rewrite !decide_True.
  - destruct fuel2 as [|fuel2]; simpl.
    + case_decide; [|done].
      destruct (fLRU c) as [|h [|y l]] eqn:Hl; simpl in *; [done| |lia].
      injection Hhd as ->. by rewrite !decide_True.
    + case_decide; [|done].
      destruct (last (fLRU c)) as [tail|] eqn:Hlast; [|done].
      case_decide as Ha; [done|].
      pose proof (length_LRU_remove tail (fLRU c)
                    (last_Some_elem_of _ _ Hlast)).
      apply IH; simpl; [|lia..].
      destruct (fLRU c) as [|h l]; [done|]. injection Hhd as ->.
      unfold LRU_remove. rewrite filter_cons_True; [done|]. congruence.
Qed.

(** *** [set] *)

Lemma insert_value_spec c v :
  wf c → fLookup c !! fKey v = None → fAddr v = fNextAddr c →
  let c' := insert_value size_t_bits v (Value_bytes v) c in
  wf c' ∧ fMaxBytes c' = fMaxBytes c ∧ head (fLRU c') = Some v ∧
  (fCurrentBytes c' <= fMaxBytes c' ∨ fLRU c' = [v]).
Proof.
  intros Hwf Hnone Haddr c'. unfold c', insert_value. clear c'.
  pose proof (wf_add_value c v Hwf Hnone Haddr) as Hwf2.
  set (c2 := add_value size_t_bits v (Value_bytes v) c) in *.
  split; [|split; [|split]].
  - by apply wf_evict.
  - by rewrite evict_max.
  - by apply evict_head.
  - apply evict_exit; [apply Hwf2|done|lia].
Qed.

Lemma set_spec c key image offset :
  wf c →
  let v := MkValue (fNextAddr c) key SkBitmap_empty (Some image) offset in
  let c' := Cache.set size_t_bits key image offset c in
  wf c' ∧ fMaxBytes c' = fMaxBytes c ∧ head (fLRU c') = Some v ∧
  (fCurrentBytes c' <= fMaxBytes c' ∨ fLRU c' = [v]).
Proof.
  intros Hwf v c'. unfold c', Cache.set.
  rewrite remove_if_present_next. fold v.
  rewrite <- (remove_if_present_max c key).
  apply (insert_value_spec (remove_if_present size_t_bits key c) v).
  - by apply wf_remove_if_present.
  - simpl. rewrite remove_if_present_lookup by done. by rewrite decide_True.
  - simpl. by rewrite remove_if_present_next.
Qed.

Lemma wf_set c key image offset :
  wf c → wf (Cache.set size_t_bits key image offset c).
Proof. intros Hwf. by apply set_spec. Qed.

Lemma set_lookup c key image offset :
  wf c →
  fLookup (Cache.set size_t_bits key image offset c) !! key =
    Some (MkValue (fNextAddr c) key SkBitmap_empty (Some image) offset).
Proof.
  intros Hwf. destruct (set_spec c key image offset Hwf) as (Hwf' & _ & Hhd & _).
  apply (wf_lookup _ _ Hwf'). split; [|done].
  by apply head_Some_elem_of.
Qed.

(** Eviction and replacement only ever take entries away from the table,
    apart from the key being set. *)
Lemma evict_lookup_subset fuel v c k :
  is_Some (fLookup (evict fuel v c) !! k) → is_Some (fLookup c !! k).
Proof.
  revert c. induction fuel as [|fuel IH]; intros c; simpl;
    case_decide; try done;
    destruct (last (fLRU c)) as [tail|]; try done;
    case_decide; try done.
  intros Hs%IH. simpl in Hs.
  destruct (decide (fKey tail = k)) as [<-|Hne].
  - rewrite lookup_delete_eq in Hs. by destruct Hs.
  - by rewrite lookup_delete_ne in Hs.
Qed.

Lemma set_lookup_subset c key image offset k :
  k ≠ key →
  is_Some (fLookup (Cache.set size_t_bits key image offset c) !! k) →
  is_Some (fLookup c !! k).
Proof.
  intros Hne Hs. unfold Cache.set, insert_value in Hs.
  apply evict_lookup_subset in Hs. simpl in Hs.
  rewrite lookup_insert_ne in Hs by done.
  unfold remove_if_present in Hs.
  destruct (fLookup c !! key) as [old|]; [|done]. simpl in Hs.
  destruct (decide (fKey old = k)) as [<-|Hne'].
  - rewrite lookup_delete_eq in Hs. by destruct Hs.
  - by rewrite lookup_delete_ne in Hs.
Qed.

(** C2.  After [set(key, image, offset)] on a well-formed cache: either the
    byte count is within the budget or the list holds the new entry alone;
    the new entry is in the cache (at the head of the list and under its key
    in the table), so its own insertion never evicts it; the byte count is
    that of the live entries, an entry previously stored under the key is no
    longer among them, and its bytes were taken off before the new bytes
    were added. *)
Theorem set_budget_invariant c key image offset :
  wf c →
  let v := MkValue (fNextAddr c) key SkBitmap_empty (Some image) offset in
  let c' := Cache.set size_t_bits key image offset c in
  (fCurrentBytes c' <= fMaxBytes c' ∨ fLRU c' = [v]) ∧
  v ∈ fLRU c' ∧ head (fLRU c') = Some v ∧ fLookup c' !! key = Some v ∧
  wf c' ∧ fCurrentBytes c' = wrap (sum_bytes (fLRU c')) ∧
  (∀ old, fLookup c !! key = Some old →
     (old ∉ fLRU c') ∧
     (wrap (wrap (fCurrentBytes c - Value_bytes old) + getSize image)
        <= fMaxBytes c →
      fCurrentBytes c' =
        wrap (wrap (fCurrentBytes c - Value_bytes old) + getSize image))).
Proof.
  intros Hwf v c'.
  destruct (set_spec c key image offset Hwf) as (Hwf' & Hmax & Hhd & Hexit).
  fold v c' in Hwf', Hmax, Hhd, Hexit.
  pose proof (set_lookup c key image offset Hwf) as Hlook. fold v c' in Hlook.
  split; [done|]. split; [by apply head_Some_elem_of|].
  split; [done|]. split; [done|]. split; [done|]. split; [apply Hwf'|].
  intros old Hl0. split.
  - intros Hold'.
    apply (wf_lookup _ _ Hwf) in Hl0 as [Hold Hk].
    assert (fLookup c' !! key = Some old) as Hl
      by by apply (wf_lookup _ _ Hwf').
    rewrite Hlook in Hl. injection Hl as <-.
    apply (wf_fresh _ _ Hwf) in Hold. simpl in Hold. lia.
  - intros Hfit. unfold c', Cache.set, insert_value, remove_if_present.
    rewrite Hl0. simpl. by rewrite decide_False by lia.
Qed.

(** *** Unfolding [set] one step at a time *)

Lemma set_absent c key image offset :
  fLookup c !! key = None →
  Cache.set size_t_bits key image offset c =
    insert_value size_t_bits
      (MkValue (fNextAddr c) key SkBitmap_empty (Some image) offset)
      (getSize image) c.
Proof. intros Hnone. unfold Cache.set, remove_if_present. by rewrite Hnone. Qed.

Lemma evict_done fuel v c :
  fCurrentBytes c <= fMaxBytes c → evict fuel v c = c.
Proof. intros Hle. destruct fuel; simpl; by rewrite decide_False by lia. Qed.

Lemma evict_step fuel v c tail :
  fCurrentBytes c > fMaxBytes c → last (fLRU c) = Some tail →
  fAddr tail ≠ fAddr v →
  evict (S fuel) v c = evict fuel v (removeInternal tail c).
Proof.
  intros Hgt Hlast Hne. simpl.
  by rewrite decide_True, Hlast, decide_False.
Qed.

Lemma wrap_small z : 0 <= z < 2 ^ size_t_bits → wrap z = z.
Proof. intros Hz. unfold wrap_unsigned. by apply Z.mod_small. Qed.

Lemma set_absent_fits c key image offset :
  fLookup c !! key = None →
  0 <= fCurrentBytes c + getSize image < 2 ^ size_t_bits →
  fCurrentBytes c + getSize image <= fMaxBytes c →
  Cache.set size_t_bits key image offset c =
    MkCache (<[key := MkValue (fNextAddr c) key SkBitmap_empty (Some image) offset]>
               (fLookup c))
            (MkValue (fNextAddr c) key SkBitmap_empty (Some image) offset
               :: fLRU c)
            (fMaxBytes c) (fCurrentBytes c + getSize image) (S (fNextAddr c)).
Proof.
  intros Hnone Hrange Hfit. rewrite set_absent by done.
  unfold insert_value. rewrite evict_done.
  - unfold add_value. cbn [fKey]. by rewrite wrap_small.
  - unfold add_value. cbn [fCurrentBytes fMaxBytes]. by rewrite wrap_small.
Qed.

(** C4.  Budget 300; [K1], [K2], [K3] of 100 bytes each are stored in that
    order, [K1] is read, [K4] of 100 bytes is stored: [K2] has been evicted,
    and [K1], [K3], [K4] are present (the read made [K1] most recently used,
    the store evicted from the other end of the list). *)
Theorem lru_eviction_order (K1 K2 K3 K4 : Key) i1 i2 i3 i4 o1 o2 o3 o4 o :
  9 <= size_t_bits →
  K1 ≠ K2 → K1 ≠ K3 → K1 ≠ K4 → K2 ≠ K3 → K2 ≠ K4 → K3 ≠ K4 →
  getSize i1 = 100 → getSize i2 = 100 → getSize i3 = 100 → getSize i4 = 100 →
  let c3 := Cache.set size_t_bits K3 i3 o3
              (Cache.set size_t_bits K2 i2 o2
                 (Cache.set size_t_bits K1 i1 o1 (Create 300))) in
  let r := get K1 o c3 in
  let c4 := Cache.set size_t_bits K4 i4 o4 r.2 in
  r.1.1 = Some i1 ∧ r.1.2 = o1 ∧
  fLookup c4 !! K2 = None ∧
  fImage <$> fLookup c4 !! K1 = Some (Some i1) ∧
  fImage <$> fLookup c4 !! K3 = Some (Some i3) ∧
  fImage <$> fLookup c4 !! K4 = Some (Some i4) ∧
  fKey <$> fLRU c4 = [K4; K1; K3] ∧
  fCurrentBytes c4 = 300.
Proof.
  intros Hbits H12 H13 H14 H23 H24 H34 Hs1 Hs2 Hs3 Hs4. cbv zeta.
  assert (2 ^ 9 <= 2 ^ size_t_bits) as Hpow by (apply Z.pow_le_mono_r; lia).
  set (v1 := MkValue 0 K1 SkBitmap_empty (Some i1) o1).
  set (v2 := MkValue 1 K2 SkBitmap_empty (Some i2) o2).
  set (v3 := MkValue 2 K3 SkBitmap_empty (Some i3) o3).
  set (v4 := MkValue 3 K4 SkBitmap_empty (Some i4) o4).
  rewrite (set_absent_fits (Create 300) K1);
    [|apply lookup_empty|cbn; lia..].
  cbn [fLookup fLRU fMaxBytes fCurrentBytes fNextAddr Create].
  rewrite Hs1. fold v1.
  rewrite (set_absent_fits _ K2);
    [|cbn [fLookup]; by rewrite lookup_insert_ne, lookup_empty|cbn; lia..].
  cbn [fLookup fLRU fMaxBytes fCurrentBytes fNextAddr].
  rewrite Hs2. fold v2.
  rewrite (set_absent_fits _ K3);
    [|cbn [fLookup]; by rewrite !lookup_insert_ne, lookup_empty|cbn; lia..].
  cbn [fLookup fLRU fMaxBytes fCurrentBytes fNextAddr].
  rewrite Hs3. fold v3.
  unfold get. cbn [fLookup fLRU fMaxBytes fCurrentBytes fNextAddr].
  rewrite !lookup_insert_ne, lookup_insert_eq by done.
  cbn [fst snd fImage fOffset v1].
  unfold touch, LRU_remove. cbn [head fAddr v1 v2 v3].
  rewrite decide_False by done.
  rewrite !filter_cons, filter_nil. cbn [fAddr v1 v2 v3].
  rewrite !decide_True, decide_False by (try done; intros Hne; by apply Hne).
  rewrite set_absent;
    [|cbn [fLookup]; by rewrite !lookup_insert_ne, lookup_empty].
  unfold insert_value, add_value.
  cbn [fLookup fLRU fMaxBytes fCurrentBytes fNextAddr fKey length].
  fold v4. rewrite Hs4.
  rewrite (wrap_small (0 + 100 + 100 + 100 + 100)) by lia.
  rewrite (evict_step _ _ _ v2); [|cbn; lia|done|done].
  rewrite evict_done.
  2:{ unfold removeInternal, Value_bytes.
      cbn [fCurrentBytes fMaxBytes fImage v2]. rewrite Hs2, wrap_small; lia. }
  unfold removeInternal, Value_bytes, LRU_remove.
  cbn [fLookup fLRU fMaxBytes fCurrentBytes fNextAddr fKey fImage v2].
  rewrite Hs2, wrap_small by lia.
  rewrite !filter_cons, filter_nil. cbn [fAddr v1 v2 v3 v4].
  rewrite !decide_True, decide_False by (try done; intros Hne; by apply Hne).
  repeat split.
  - apply lookup_delete_eq.
  - rewrite lookup_delete_ne, !lookup_insert_ne, lookup_insert_eq by done. done.
  - rewrite lookup_delete_ne, lookup_insert_ne, lookup_insert_eq by done. done.
  - rewrite lookup_delete_ne, lookup_insert_eq by done. done.
Qed.

(** *** [purge] *)

Lemma sum_bytes_positive l :
  (∀ v, v ∈ l → 0 < Value_bytes v) →
  0 <= sum_bytes l ∧ (sum_bytes l = 0 → l = []).
Proof.
  induction l as [|a l IH]; intros Hpos; [done|]. simpl.
  destruct IH as [IH _]. { intros v Hv. apply Hpos. by right. }
  pose proof (Hpos a ltac:(by left)). split; lia.
Qed.

(** [purge] does empty a cache all of whose entries declare a positive
    size (and whose sizes add up within [size_t]). *)
Lemma purge_loop_positive fuel c :
  wf c → (∀ v, v ∈ fLRU c → 0 < Value_bytes v) →
  sum_bytes (fLRU c) < 2 ^ size_t_bits →
  (length (fLRU c) ≤ fuel)%nat →
  ∃ c', purge_loop size_t_bits fuel c = Some c' ∧
        fLRU c' = [] ∧ fCurrentBytes c' = 0.
Proof.
  revert c. induction fuel as [|fuel IH]; intros c Hwf Hpos Hsum Hlen.
  - destruct (fLRU c) eqn:Hl; [|simpl in Hlen; lia].
    pose proof (wf_bytes _ _ Hwf) as Hb. rewrite Hl in Hb.
    simpl in Hb, Hsum.
    unfold wrap_unsigned in Hb. rewrite Z.mod_0_l in Hb by lia.
    exists c. simpl. rewrite decide_False by lia. done.
  - pose proof (sum_bytes_positive _ Hpos) as [Hnn Hzero].
    pose proof (wf_bytes _ _ Hwf) as Hb. rewrite wrap_small in Hb by lia.
    simpl. case_decide as Hgt.
    + destruct (last (fLRU c)) as [tail|] eqn:Hlast.
      * pose proof (last_Some_elem_of _ _ Hlast) as Htail.
        pose proof (length_LRU_remove _ _ Htail).
        apply IH.
        -- by apply wf_removeInternal.
        -- intros v [_ Hv]%elem_of_LRU_remove. by apply Hpos.
        -- simpl. rewrite sum_bytes_remove; [|apply Hwf|done].
           pose proof (Hpos tail Htail). lia.
        -- simpl. lia.
      * apply last_None in Hlast. rewrite Hlast in Hb. simpl in Hb. lia.
    + exists c. split; [done|]. split; [apply Hzero|]; lia.
Qed.

(** *** Every operation keeps the cache well formed *)

Lemma wf_set_bitmap c key result offset :
  wf c → wf (set_bitmap size_t_bits key result offset c).
Proof.
  intros Hwf. unfold set_bitmap.
  apply (insert_value_spec (remove_if_present size_t_bits key c)
           (MkValue (fNextAddr (remove_if_present size_t_bits key c)) key
                    result None offset)).
  - by apply wf_remove_if_present.
  - simpl. rewrite remove_if_present_lookup by done. by rewrite decide_True.
  - done.
Qed.

Lemma wf_get_bitmap c key result offset :
  wf c → wf (get_bitmap key result offset c).2.
Proof.
  intros Hwf. pose proof (wf_get c key offset Hwf) as Hget.
  unfold get_bitmap, get in *. by destruct (fLookup c !! key).
Qed.

Lemma wf_purgeByKeys keys c : wf c → wf (purgeByKeys size_t_bits keys c).
Proof.
  unfold purgeByKeys. revert c.
  induction keys as [|k keys IH]; intros c Hwf; [done|].
  simpl. by apply IH, wf_remove_if_present.
Qed.

Lemma wf_purge_loop fuel c c' :
  wf c → purge_loop size_t_bits fuel c = Some c' → wf c'.
Proof.
  revert c. induction fuel as [|fuel IH]; intros c Hwf; simpl;
    case_decide; try done; try by intros [= <-].
  destruct (last (fLRU c)) as [tail|] eqn:Hlast; [|done].
  apply IH, wf_removeInternal; [done|]. by apply last_Some_elem_of.
Qed.

(** The fuel [purge] starts with is enough: more of it changes nothing. *)
Lemma purge_loop_fuel_enough fuel1 fuel2 c :
  (length (fLRU c) ≤ fuel1)%nat → (length (fLRU c) ≤ fuel2)%nat →
  purge_loop size_t_bits fuel1 c = purge_loop size_t_bits fuel2 c.
Proof.
  revert fuel2 c. induction fuel1 as [|fuel1 IH]; intros fuel2 c H1 H2.
  - destruct (fLRU c) eqn:Hl; [|simpl in H1; lia].
    destruct fuel2; simpl; [done|]. by rewrite Hl.
  - destruct fuel2 as [|fuel2].
    + destruct (fLRU c) eqn:Hl; [|simpl in H2; lia].
      simpl. by rewrite Hl.
    + simpl. case_decide; [|done].
      destruct (last (fLRU c)) as [tail|] eqn:Hlast; [|done].
      pose proof (length_LRU_remove tail (fLRU c)
                    (last_Some_elem_of _ _ Hlast)).
      apply IH; simpl; lia.
Qed.

End CacheTheory.

(** C2, on a cache that already holds the key: the entry is replaced. *)
Lemma set_budget_invariant_witness :
  Cache.wf 64 Scenario.one_entry ∧
  let c' := Cache.set 64 (Scenario.key 1 64) (Scenario.image 2 250)
              Scenario.origin Scenario.one_entry in
  Cache.fCurrentBytes c' <= Cache.fMaxBytes c' ∨
  Cache.fLRU c' =
    [Cache.MkValue (Cache.fNextAddr Scenario.one_entry) (Scenario.key 1 64)
       SkBitmap_empty (Some (Scenario.image 2 250)) Scenario.origin].
Proof.
  assert (Cache.wf 64 Scenario.one_entry) as Hwf
    by apply wf_set, wf_Create.
  split; [exact Hwf|].
  exact (proj1 (set_budget_invariant 64 Scenario.one_entry (Scenario.key 1 64)
                  (Scenario.image 2 250) Scenario.origin Hwf)).
Defined.

(** C4, with four keys of one node that differ in the clip. *)
Lemma lru_eviction_order_witness :
  9 <= 64 ∧
  Cache.fLookup
    (Cache.set 64 (Scenario.key 1 4) (Scenario.image 4 100) Scenario.origin
       (Cache.get (Scenario.key 1 1) Scenario.origin
          (Cache.set 64 (Scenario.key 1 3) (Scenario.image 3 100)
             Scenario.origin
             (Cache.set 64 (Scenario.key 1 2) (Scenario.image 2 100)
                Scenario.origin
                (Cache.set 64 (Scenario.key 1 1) (Scenario.image 1 100)
                   Scenario.origin (Cache.Create 300))))).2)
    !! Scenario.key 1 2 = None.
Proof.
  split; [lia|].
  refine (proj1 (proj2 (proj2
    (lru_eviction_order 64
       (Scenario.key 1 1) (Scenario.key 1 2) (Scenario.key 1 3)
       (Scenario.key 1 4)
       (Scenario.image 1 100) (Scenario.image 2 100) (Scenario.image 3 100)
       (Scenario.image 4 100)
       Scenario.origin Scenario.origin Scenario.origin Scenario.origin
       Scenario.origin _ _ _ _ _ _ _ _ _ _ _))));
    first [lia | reflexivity | discriminate].
Defined.

(** C9.  [purge] on a cache whose only entry declares zero bytes returns at
    once and leaves the entry in place; and with a zero-sized entry in front
    of a 100-byte one it evicts the 100-byte entry and stops there. *)
Theorem purge_keeps_zero_sized_entries :
  Cache.wf 64 Scenario.zero_sized ∧
  Cache.purge 64 Scenario.zero_sized = Some Scenario.zero_sized ∧
  Cache.fKey <$> Cache.fLRU Scenario.zero_sized = [Scenario.key 1 64] ∧
  (λ c, Cache.fKey <$> Cache.fLRU c) <$>
    Cache.purge 64
      (Cache.set 64 (Scenario.key 2 64) (Scenario.image 2 0) Scenario.origin
         Scenario.one_entry)
  = Some [Scenario.key 2 64].
Proof.
  split; [apply wf_set, wf_Create|]. by vm_compute.
Qed.

(** An entry larger than the budget stays until the next store, which evicts
    it first. *)
Example oversized_insert :
  let c := Cache.set 64 (Scenario.key 1 64) (Scenario.image 1 500)
             Scenario.origin (Cache.Create 100) in
  let c' := Cache.set 64 (Scenario.key 2 64) (Scenario.image 2 10)
              Scenario.origin c in
  Cache.fCurrentBytes c = 500 ∧
  Cache.fKey <$> Cache.fLRU c = [Scenario.key 1 64] ∧
  Cache.fCurrentBytes c' = 10 ∧
  Cache.fKey <$> Cache.fLRU c' = [Scenario.key 2 64] ∧
  Cache.fLookup c' !! Scenario.key 1 64 = None.
Proof. by vm_compute. Qed.

(** Storing twice under one key leaves the second value and its bytes. *)
Example replace_semantics :
  let c := Cache.set 64 (Scenario.key 1 64) (Scenario.image 2 40)
             Scenario.origin Scenario.one_entry in
  (Cache.get (Scenario.key 1 64) Scenario.origin c).1.1
    = Some (Scenario.image 2 40) ∧
  Cache.fCurrentBytes c = 40.
Proof. by vm_compute. Qed.

(** ** The crop rectangle *)

Section CropRectTheory.
Context {SkScalar SkMatrix : Type}.
Variable mapRect : SkMatrix → SkRect.t SkScalar → SkRect.t SkScalar.
Variable roundOut : SkRect.t SkScalar → SkIRect.t.
Import CropRect.

Local Abbreviation applyTo := (CropRect.applyTo mapRect roundOut).

Lemma has_edge_zero edge : has_edge 0 edge = false.
Proof. done. Qed.

(** C5.  With no flag set the bounds come back unchanged; with all four
    edges set the result is the transformed crop rounded out; with the width
    edge alone, left, top and bottom are the input's and right is the
    input's left plus the width of the rounded-out transformed crop; and
    whenever the width edge is set, right is the result's own left, that is
    the left after any override, plus that width. *)
Theorem applyTo_decomposition (self : CropRect.t SkScalar) imageBounds
    (ctm : SkMatrix) :
  let dev := roundOut (mapRect ctm (fRect self)) in
  SkIRect.valid dev →
  (fFlags self = 0 → applyTo self imageBounds ctm = imageBounds) ∧
  (has_edge (fFlags self) kHasLeft_CropEdge = true →
   has_edge (fFlags self) kHasTop_CropEdge = true →
   has_edge (fFlags self) kHasWidth_CropEdge = true →
   has_edge (fFlags self) kHasHeight_CropEdge = true →
   applyTo self imageBounds ctm = dev) ∧
  (has_edge (fFlags self) kHasLeft_CropEdge = false →
   has_edge (fFlags self) kHasTop_CropEdge = false →
   has_edge (fFlags self) kHasWidth_CropEdge = true →
   has_edge (fFlags self) kHasHeight_CropEdge = false →
   applyTo self imageBounds ctm =
     SkIRect.Make (SkIRect.fLeft imageBounds) (SkIRect.fTop imageBounds)
       (wrap_int32 (SkIRect.fLeft imageBounds + SkIRect.width dev))
       (SkIRect.fBottom imageBounds)) ∧
  (has_edge (fFlags self) kHasWidth_CropEdge = true →
   SkIRect.fRight (applyTo self imageBounds ctm) =
     wrap_int32 (SkIRect.fLeft (applyTo self imageBounds ctm)
                 + SkIRect.width dev)).
Proof.
  intros dev (Hl & Ht & Hr & Hb). unfold CropRect.applyTo. fold dev.
  split; [by intros ->|].
  destruct (fFlags self =? 0) eqn:Hz.
  { apply Z.eqb_eq in Hz. rewrite Hz, !has_edge_zero.
    repeat split; intros; discriminate. }
  cbn [negb]. split; [|split].
  - intros -> -> -> ->. cbn [SkIRect.fLeft SkIRect.fTop].
    unfold SkIRect.width, SkIRect.height.
    rewrite !wrap_int32_add_sub by done. by destruct dev.
  - intros -> -> -> ->. by destruct imageBounds.
  - intros ->. by do 3 case_match.
Qed.

End CropRectTheory.

(** C5 on the crop [(10, 20, 110, 70)] under a translation by [(5, 5)]. *)
Lemma applyTo_decomposition_witness :
  SkIRect.valid (Scenario.roundOut
                   (Scenario.mapRect (5, 5) (CropRect.fRect (Scenario.crop 4)))) ∧
  CropRect.applyTo Scenario.mapRect Scenario.roundOut (Scenario.crop 4)
    (SkIRect.MakeWH 64 64) (5, 5) = SkIRect.Make 0 0 100 64.
Proof.
  assert (SkIRect.valid
            (Scenario.roundOut
               (Scenario.mapRect (5, 5) (CropRect.fRect (Scenario.crop 4)))))
    as Hvalid by (vm_compute; intuition discriminate).
  split; [exact Hvalid|].
  exact (proj1 (proj2 (proj2
    (applyTo_decomposition Scenario.mapRect Scenario.roundOut
       (Scenario.crop 4) (SkIRect.MakeWH 64 64) (5, 5) Hvalid)))
    eq_refl eq_refl eq_refl eq_refl).
Defined.

(** ** The edge builder *)

(** [approximately_equal] is the tolerance test whenever the difference of
    its arguments and the negation of that difference are representable. *)
Lemma approximately_equal_spec a b :
  - 2 ^ 31 < a - b < 2 ^ 31 →
  SkAnalyticEdge.approximately_equal a b = true ↔ Z.abs (a - b) < 0x100.
Proof.
  intros Hab. unfold SkAnalyticEdge.approximately_equal, SkAbs32.
  rewrite (wrap_int32_id (a - b)) by (unfold is_int32; lia).
  destruct (Z.ltb_spec (a - b) 0) as [Hneg|Hpos].
  - rewrite wrap_int32_id by (unfold is_int32; lia).
    rewrite Z.ltb_lt. lia.
  - rewrite Z.ltb_lt. lia.
Qed.

(** C6.  Two vertical edges at the same [x] with the same winding, the new
    one ending 1/65536 below the top of the previous one: within the
    tolerance the new edge ends where the previous one starts, yet
    [combineVertical] reports [kNo_Combine] and leaves the previous edge as
    it was, because that one test compares with [==]. *)
Theorem analytic_top_test_is_exact :
  Z.abs (SkAnalyticEdge.fLowerY Grid.new_edge
         - SkAnalyticEdge.fUpperY Grid.previous_edge) < 0x100 ∧
  SkAnalyticEdge.touches_above_spec Grid.new_edge Grid.previous_edge = true ∧
  SkAnalyticEdge.combineVertical Grid.new_edge Grid.previous_edge
    = (kNo_Combine, Grid.previous_edge).
Proof. by vm_compute. Qed.

(** Opposite windings over the same rows cancel; the same winding on the
    rows just below extends the previous edge. *)
Example vertical_cancellation :
  SkEdge.combineVertical (SkEdge.Make 0 0 10 20 0 (-1))
                         (SkEdge.Make 0 0 10 20 0 1)
    = (kTotal_Combine, SkEdge.Make 0 0 10 20 0 1).
Proof. reflexivity. Qed.

Example vertical_extension :
  SkEdge.combineVertical (SkEdge.Make 5 0 21 30 0 1)
                         (SkEdge.Make 5 0 10 20 0 1)
    = (kPartial_Combine, SkEdge.Make 5 0 10 30 0 1).
Proof. reflexivity. Qed.

(** Through [addLine]: a vertical line down rows 10 to 20 and the same line
    back up leave the list empty. *)
Example addLine_cancels :
  EdgeBuilder.fList
    (EdgeBuilder.addLine (Flavour:=Grid.basic) (Grid.point 0 21)
       (Grid.point 0 10)
       (EdgeBuilder.addLine (Flavour:=Grid.basic) (Grid.point 0 10)
          (Grid.point 0 21) Grid.empty)) = [].
Proof. reflexivity. Qed.

(** A convex square that reaches beyond the clip keeps its right side, as a
    vertical edge along the clip's right side. *)
Example convex_square_keeps_right_edge :
  (Grid.buildEdges Grid.square (Some (SkIRect.Make 0 0 30 50)) Grid.empty).1
    = 2 ∧
  SkEdge.fX <$>
    EdgeBuilder.fEdgeList
      (Grid.buildEdges Grid.square (Some (SkIRect.Make 0 0 30 50))
         Grid.empty).2
    = [30 * 65536; 10 * 65536].
Proof. by vm_compute. Qed.

Section EdgeBuilderTheory.
Context {SkScalar : Type}.
Variable size_t_bits : Z.
Variable SkScalarIsFinite : SkScalar → bool.
Variable kLine_SegmentMask : Z.
Variable kMaxClippedLineSegments : Z.
Variable ClipLine :
  SkPoint.t SkScalar → SkPoint.t SkScalar → SkRect.t SkScalar → bool →
  list (SkPoint.t SkScalar).
Variable clipLine :
  bool → SkPoint.t SkScalar → SkPoint.t SkScalar → SkRect.t SkScalar →
  option (list (EdgeBuilder.Segment (SkScalar:=SkScalar))).
Variable clipQuad :
  bool → SkPoint.t SkScalar → SkPoint.t SkScalar → SkPoint.t SkScalar →
  SkRect.t SkScalar → option (list (EdgeBuilder.Segment (SkScalar:=SkScalar))).
Variable clipCubic :
  bool → SkPoint.t SkScalar → SkPoint.t SkScalar → SkPoint.t SkScalar →
  SkPoint.t SkScalar → SkRect.t SkScalar →
  option (list (EdgeBuilder.Segment (SkScalar:=SkScalar))).
Variable computeQuads :
  SkPoint.t SkScalar → SkPoint.t SkScalar → SkPoint.t SkScalar → SkScalar →
  list (SkPoint.t SkScalar * SkPoint.t SkScalar * SkPoint.t SkScalar).
Variable SkChopQuadAtYExtrema :
  SkPoint.t SkScalar → SkPoint.t SkScalar → SkPoint.t SkScalar →
  list (SkPoint.t SkScalar * SkPoint.t SkScalar * SkPoint.t SkScalar).
Variable SkChopCubicAtYExtrema :
  SkPoint.t SkScalar → SkPoint.t SkScalar → SkPoint.t SkScalar →
  SkPoint.t SkScalar →
  list (SkPoint.t SkScalar * SkPoint.t SkScalar * SkPoint.t SkScalar
        * SkPoint.t SkScalar).
Context {E : Type} `{!EdgeBuilder.Flavour (SkScalar:=SkScalar) E}.
Import EdgeBuilder.

Local Abbreviation Segment := (EdgeBuilder.Segment (SkScalar:=SkScalar)).
Local Abbreviation SkPath := (EdgeBuilder.SkPath (SkScalar:=SkScalar)).
Local Abbreviation segment_is_finite :=
  (EdgeBuilder.segment_is_finite SkScalarIsFinite).
Local Abbreviation apply_clipper :=
  (EdgeBuilder.apply_clipper SkScalarIsFinite (E:=E)).
Local Abbreviation clipper_batches :=
  (EdgeBuilder.clipper_batches clipLine clipQuad clipCubic computeQuads).
Local Abbreviation drain_batches :=
  (EdgeBuilder.drain_batches SkScalarIsFinite (E:=E)).
Local Abbreviation build_clipped_verb :=
  (EdgeBuilder.build_clipped_verb SkScalarIsFinite clipLine clipQuad clipCubic
     computeQuads (E:=E)).
Local Abbreviation build_loop :=
  (EdgeBuilder.build_loop SkScalarIsFinite clipLine clipQuad clipCubic
     computeQuads SkChopQuadAtYExtrema SkChopCubicAtYExtrema (E:=E)).
Local Abbreviation build :=
  (EdgeBuilder.build SkScalarIsFinite clipLine clipQuad clipCubic
     computeQuads SkChopQuadAtYExtrema SkChopCubicAtYExtrema (E:=E)).
Local Abbreviation buildPoly :=
  (EdgeBuilder.buildPoly size_t_bits kMaxClippedLineSegments ClipLine (E:=E)).
Local Abbreviation buildEdges :=
  (EdgeBuilder.buildEdges size_t_bits SkScalarIsFinite kLine_SegmentMask
     kMaxClippedLineSegments ClipLine clipLine clipQuad clipCubic
     computeQuads SkChopQuadAtYExtrema SkChopCubicAtYExtrema (E:=E)).
Local Abbreviation buildEdges_asserts :=
  (EdgeBuilder.buildEdges_asserts size_t_bits SkScalarIsFinite
     kLine_SegmentMask kMaxClippedLineSegments ClipLine clipLine clipQuad
     clipCubic computeQuads SkChopQuadAtYExtrema SkChopCubicAtYExtrema (E:=E)).

Implicit Types (seg bad : Segment) (segs batch pre post : list Segment).
Implicit Types (st : EdgeBuilder.t E * bool) (b : EdgeBuilder.t E).
Implicit Types (path : SkPath).

(** *** Draining the clipper *)

Lemma apply_clipper_stays_false segs st :
  st.2 = false → (apply_clipper segs st).2 = false.
Proof.
  revert st. induction segs as [|seg rest IH]; intros st Hst; simpl; [done|].
  case_match; [done|]. by apply IH.
Qed.

Lemma apply_clipper_abandons pre bad post st :
  (∀ seg, seg ∈ pre → segment_is_finite seg = true) →
  segment_is_finite bad = false →
  apply_clipper (pre ++ bad :: post) st = ((apply_clipper pre st).1, false).
Proof.
  revert st. induction pre as [|seg pre IH]; intros st Hpre Hbad; simpl.
  - unfold EdgeBuilder.segment_is_finite in Hbad. by rewrite Hbad.
  - pose proof (Hpre seg ltac:(by left)) as Hseg.
    unfold EdgeBuilder.segment_is_finite in Hseg. rewrite Hseg. simpl.
    apply IH; [|done]. intros s Hs. apply Hpre. by right.
Qed.

Lemma apply_clipper_nonfinite batch bad st :
  bad ∈ batch → segment_is_finite bad = false →
  (apply_clipper batch st).2 = false.
Proof.
  revert st. induction batch as [|seg rest IH]; intros st Hin Hbad.
  - by apply elem_of_nil in Hin.
  - simpl. destruct (EdgeBuilder.SkScalarsAreFinite _ _ _) eqn:Hfin; [|done].
    simpl. apply elem_of_cons in Hin as [->|Hin].
    + unfold EdgeBuilder.segment_is_finite in Hbad. congruence.
    + by apply IH.
Qed.

Lemma drain_batches_stays_false batches st :
  st.2 = false → (drain_batches batches st).2 = false.
Proof.
  revert st. induction batches as [|batch rest IH]; intros st Hst; [done|].
  simpl. by apply IH, apply_clipper_stays_false.
Qed.

Lemma drain_batches_nonfinite batches batch bad st :
  batch ∈ batches → bad ∈ batch → segment_is_finite bad = false →
  (drain_batches batches st).2 = false.
Proof.
  revert st. induction batches as [|a rest IH]; intros st Hb Hin Hbad.
  - by apply elem_of_nil in Hb.
  - simpl. apply elem_of_cons in Hb as [<-|Hb].
    + apply drain_batches_stays_false. by eapply apply_clipper_nonfinite.
    + by eapply IH.
Qed.

Lemma clipped_option_list (r : option (list Segment)) st :
  EdgeBuilder.clipped SkScalarIsFinite r st = drain_batches (option_list r) st.
Proof. by destruct r. Qed.

(** One verb of the clipped loop drains the batches the clipper holds for
    it, one after the other. *)
Lemma build_clipped_verb_batches clip canCull seg st :
  build_clipped_verb clip canCull seg st =
    drain_batches (clipper_batches clip canCull seg) st.
Proof.
  destruct seg as [p0|p0 p1|p0 p1 p2|p0 p1 p2 w|p0 p1 p2 p3|]; simpl;
    try done; try apply clipped_option_list.
  revert st. induction (computeQuads p0 p1 p2 w) as [|q quads IH];
    intros st; [done|].
  simpl. rewrite IH, clipped_option_list. unfold drain_batches.
  by rewrite foldl_app.
Qed.

Lemma clipped_loop_stays_false clip canCull segs st :
  st.2 = false →
  (foldl (λ st seg, build_clipped_verb clip canCull seg st) st segs).2 = false.
Proof.
  revert st. induction segs as [|seg rest IH]; intros st Hst; [done|].
  simpl. apply IH. rewrite build_clipped_verb_batches.
  by apply drain_batches_stays_false.
Qed.

Lemma clipped_loop_nonfinite clip canCull segs seg batch bad st :
  seg ∈ segs → batch ∈ clipper_batches clip canCull seg → bad ∈ batch →
  segment_is_finite bad = false →
  (foldl (λ st seg, build_clipped_verb clip canCull seg st) st segs).2 = false.
Proof.
  revert st. induction segs as [|a rest IH]; intros st Hseg Hb Hin Hbad.
  - by apply elem_of_nil in Hseg.
  - simpl. apply elem_of_cons in Hseg as [<-|Hseg].
    + apply clipped_loop_stays_false. rewrite build_clipped_verb_batches.
      by eapply drain_batches_nonfinite.
    + by eapply IH.
Qed.

(** C7.  A path that takes the general route with a clip, one of whose
    verbs makes the clipper hold a segment with a coordinate that is not
    finite: [buildEdges] returns 0; and the drain of that batch stops at the
    segment, the builder being as the finite segments before it left it. *)
Theorem nonfinite_segment_aborts_build path iclip b seg batch bad :
  getSegmentMasks path ≠ kLine_SegmentMask →
  seg ∈ iter path →
  batch ∈ clipper_batches (recoverClip iclip) (negb (isConvex path)) seg →
  bad ∈ batch →
  segment_is_finite bad = false →
  (buildEdges path (Some iclip) b).1 = 0 ∧
  (∀ pre post st,
     batch = pre ++ bad :: post →
     (∀ s, s ∈ pre → segment_is_finite s = true) →
     apply_clipper batch st = ((apply_clipper pre st).1, false)).
Proof.
  intros Hmask Hseg Hbatch Hin Hbad. split.
  - unfold EdgeBuilder.buildEdges.
    destruct (Z.eqb_spec kLine_SegmentMask (getSegmentMasks path)) as [Heq|_];
      [by rewrite Heq in Hmask|].
    unfold EdgeBuilder.build, EdgeBuilder.build_loop.
    pose proof (clipped_loop_nonfinite (recoverClip iclip)
                  (negb (isConvex path)) (iter path) seg batch bad (b, true)
                  Hseg Hbatch Hin Hbad) as Hfin.
    destruct (foldl _ _ _) as [b' fin]. simpl in Hfin. by subst fin.
  - intros pre post st -> Hpre. by apply apply_clipper_abandons.
Qed.

(** C10.  With a clip, when [countPoints() * kMaxClippedLineSegments] does
    not fit [size_t], [buildPoly] returns 0 and the builder is as it was:
    nothing allocated, no edge list written. *)
Theorem buildPoly_overflow_returns_zero path iclip canCull b :
  2 ^ size_t_bits
    <= wrap_unsigned size_t_bits (countPoints path) * kMaxClippedLineSegments →
  buildPoly path (Some iclip) canCull b = (0, b).
Proof.
  intros Hover. unfold EdgeBuilder.buildPoly, SkSafeMath_mul.
  destruct (Z.ltb_spec
              (wrap_unsigned size_t_bits (countPoints path)
               * kMaxClippedLineSegments) (2 ^ size_t_bits)); [lia|done].
Qed.

(** *** The count and the assertion of [buildEdges] *)

Lemma buildPoly_count_nonneg path iclip canCull b :
  0 <= (buildPoly path iclip canCull b).1.
Proof.
  unfold EdgeBuilder.buildPoly.
  destruct (match iclip with Some _ => _ | None => _ end) as [safe n].
  destruct safe; simpl; lia.
Qed.

Lemma build_count_nonneg path iclip canCull b :
  0 <= (build path iclip canCull b).1.
Proof.
  unfold EdgeBuilder.build.
  destruct (EdgeBuilder.build_loop _ _ _ _ _ _ _ _ _ _ _) as [b' fin].
  destruct fin; simpl; lia.
Qed.

(** C1, as the code has it.  The count is never negative.  For a non-convex
    path [buildEdges] asserts nothing about a count of 1; for a convex path
    built with cubic chopping its assertions hold exactly when the count is
    not 1. *)
Theorem buildEdges_count_assertion path shiftedClip b :
  0 <= (buildEdges path shiftedClip b).1 ∧
  (isConvex path = false → buildEdges_asserts path shiftedClip b = true) ∧
  (isConvex path = true → chopCubics = true →
   (buildEdges_asserts path shiftedClip b = true ↔
    (buildEdges path shiftedClip b).1 ≠ 1)).
Proof.
  assert (0 <= (buildEdges path shiftedClip b).1) as Hnn.
  { unfold EdgeBuilder.buildEdges. case_match.
    - apply buildPoly_count_nonneg.
    - apply build_count_nonneg. }
  split; [done|]. unfold EdgeBuilder.buildEdges_asserts.
  apply Z.leb_le in Hnn. rewrite Hnn. simpl. split.
  - by intros ->.
  - intros -> ->. simpl.
    destruct (Z.eqb_spec (buildEdges path shiftedClip b).1 1) as [->|Hne];
      simpl; split; done.
Qed.

End EdgeBuilderTheory.

(** C1 fails as stated: the L-shaped hexagon is not convex, its right side
    lies beyond the clip [(0, 0, 50, 50)] and is culled, its horizontal
    sides have no height, and the basic builder, which chops cubics, returns
    the one edge that is left. *)
Lemma nonconvex_path_with_one_edge :
  EdgeBuilder.isConvex Grid.hexagon = false ∧
  EdgeBuilder.chopCubics (Flavour:=Grid.basic) = true ∧
  (Grid.buildEdges Grid.hexagon (Some Grid.window) Grid.empty).1 = 1 ∧
  Grid.buildEdges_asserts Grid.hexagon (Some Grid.window) Grid.empty = true.
Proof. by vm_compute. Qed.

(** C7 on a path whose quad has a NaN control point. *)
Lemma nonfinite_segment_aborts_build_witness :
  (Wide.buildEdges Wide.broken (Some Grid.window) Wide.empty).1 = 0.
Proof.
  refine (proj1
    (nonfinite_segment_aborts_build 64 Wide.finite 1 3
       (λ p0 p1 _ _, [p0; p1])
       (λ _ p0 p1 _, Some [EdgeBuilder.Line p0 p1])
       (λ _ p0 p1 p2 _, Some [EdgeBuilder.Quad p0 p1 p2])
       (λ _ p0 p1 p2 p3 _, Some [EdgeBuilder.Cubic p0 p1 p2 p3])
       (λ p0 p1 p2 w, [(p0, p1, p2)]) (λ p0 p1 p2, [(p0, p1, p2)])
       (λ p0 p1 p2 p3, [(p0, p1, p2, p3)])
       Wide.broken Grid.window Wide.empty
       (EdgeBuilder.Quad (Wide.point (Some 10) (Some 10))
          (Wide.point None (Some 20)) (Wide.point (Some 0) (Some 30)))
       [EdgeBuilder.Quad (Wide.point (Some 10) (Some 10))
          (Wide.point None (Some 20)) (Wide.point (Some 0) (Some 30))]
       (EdgeBuilder.Quad (Wide.point (Some 10) (Some 10))
          (Wide.point None (Some 20)) (Wide.point (Some 0) (Some 30)))
       _ _ _ _ _)).
  - discriminate.
  - do 2 right. by left.
  - by left.
  - by left.
  - reflexivity.
Defined.

(** C10 on a 32-bit target: 1 500 000 000 points times 3 overflows. *)
Lemma buildPoly_overflow_returns_zero_witness :
  2 ^ 32 <= wrap_unsigned 32 (EdgeBuilder.countPoints Grid.huge) * 3 ∧
  EdgeBuilder.buildPoly 32 3 Grid.ClipLine (H:=Grid.basic) Grid.huge
    (Some Grid.window) true Grid.empty = (0, Grid.empty).
Proof.
  split; [by vm_compute|].
  apply (buildPoly_overflow_returns_zero 32 3 Grid.ClipLine).
  by vm_compute.
Defined.

(** ** Laws of the cache operations *)

Section CacheLaws.
Context {SkMatrix : Type} `{Countable SkMatrix}.
Variable size_t_bits : Z.
Import Cache.

Local Abbreviation CacheImpl := (Cache.CacheImpl (SkMatrix:=SkMatrix)).
Local Abbreviation Value := (Cache.Value (SkMatrix:=SkMatrix)).
Local Abbreviation Key := (Cache.Key (SkMatrix:=SkMatrix)).
Local Abbreviation wf := (Cache.wf (SkMatrix:=SkMatrix) size_t_bits).
Local Abbreviation removeInternal :=
  (Cache.removeInternal (SkMatrix:=SkMatrix) size_t_bits).
Local Abbreviation evict := (Cache.evict (SkMatrix:=SkMatrix) size_t_bits).
Local Abbreviation wrap := (wrap_unsigned size_t_bits).

Implicit Types (c : CacheImpl) (v x tail : Value) (l : list Value).
Implicit Types (key k : Key).

Lemma filter_ext_in {A} (P Q : A → Prop) `{∀ a, Decision (P a)}
    `{∀ a, Decision (Q a)} (l : list A) :
  (∀ a, a ∈ l → P a ↔ Q a) → filter P l = filter Q l.
Proof.
  induction l as [|a l IH]; intros HPQ; [done|].
  rewrite !filter_cons, IH by (intros; apply HPQ; by right).
  pose proof (HPQ a (list_elem_of_here _ _)).
  repeat case_decide; tauto.
Qed.

Lemma filter_all {A} (P : A → Prop) `{∀ a, Decision (P a)} (l : list A) :
  (∀ a, a ∈ l → P a) → filter P l = l.
Proof.
  induction l as [|a l IH]; intros HP; [done|].
  rewrite filter_cons, IH by (intros; apply HP; by right).
  rewrite decide_True; [done|]. apply HP. by left.
Qed.

(** Unlinking the tail leaves the list without its last node. *)
Lemma LRU_remove_tail l l' tail :
  NoDup (fAddr <$> l) → l = l' ++ [tail] → LRU_remove tail l = l'.
Proof.
  intros Hnd ->. unfold LRU_remove. rewrite filter_app.
  rewrite fmap_app in Hnd. apply NoDup_app in Hnd as (_ & Hdis & _).
  rewrite filter_all.
  - simpl. rewrite filter_cons, decide_False by (intros ?; congruence).
    by rewrite app_nil_r.
  - intros a Ha Heq. apply (Hdis (fAddr a)).
    + by apply list_elem_of_fmap_2.
    + rewrite Heq. simpl. by left.
Qed.

Lemma LRU_remove_prefix l tail :
  NoDup (fAddr <$> l) → last l = Some tail → LRU_remove tail l `prefix_of` l.
Proof.
  intros Hnd [l' ->]%last_Some.
  rewrite (LRU_remove_tail _ l') by done. by apply prefix_app_r.
Qed.

(** The eviction loop of [set] takes nodes off the tail only. *)
Lemma evict_prefix fuel v c :
  NoDup (fAddr <$> fLRU c) → fLRU (evict fuel v c) `prefix_of` fLRU c.
Proof.
  revert c. induction fuel as [|fuel IH]; intros c Hnd; simpl.
  - case_decide; [|done]. destruct (last (fLRU c)); [|done].
    by case_decide.
  - case_decide; [|done].
    destruct (last (fLRU c)) as [tail|] eqn:Hlast; [|done].
    case_decide; [done|].
    etrans; [apply IH|]; simpl.
    + by apply NoDup_LRU_remove.
    + by apply LRU_remove_prefix.
Qed.

Lemma purge_loop_prefix fuel c c' :
  NoDup (fAddr <$> fLRU c) → purge_loop size_t_bits fuel c = Some c' →
  fLRU c' `prefix_of` fLRU c ∧ fMaxBytes c' = fMaxBytes c ∧
  ¬ fCurrentBytes c' > 0.
Proof.
  revert c. induction fuel as [|fuel IH]; intros c Hnd; simpl;
    case_decide; try done; try by intros [= <-].
  destruct (last (fLRU c)) as [tail|] eqn:Hlast; [|done].
  intros Hrun. apply IH in Hrun as (Hpre & Hmax & Hcur).
  - split; [|done]. etrans; [apply Hpre|]. by apply LRU_remove_prefix.
  - by apply NoDup_LRU_remove.
Qed.

(** On a well-formed cache [purge] never meets a null tail. *)
Lemma purge_loop_total fuel c :
  wf c → (length (fLRU c) ≤ fuel)%nat →
  is_Some (purge_loop size_t_bits fuel c).
Proof.
  revert c. induction fuel as [|fuel IH]; intros c Hwf Hlen; simpl.
  - destruct (fLRU c) eqn:Hl; [|simpl in Hlen; lia].
    pose proof (wf_bytes _ _ Hwf) as Hb. rewrite Hl in Hb. simpl in Hb.
    unfold wrap_unsigned in Hb. rewrite Zmod_0_l in Hb.
    by rewrite decide_False by lia.
  - case_decide as Hgt; [|done].
    destruct (last (fLRU c)) as [tail|] eqn:Hlast.
    + pose proof (last_Some_elem_of _ _ Hlast) as Htail.
      pose proof (length_LRU_remove _ _ Htail).
      apply IH; [by apply wf_removeInternal|simpl; lia].
    + apply last_None in Hlast.
      pose proof (wf_bytes _ _ Hwf) as Hb. rewrite Hlast in Hb. simpl in Hb.
      unfold wrap_unsigned in Hb. rewrite Zmod_0_l in Hb. lia.
Qed.

Lemma purge_total c :
  wf c → ∃ c', purge size_t_bits c = Some c' ∧ wf c'.
Proof.
  intros Hwf.
  destruct (purge_loop_total (length (fLRU c)) c Hwf) as [c' Hrun]; [done|].
  exists c'. split; [done|]. by eapply wf_purge_loop.
Qed.

Lemma step_wf (o : CacheOps.Op) c :
  wf c → ∃ c', CacheOps.step size_t_bits o c = Some c' ∧ wf c'.
Proof.
  intros Hwf. destruct o; simpl; eauto using wf_get, wf_get_bitmap, wf_set,
    wf_set_bitmap, wf_purgeByKeys, purge_total.
Qed.

Lemma run_wf (ops : list CacheOps.Op) c :
  wf c → ∃ c', CacheOps.run size_t_bits ops c = Some c' ∧ wf c'.
Proof.
  revert c. induction ops as [|o ops IH]; intros c Hwf; simpl; [eauto|].
  destruct (step_wf o c Hwf) as (c1 & -> & Hwf1). by apply IH.
Qed.

(** X1.  Starting from an empty cache, every sequence of [get], [set],
    [purge] and [purgeByKeys] calls (both overloads of [get] and [set]) runs
    to the end, [purge] never dereferencing a null tail, and leaves a cache
    whose table and list hold the same entries, each list node once, with
    [fCurrentBytes] the sum of the live entries' sizes modulo
    [2 ^ size_t_bits]. *)
Theorem cache_operations_keep_invariant maxBytes (ops : list CacheOps.Op) :
  ∃ c, CacheOps.run size_t_bits ops (Create maxBytes) = Some c ∧
       NoDup (fAddr <$> fLRU c) ∧
       (∀ k v, fLookup c !! k = Some v ↔ v ∈ fLRU c ∧ fKey v = k) ∧
       fCurrentBytes c = wrap (sum_bytes (fLRU c)).
Proof.
  destruct (run_wf ops (Create maxBytes) (wf_Create _ _)) as (c & Hrun & Hwf).
  exists c. split; [done|]. split; [apply Hwf|]. split; apply Hwf.
Qed.

(** *** Round trips *)

Lemma touch_head v l : head l = Some v → touch v l = l.
Proof. unfold touch. intros ->. by rewrite decide_True. Qed.

Lemma touch_front v l :
  NoDup (fAddr <$> l) → v ∈ l → touch v l = v :: LRU_remove v l.
Proof.
  intros Hnd Hv. unfold touch. destruct l as [|h l]; [done|]. simpl.
  case_decide as Hh; [|done].
  assert (h = v) as -> by (eapply addr_inj; [done|by left|done|done]).
  unfold LRU_remove. rewrite filter_cons, decide_False by tauto.
  f_equal. symmetry. apply filter_all. intros a Ha Heq.
  simpl in Hnd. apply NoDup_cons in Hnd as [Hnotin _].
  apply Hnotin. rewrite <-Heq. by apply list_elem_of_fmap_2.
Qed.

Lemma get_head c key offset v :
  fLookup c !! key = Some v → head (fLRU c) = Some v →
  get key offset c = (fImage v, fOffset v, c).
Proof.
  intros Hk Hh. unfold get. rewrite Hk, touch_head by done. by destruct c.
Qed.

Lemma get_bitmap_head c key result offset v :
  fLookup c !! key = Some v → head (fLRU c) = Some v →
  get_bitmap key result offset c = (true, fBitmap v, fOffset v, c).
Proof.
  intros Hk Hh. unfold get_bitmap. rewrite Hk, touch_head by done.
  by destruct c.
Qed.

Lemma set_bitmap_spec c key result offset :
  wf c →
  let v := MkValue (fNextAddr c) key result None offset in
  let c' := set_bitmap size_t_bits key result offset c in
  wf c' ∧ head (fLRU c') = Some v ∧ fLookup c' !! key = Some v.
Proof.
  intros Hwf v c'.
  assert (wf c' ∧ head (fLRU c') = Some v) as [Hwf' Hhead].
  { unfold c', set_bitmap. rewrite remove_if_present_next. fold v.
    destruct (insert_value_spec size_t_bits
                (remove_if_present size_t_bits key c) v)
      as (Hwf' & _ & Hhead & _); [| | |done].
    - by apply wf_remove_if_present.
    - simpl. rewrite remove_if_present_lookup by done.
      by rewrite decide_True.
    - simpl. by rewrite remove_if_present_next. }
  split; [done|]. split; [done|].
  apply (wf_lookup _ _ Hwf'). split; [|done]. by apply head_Some_elem_of.
Qed.

(** X2.  What [set] stores under a key, [get] gives back: the image and the
    offset passed to [set], whatever the budget and whatever was stored under
    the key before; and this [get] leaves the cache as it is, the entry being
    at the head of the list already. *)
Theorem set_then_get_returns_stored c key image offset offset0 :
  wf c →
  let c' := Cache.set size_t_bits key image offset c in
  get key offset0 c' = (Some image, offset, c').
Proof.
  intros Hwf c'.
  destruct (set_spec size_t_bits c key image offset Hwf)
    as (_ & _ & Hhead & _).
  by rewrite (get_head c' key offset0 _
                (set_lookup size_t_bits c key image offset Hwf) Hhead).
Qed.

(** X3.  The two overloads do not see each other's payload.  An entry stored
    with the bitmap [set] is found by the image [get], which returns nullptr
    and still overwrites [*offset]; an entry stored with the image [set] is
    found by the bitmap [get], which returns true and hands out a
    default-constructed bitmap. *)
Theorem overloads_share_entries c key image result offset offset0 result0 :
  wf c →
  let cb := set_bitmap size_t_bits key result offset c in
  let ci := Cache.set size_t_bits key image offset c in
  get key offset0 cb = (None, offset, cb) ∧
  get_bitmap key result0 offset0 ci = (true, SkBitmap_empty, offset, ci).
Proof.
  intros Hwf cb ci. split.
  - destruct (set_bitmap_spec c key result offset Hwf) as (_ & Hhead & Hk).
    by rewrite (get_head cb key offset0 _ Hk Hhead).
  - destruct (set_spec size_t_bits c key image offset Hwf)
      as (_ & _ & Hhead & _).
    by rewrite (get_bitmap_head ci key result0 offset0 _
                  (set_lookup size_t_bits c key image offset Hwf) Hhead).
Qed.

(** *** What [set] does to the other entries *)

Lemma evict_lookup_Some fuel v c k x :
  fLookup (evict fuel v c) !! k = Some x → fLookup c !! k = Some x.
Proof.
  revert c. induction fuel as [|fuel IH]; intros c; simpl.
  - case_decide; [|done]. destruct (last (fLRU c)); [|done]. by case_decide.
  - case_decide; [|done]. destruct (last (fLRU c)) as [tail|]; [|done].
    case_decide; [done|]. intros Hk%IH. simpl in Hk.
    by apply lookup_delete_Some in Hk as [_ ?].
Qed.

Lemma remove_if_present_lookup_Some c key k x :
  fLookup (remove_if_present size_t_bits key c) !! k = Some x →
  fLookup c !! k = Some x.
Proof.
  unfold remove_if_present. destruct (fLookup c !! key); [|done]. simpl.
  by intros [_ ?]%lookup_delete_Some.
Qed.

(** X4.  [set] never alters what is stored under another key: an entry found
    under [k ≠ key] after the call is the entry that was there before it (the
    other entries are kept or evicted, never rewritten). *)
Theorem set_keeps_other_entries c key image offset k x :
  k ≠ key →
  fLookup (Cache.set size_t_bits key image offset c) !! k = Some x →
  fLookup c !! k = Some x.
Proof.
  intros Hne Hk. unfold Cache.set, insert_value in Hk.
  apply evict_lookup_Some in Hk. simpl in Hk.
  rewrite lookup_insert_ne in Hk by done.
  by apply remove_if_present_lookup_Some in Hk.
Qed.

Lemma remove_if_present_LRU c key :
  wf c →
  fLRU (remove_if_present size_t_bits key c) =
    filter (λ x, fKey x ≠ key) (fLRU c).
Proof.
  intros Hwf. unfold remove_if_present.
  destruct (fLookup c !! key) as [old|] eqn:Hk; simpl.
  - apply (wf_lookup _ _ Hwf) in Hk as [Hold Hkey].
    unfold LRU_remove. apply filter_ext_in. intros a Ha. split.
    + intros Hne Heq. apply Hne. f_equal.
      assert (fLookup c !! key = Some a) as Ha'
        by by apply (wf_lookup _ _ Hwf).
      assert (fLookup c !! key = Some old) as Hold'
        by by apply (wf_lookup _ _ Hwf).
      congruence.
    + intros Hne Heq. apply Hne.
      by rewrite (addr_inj _ _ _ (wf_addrs _ _ Hwf) Ha Hold Heq).
  - symmetry. apply filter_all. intros a Ha Heq.
    assert (fLookup c !! key = Some a) by by apply (wf_lookup _ _ Hwf).
    congruence.
Qed.

Lemma set_LRU c key image offset :
  wf c →
  ∃ kept,
    fLRU (Cache.set size_t_bits key image offset c) =
      MkValue (fNextAddr c) key SkBitmap_empty (Some image) offset :: kept ∧
    kept `prefix_of` filter (λ x, fKey x ≠ key) (fLRU c).
Proof.
  intros Hwf.
  destruct (set_spec size_t_bits c key image offset Hwf)
    as (_ & _ & Hhead & _).
  pose proof (wf_remove_if_present size_t_bits c key Hwf) as Hwf1.
  rewrite <-(remove_if_present_LRU c key Hwf).
  rewrite <-(remove_if_present_next size_t_bits c key) in *.
  unfold Cache.set, insert_value in *. cbv zeta in *.
  set (c1 := remove_if_present size_t_bits key c) in *.
  set (v := MkValue (fNextAddr c1) key SkBitmap_empty (Some image) offset)
    in *.
  set (c2 := add_value size_t_bits v (getSize image) c1) in *.
  assert (wf c2) as Hwf2.
  { apply (wf_add_value size_t_bits c1 v); [done| |done].
    subst c1. simpl. rewrite remove_if_present_lookup by done.
    by rewrite decide_True. }
  pose proof (evict_prefix (length (fLRU c2)) v c2 (wf_addrs _ _ Hwf2))
    as Hpre.
  destruct (fLRU (evict (length (fLRU c2)) v c2)) as [|h kept] eqn:Hl;
    [done|].
  simpl in Hhead. injection Hhead as ->.
  exists kept. split; [done|].
  change (fLRU c2) with (v :: fLRU c1) in Hpre.
  by apply prefix_cons_inv_2 in Hpre.
Qed.

(** X5.  [set] evicts from the least recently used end only: afterwards the
    list is the new entry followed by a prefix of the old list (without the
    entry that was stored under the key), so what goes is a block of the
    oldest entries and the survivors keep their order. *)
Theorem set_evicts_oldest_first c key image offset :
  wf c →
  ∃ kept,
    fLRU (Cache.set size_t_bits key image offset c) =
      MkValue (fNextAddr c) key SkBitmap_empty (Some image) offset :: kept ∧
    kept `prefix_of` filter (λ x, fKey x ≠ key) (fLRU c).
Proof. apply set_LRU. Qed.

Lemma sum_bytes_app l1 l2 :
  sum_bytes (l1 ++ l2) = sum_bytes l1 + sum_bytes l2.
Proof.
  induction l1 as [|a l1 IH]; simpl; [done|].
  unfold sum_bytes in *. simpl. rewrite IH. lia.
Qed.

Lemma sum_bytes_nonneg l :
  (∀ v, v ∈ l → 0 <= Value_bytes v) → 0 <= sum_bytes l.
Proof.
  induction l as [|a l IH]; intros Hnn; [done|].
  unfold sum_bytes in *. simpl.
  pose proof (Hnn a (list_elem_of_here _ _)).
  assert (0 <= foldr (λ v acc, Value_bytes v + acc) 0 l)
    by (apply IH; intros; apply Hnn; by right).
  lia.
Qed.

Lemma sum_bytes_filter (P : Value → Prop) `{∀ a, Decision (P a)} l :
  (∀ v, v ∈ l → 0 <= Value_bytes v) →
  sum_bytes (filter P l) <= sum_bytes l.
Proof.
  induction l as [|a l IH]; intros Hnn; [done|].
  rewrite filter_cons.
  pose proof (Hnn a (list_elem_of_here _ _)).
  assert (sum_bytes (filter P l) <= sum_bytes l)
    by (apply IH; intros; apply Hnn; by right).
  case_decide; unfold sum_bytes in *; simpl; lia.
Qed.

(** X6.  An image larger than the whole budget is stored all the same and
    stays as the only entry: every other entry is evicted.  (Sizes are not
    negative and their sum fits [size_t].) *)
Theorem oversized_set_keeps_only_new_entry c key image offset :
  wf c →
  (∀ v, v ∈ fLRU c → 0 <= Value_bytes v) →
  sum_bytes (fLRU c) + getSize image < 2 ^ size_t_bits →
  0 <= fMaxBytes c < getSize image →
  let c' := Cache.set size_t_bits key image offset c in
  fLRU c' = [MkValue (fNextAddr c) key SkBitmap_empty (Some image) offset] ∧
  fCurrentBytes c' = getSize image ∧
  (∀ k, k ≠ key → fLookup c' !! k = None).
Proof.
  intros Hwf Hnn Hsum Hbig c'.
  destruct (set_spec size_t_bits c key image offset Hwf)
    as (Hwf' & Hmax & Hhead & Hexit).
  destruct (set_LRU c key image offset Hwf) as (kept & Hl & [rest Hpre]).
  fold c' in Hwf', Hmax, Hhead, Hexit, Hl.
  assert (0 <= sum_bytes kept ∧ 0 <= sum_bytes rest ∧
          sum_bytes kept + sum_bytes rest <= sum_bytes (fLRU c))
    as (Hk1 & Hk2 & Hk3).
  { pose proof (sum_bytes_filter (λ x, fKey x ≠ key) (fLRU c) Hnn) as Hf.
    rewrite Hpre, sum_bytes_app in Hf.
    assert (∀ v, v ∈ kept ++ rest → 0 <= Value_bytes v) as Hnn'.
    { intros v Hv. rewrite <-Hpre in Hv.
      apply list_elem_of_filter in Hv as [_ Hv]. by apply Hnn. }
    pose proof (sum_bytes_nonneg kept
                  (λ v Hv, Hnn' v (proj2 (elem_of_app _ _ _) (or_introl Hv)))).
    pose proof (sum_bytes_nonneg rest
                  (λ v Hv, Hnn' v (proj2 (elem_of_app _ _ _) (or_intror Hv)))).
    lia. }
  assert (fLRU c' =
          [MkValue (fNextAddr c) key SkBitmap_empty (Some image) offset])
    as Hone.
  { destruct Hexit as [Hfit|Hone]; [|done]. exfalso.
    pose proof (wf_bytes _ _ Hwf') as Hb. rewrite Hl in Hb.
    change (sum_bytes (?a :: ?l)) with (Value_bytes a + sum_bytes l) in Hb.
    unfold Value_bytes in Hb. simpl in Hb.
    rewrite wrap_small in Hb by lia. lia. }
  split; [done|]. split.
  - pose proof (wf_bytes _ _ Hwf') as Hb. rewrite Hone in Hb.
    change (sum_bytes [?a]) with (Value_bytes a + 0) in Hb.
    unfold Value_bytes in Hb. simpl in Hb.
    rewrite Z.add_0_r, wrap_small in Hb by lia. done.
  - intros k Hne. destruct (fLookup c' !! k) as [x|] eqn:Hx; [|done].
    apply (wf_lookup _ _ Hwf') in Hx as [Hx Hkey]. rewrite Hone in Hx.
    apply list_elem_of_singleton in Hx. subst x. simpl in Hkey. congruence.
Qed.

(** *** Hits and misses *)

(** X7.  A miss changes nothing: nullptr, [*offset] and the cache as they
    were.  A hit changes the order of the list and nothing else: the entry
    found moves to the front, the others keep their relative order; the
    table, the byte count and the budget stay. *)
Theorem get_moves_entry_to_front c key offset :
  wf c →
  match fLookup c !! key with
  | Some v =>
      get key offset c =
        (fImage v, fOffset v,
         MkCache (fLookup c) (v :: LRU_remove v (fLRU c)) (fMaxBytes c)
                 (fCurrentBytes c) (fNextAddr c)) ∧
      v :: LRU_remove v (fLRU c) ≡ₚ fLRU c
  | None => get key offset c = (None, offset, c)
  end.
Proof.
  intros Hwf. unfold get.
  destruct (fLookup c !! key) as [v|] eqn:Hk; [|done].
  apply (wf_lookup _ _ Hwf) in Hk as [Hv _].
  rewrite touch_front by (done || apply Hwf). split; [done|].
  apply NoDup_Permutation.
  - apply (NoDup_fmap_1 fAddr). rewrite <-touch_front by (done || apply Hwf).
    by apply NoDup_touch, Hwf.
  - apply (NoDup_fmap_1 fAddr), Hwf.
  - intros a. rewrite <-touch_front by (done || apply Hwf).
    by apply elem_of_touch; [apply Hwf|].
Qed.

(** *** Purging *)

Lemma purgeByKeys_cons k keys c :
  purgeByKeys size_t_bits (k :: keys) c =
    purgeByKeys size_t_bits keys (remove_if_present size_t_bits k c).
Proof. done. Qed.

Lemma purgeByKeys_spec keys c :
  wf c →
  (∀ k, fLookup (purgeByKeys size_t_bits keys c) !! k =
          if decide (k ∈ keys) then None else fLookup c !! k) ∧
  fLRU (purgeByKeys size_t_bits keys c) =
    filter (λ x, fKey x ∉ keys) (fLRU c).
Proof.
  revert c. induction keys as [|k0 keys IH]; intros c Hwf.
  - split.
    + intros k. by rewrite decide_False by apply not_elem_of_nil.
    + symmetry. apply filter_all. intros a _. apply not_elem_of_nil.
  - rewrite purgeByKeys_cons.
    destruct (IH _ (wf_remove_if_present size_t_bits c k0 Hwf)) as [IH1 IH2].
    split.
    + intros k. rewrite IH1, remove_if_present_lookup by done.
      destruct (decide (k ∈ keys)) as [Hin|Hnin],
        (decide (k = k0)) as [Heq|Hne],
        (decide (k ∈ k0 :: keys)) as [Hin'|Hnin']; try done.
      all: try (exfalso; apply Hnin'; subst; constructor; done).
      all: apply elem_of_cons in Hin' as [?|?]; done.
    + rewrite IH2, remove_if_present_LRU by done.
      rewrite list_filter_filter. apply list_filter_iff. intros a.
      rewrite not_elem_of_cons. tauto.
Qed.

(** X8.  [purgeByKeys] evicts the listed keys and no others: afterwards a
    listed key is absent, every other key maps to what it mapped to before,
    and the list is the old list without the entries of the listed keys, in
    the old order.  Keys that are not cached (or listed twice) are skipped. *)
Theorem purgeByKeys_removes_exactly keys c :
  wf c →
  let c' := purgeByKeys size_t_bits keys c in
  (∀ k, fLookup c' !! k = if decide (k ∈ keys) then None else fLookup c !! k) ∧
  fLRU c' = filter (λ x, fKey x ∉ keys) (fLRU c) ∧
  fCurrentBytes c' = wrap (sum_bytes (fLRU c')) ∧
  fMaxBytes c' = fMaxBytes c.
Proof.
  intros Hwf c'. destruct (purgeByKeys_spec keys c Hwf) as [H1 H2].
  split; [done|]. split; [done|]. split.
  - by apply (wf_bytes _ _ (wf_purgeByKeys size_t_bits keys c Hwf)).
  - subst c'. clear. revert c. induction keys as [|k keys IH]; intros c;
      [done|].
    rewrite purgeByKeys_cons, IH. apply remove_if_present_max.
Qed.

(** X9.  On a well-formed cache [purge] always returns (the tail it
    dereferences is never null), with [fCurrentBytes] zero; it takes entries
    off the least recently used end, so what it leaves is a prefix of the
    list, and it keeps the budget. *)
Theorem purge_reaches_zero_bytes c :
  wf c → 0 <= size_t_bits →
  ∃ c', purge size_t_bits c = Some c' ∧ wf c' ∧ fCurrentBytes c' = 0 ∧
        fLRU c' `prefix_of` fLRU c ∧ fMaxBytes c' = fMaxBytes c.
Proof.
  intros Hwf Hbits. destruct (purge_total c Hwf) as (c' & Hrun & Hwf').
  exists c'. split; [done|]. split; [done|].
  destruct (purge_loop_prefix _ c c' (wf_addrs _ _ Hwf) Hrun)
    as (Hpre & Hmax & Hcur).
  split; [|done].
  pose proof (wf_bytes _ _ Hwf') as Hb. unfold wrap_unsigned in Hb.
  pose proof (Z.mod_pos_bound (sum_bytes (fLRU c')) (2 ^ size_t_bits)
                ltac:(by apply Z.pow_pos_nonneg)).
  lia.
Qed.

(** X10.  When every cached entry has a positive size (and the sizes sum
    within [size_t]), [purge] empties the cache: no node in the list, no key
    in the table, zero bytes. *)
Theorem purge_empties_positive_cache c :
  wf c → (∀ v, v ∈ fLRU c → 0 < Value_bytes v) →
  sum_bytes (fLRU c) < 2 ^ size_t_bits →
  ∃ c', purge size_t_bits c = Some c' ∧
        fLRU c' = [] ∧ fLookup c' = ∅ ∧ fCurrentBytes c' = 0.
Proof.
  intros Hwf Hpos Hsum.
  destruct (purge_loop_positive size_t_bits (length (fLRU c)) c Hwf Hpos Hsum)
    as (c' & Hrun & Hl & Hb); [done|].
  exists c'. split; [done|]. split; [done|]. split; [|done].
  pose proof (wf_purge_loop size_t_bits _ c c' Hwf Hrun) as Hwf'.
  apply map_eq. intros k. rewrite lookup_empty.
  destruct (fLookup c' !! k) as [x|] eqn:Hx; [|done].
  apply (wf_lookup _ _ Hwf') in Hx as [Hx _]. rewrite Hl in Hx.
  by apply elem_of_nil in Hx.
Qed.

End CacheLaws.

Lemma wf_one_entry : Cache.wf 64 Scenario.one_entry.
Proof. apply wf_set, wf_Create. Qed.

Lemma one_entry_LRU :
  Cache.fLRU Scenario.one_entry =
    [Cache.MkValue 0 (Scenario.key 1 64) SkBitmap_empty
       (Some (Scenario.image 1 100)) Scenario.origin].
Proof. by vm_compute. Qed.

(** X2 on the one-entry cache, replacing its entry. *)
Lemma set_then_get_returns_stored_witness :
  Cache.wf 64 Scenario.one_entry ∧
  (Cache.get (Scenario.key 1 64) (SkIPoint.Make 5 5)
     (Cache.set 64 (Scenario.key 1 64) (Scenario.image 2 40)
        (SkIPoint.Make 3 4) Scenario.one_entry)).1
  = (Some (Scenario.image 2 40), SkIPoint.Make 3 4).
Proof.
  split; [exact wf_one_entry|].
  by rewrite (set_then_get_returns_stored 64 Scenario.one_entry
                (Scenario.key 1 64) (Scenario.image 2 40) (SkIPoint.Make 3 4)
                (SkIPoint.Make 5 5) wf_one_entry).
Defined.

(** X3 on the one-entry cache. *)
Lemma overloads_share_entries_witness :
  Cache.wf 64 Scenario.one_entry ∧
  (Cache.get (Scenario.key 2 64) (SkIPoint.Make 5 5)
     (Cache.set_bitmap 64 (Scenario.key 2 64)
        {| bm_generationID := 3; bm_getSize := 50 |}
        (SkIPoint.Make 3 4) Scenario.one_entry)).1
  = (None, SkIPoint.Make 3 4).
Proof.
  split; [exact wf_one_entry|].
  by rewrite (proj1 (overloads_share_entries 64 Scenario.one_entry
                       (Scenario.key 2 64) (Scenario.image 2 40)
                       {| bm_generationID := 3; bm_getSize := 50 |}
                       (SkIPoint.Make 3 4) (SkIPoint.Make 5 5)
                       SkBitmap_empty wf_one_entry)).
Defined.

(** X4: the entry of [key 1 64] after a store under [key 2 64]. *)
Lemma set_keeps_other_entries_witness :
  Scenario.key 1 64 ≠ Scenario.key 2 64 ∧
  Cache.fLookup Scenario.one_entry !! Scenario.key 1 64 =
    Some (Cache.MkValue 0 (Scenario.key 1 64) SkBitmap_empty
            (Some (Scenario.image 1 100)) Scenario.origin).
Proof.
  split; [done|].
  apply (set_keeps_other_entries 64 Scenario.one_entry (Scenario.key 2 64)
           (Scenario.image 2 100) Scenario.origin); [done|].
  by vm_compute.
Defined.

(** X5 on the one-entry cache. *)
Lemma set_evicts_oldest_first_witness :
  Cache.wf 64 Scenario.one_entry ∧
  ∃ kept,
    Cache.fLRU (Cache.set 64 (Scenario.key 2 64) (Scenario.image 2 250)
                  Scenario.origin Scenario.one_entry) =
      Cache.MkValue (Cache.fNextAddr Scenario.one_entry) (Scenario.key 2 64)
        SkBitmap_empty (Some (Scenario.image 2 250)) Scenario.origin :: kept ∧
    kept `prefix_of`
      filter (λ x, Cache.fKey x ≠ Scenario.key 2 64)
             (Cache.fLRU Scenario.one_entry).
Proof.
  split; [exact wf_one_entry|].
  exact (set_evicts_oldest_first 64 Scenario.one_entry (Scenario.key 2 64)
           (Scenario.image 2 250) Scenario.origin wf_one_entry).
Defined.

(** X6: a 500-byte image stored in the 300-byte cache. *)
Lemma oversized_set_keeps_only_new_entry_witness :
  Cache.wf 64 Scenario.one_entry ∧
  0 <= Cache.fMaxBytes Scenario.one_entry < getSize (Scenario.image 2 500) ∧
  Cache.fCurrentBytes
    (Cache.set 64 (Scenario.key 2 64) (Scenario.image 2 500) Scenario.origin
       Scenario.one_entry) = 500.
Proof.
  split; [exact wf_one_entry|]. split; [by vm_compute|].
  refine (proj1 (proj2
    (oversized_set_keeps_only_new_entry 64 Scenario.one_entry
       (Scenario.key 2 64) (Scenario.image 2 500) Scenario.origin
       wf_one_entry _ _ _))).
  - intros v Hv. rewrite one_entry_LRU in Hv.
    apply list_elem_of_singleton in Hv. by subst v.
  - by vm_compute.
  - by vm_compute.
Defined.

(** X7 on the one-entry cache: a hit. *)
Lemma get_moves_entry_to_front_witness :
  Cache.wf 64 Scenario.one_entry ∧
  match Cache.fLookup Scenario.one_entry !! Scenario.key 1 64 with
  | Some v =>
      Cache.get (Scenario.key 1 64) Scenario.origin Scenario.one_entry =
        (Cache.fImage v, Cache.fOffset v,
         Cache.MkCache (Cache.fLookup Scenario.one_entry)
           (v :: Cache.LRU_remove v (Cache.fLRU Scenario.one_entry))
           (Cache.fMaxBytes Scenario.one_entry)
           (Cache.fCurrentBytes Scenario.one_entry)
           (Cache.fNextAddr Scenario.one_entry)) ∧
      v :: Cache.LRU_remove v (Cache.fLRU Scenario.one_entry)
        ≡ₚ Cache.fLRU Scenario.one_entry
  | None =>
      Cache.get (Scenario.key 1 64) Scenario.origin Scenario.one_entry =
        (None, Scenario.origin, Scenario.one_entry)
  end.
Proof.
  split; [exact wf_one_entry|].
  exact (get_moves_entry_to_front 64 Scenario.one_entry (Scenario.key 1 64)
           Scenario.origin wf_one_entry).
Defined.

(** X8 on the one-entry cache, with a key that is cached and one that is
    not. *)
Lemma purgeByKeys_removes_exactly_witness :
  Cache.wf 64 Scenario.one_entry ∧
  Cache.fLRU (Cache.purgeByKeys 64 [Scenario.key 1 64; Scenario.key 2 64]
                Scenario.one_entry) =
    filter (λ x, Cache.fKey x ∉ [Scenario.key 1 64; Scenario.key 2 64])
           (Cache.fLRU Scenario.one_entry).
Proof.
  split; [exact wf_one_entry|].
  exact (proj1 (proj2
    (purgeByKeys_removes_exactly 64 [Scenario.key 1 64; Scenario.key 2 64]
       Scenario.one_entry wf_one_entry))).
Defined.

(** X9 on the cache whose only entry has size zero. *)
Lemma purge_reaches_zero_bytes_witness :
  Cache.wf 64 Scenario.zero_sized ∧ 0 <= 64 ∧
  ∃ c', Cache.purge 64 Scenario.zero_sized = Some c' ∧ Cache.wf 64 c' ∧
        Cache.fCurrentBytes c' = 0 ∧
        Cache.fLRU c' `prefix_of` Cache.fLRU Scenario.zero_sized ∧
        Cache.fMaxBytes c' = Cache.fMaxBytes Scenario.zero_sized.
Proof.
  assert (Cache.wf 64 Scenario.zero_sized) as Hwf by apply wf_set, wf_Create.
  split; [exact Hwf|]. split; [lia|].
  apply (purge_reaches_zero_bytes 64 Scenario.zero_sized Hwf). lia.
Defined.

(** X10 on the one-entry cache. *)
Lemma purge_empties_positive_cache_witness :
  Cache.wf 64 Scenario.one_entry ∧
  Cache.sum_bytes (Cache.fLRU Scenario.one_entry) < 2 ^ 64 ∧
  ∃ c', Cache.purge 64 Scenario.one_entry = Some c' ∧
        Cache.fLRU c' = [] ∧ Cache.fLookup c' = ∅ ∧
        Cache.fCurrentBytes c' = 0.
Proof.
  split; [exact wf_one_entry|]. split; [by vm_compute|].
  apply (purge_empties_positive_cache 64 Scenario.one_entry wf_one_entry).
  - intros v Hv. rewrite one_entry_LRU in Hv.
    apply list_elem_of_singleton in Hv. by subst v.
  - by vm_compute.
Defined.

(** ** Unique ids *)

Lemma next_id_in_range fuel g :
  0 <= g < 2 ^ 31 - 1 →
  UniqueID.next_image_filter_unique_id (S fuel) g = Some (g + 1, g + 1).
Proof.
  intros Hg.
  cbn [UniqueID.next_image_filter_unique_id UniqueID.sk_atomic_inc].
  rewrite (wrap_int32_id (g + 1)) by (unfold is_int32; lia).
  destruct (Z.eqb_spec 0 (g + 1)); [lia|done].
Qed.

(** X11.  [next_image_filter_unique_id] never returns 0, whatever the
    counter holds: the loop ends after at most two rounds (the second one
    only when the counter has wrapped round to 0), and the id is a 32-bit
    value other than 0. *)
Theorem unique_id_never_zero fuel g :
  (2 ≤ fuel)%nat →
  ∃ id counter,
    UniqueID.next_image_filter_unique_id fuel g = Some (id, counter) ∧
    id ≠ 0 ∧ is_int32 id.
Proof.
  intros Hfuel. destruct fuel as [|[|fuel]]; [lia|lia|].
  cbn [UniqueID.next_image_filter_unique_id UniqueID.sk_atomic_inc].
  destruct (Z.eqb_spec 0 (wrap_int32 (g + 1))) as [Hz|Hnz].
  - rewrite <-Hz. change (wrap_int32 (0 + 1)) with 1.
    change (0 =? 1) with false. cbv iota.
    exists 1, 1. split; [done|]. split; [done|]. unfold is_int32. lia.
  - exists (wrap_int32 (g + 1)), (wrap_int32 (g + 1)).
    split; [done|]. split; [done|]. apply wrap_int32_range.
Qed.

(** X12.  Ids count up from the counter: [n] calls in a row from a counter
    [g >= 0] return [g + 1, g + 2, ..., g + n], as long as [g + n] stays below
    [2 ^ 31]; so from the zero-initialised counter the ids of a process are
    1, 2, 3, ..., strictly increasing and never reused, up to
    [2 ^ 31 - 1]. *)
Theorem unique_ids_count_up fuel n g :
  (1 ≤ fuel)%nat → 0 <= g → g + Z.of_nat n < 2 ^ 31 →
  UniqueID.ids fuel n g =
    Some ((λ i, g + Z.of_nat i) <$> seq 1 n, g + Z.of_nat n).
Proof.
  intros Hfuel. destruct fuel as [|fuel]; [lia|]. clear Hfuel.
  revert g. induction n as [|n IH]; intros g Hg Hn.
  - simpl. by rewrite Z.add_0_r.
  - cbn [UniqueID.ids]. rewrite next_id_in_range by lia.
    rewrite IH by lia. f_equal. f_equal.
    + cbn [seq fmap list_fmap]. f_equal.
      rewrite <-(fmap_S_seq 1), <-list_fmap_compose.
      apply list_fmap_ext. intros _ i _. simpl. lia.
    + lia.
Qed.

Lemma unique_id_never_zero_witness :
  (2 ≤ 2)%nat ∧
  ∃ id counter,
    UniqueID.next_image_filter_unique_id 2 (-1) = Some (id, counter) ∧
    id ≠ 0 ∧ is_int32 id.
Proof. split; [lia|]. apply (unique_id_never_zero 2 (-1)). lia. Defined.

Lemma unique_ids_count_up_witness :
  (1 ≤ 1)%nat ∧ UniqueID.ids 1 3 0 = Some ([1; 2; 3], 3).
Proof.
  split; [lia|]. apply (unique_ids_count_up 1 3 0); [lia|lia|by vm_compute].
Defined.

(** ** The filter graph *)

Section GraphTheory.
Context {SkScalar SkMatrix : Type}.
Variable mapRect : SkMatrix → SkRect.t SkScalar → SkRect.t SkScalar.
Variable roundOut : SkRect.t SkScalar → SkIRect.t.
Variable SkIRect_join : SkIRect.t → SkIRect.t → SkIRect.t.
Variable SkRect_join : SkRect.t SkScalar → SkRect.t SkScalar → SkRect.t SkScalar.
Variable SkRect_default : SkRect.t SkScalar.
Import FilterGraph.

Local Abbreviation Node :=
  (FilterGraph.Node (SkScalar:=SkScalar) (SkMatrix:=SkMatrix)).
Local Abbreviation filterBounds :=
  (FilterGraph.filterBounds mapRect roundOut SkIRect_join).
Local Abbreviation onFilterBounds :=
  (FilterGraph.onFilterBounds mapRect roundOut SkIRect_join).
Local Abbreviation input_bounds :=
  (FilterGraph.input_bounds mapRect roundOut SkIRect_join).
Local Abbreviation join_inputs :=
  (FilterGraph.join_inputs mapRect roundOut SkIRect_join).
Local Abbreviation computeFastBounds :=
  (FilterGraph.computeFastBounds SkRect_join).

Implicit Types (n i : Node) (inputs : list (option Node)).

(** Induction over a graph: a property that holds of a node whenever it
    holds of the nodes in its input slots holds of every node. *)
Lemma Node_inputs_ind (P : Node → Prop) :
  (∀ n, (∀ i, Some i ∈ fInputs n → P i) → P n) → ∀ n, P n.
Proof.
  intros IH. fix rec 1. intros [inputs uses crop id nb]. apply IH. simpl.
  assert (Forall (λ o, match o with Some i => P i | None => True end) inputs)
    as Hall.
  { induction inputs as [|[i|] inputs IHl]; constructor;
      first [assumption | apply rec | exact I]. }
  intros j Hj. by apply (proj1 (Forall_forall _ _) Hall (Some j)).
Qed.

Lemma uses_src_loop_spec inputs :
  uses_src_loop inputs = true ↔
  None ∈ inputs ∨ ∃ i, Some i ∈ inputs ∧ usesSrcInput i = true.
Proof.
  unfold uses_src_loop.
  assert (∀ acc,
            foldl (λ uses input,
                     if match input with
                        | None => true
                        | Some i => usesSrcInput i
                        end
                     then true else uses) acc inputs = true ↔
            acc = true ∨ None ∈ inputs ∨
            ∃ i, Some i ∈ inputs ∧ usesSrcInput i = true) as Hgen.
  { induction inputs as [|input inputs IH]; intros acc; simpl.
    - split; [by left|]. intros [?|[Hn|(i & Hi & _)]]; [done| |].
      + by apply elem_of_nil in Hn.
      + by apply elem_of_nil in Hi.
    - rewrite IH. split.
      + intros [Hacc|[Hn|(i & Hi & Hu)]].
        * destruct input as [i|].
          -- destruct (usesSrcInput i) eqn:Hu; [|by left].
             right. right. exists i. split; [by left|done].
          -- right. left. by left.
        * right. left. by right.
        * right. right. exists i. split; [by right|done].
      + intros [->|[Hn|(i & Hi & Hu)]].
        * left. by destruct input as [i|]; [destruct (usesSrcInput i)|].
        * apply elem_of_cons in Hn as [<-|Hn]; [by left|]. right. by left.
        * apply elem_of_cons in Hi as [<-|Hi].
          -- left. by rewrite Hu.
          -- right. right. by exists i. }
  rewrite Hgen. split; [|by right]. by intros [?|?].
Qed.

Lemma constructed_inv n :
  constructed SkRect_default n →
  fUsesSrcInput n = uses_src_loop (fInputs n) ∧
  ∀ i, Some i ∈ fInputs n → constructed SkRect_default i.
Proof. by intros [inputs cropRect id bounds Hin]. Qed.

(** X13.  In a graph built by the constructor, a node's [usesSrcInput()] is
    true exactly when some chain of input slots from the node ends in a null
    slot, the place where the caller's source image is substituted. *)
Theorem usesSrcInput_iff_reaches_null n :
  constructed SkRect_default n →
  usesSrcInput n = true ↔ reaches_null n.
Proof.
  induction n as [n IH] using Node_inputs_ind. intros Hc.
  apply constructed_inv in Hc as [Huses Hin].
  unfold usesSrcInput in *. rewrite Huses, uses_src_loop_spec. split.
  - intros [Hn|(i & Hi & Hu)].
    + by apply reaches_here.
    + apply (reaches_through _ i); [done|]. by apply IH; [|apply Hin|].
  - intros Hr. destruct Hr as [n Hn|n i Hi Hr]; [by left|].
    right. exists i. split; [done|]. by apply IH; [|apply Hin|].
Qed.

(** *** Bounds *)

Lemma filterBounds_unfold n src ctm direction :
  filterBounds n src ctm direction =
    match direction with
    | kReverse_MapDirection =>
        onFilterBounds n (onFilterNodeBounds n src ctm direction) ctm direction
    | kForward_MapDirection =>
        match onFilterBounds n src ctm direction with
        | None => None
        | Some bounds =>
            Some (CropRect.applyTo mapRect roundOut (fCropRect n)
                    (onFilterNodeBounds n bounds ctm direction) ctm)
        end
    end.
Proof.
  destruct n as [inputs uses crop id nb].
  assert (∀ src,
    match inputs with
    | [] => Some src
    | first :: rest =>
        match (match first with
               | Some filter => filterBounds filter src ctm direction
               | None => Some src
               end) with
        | None => None
        | Some rect =>
            (fix loop (rest : list (option Node)) (totalBounds : SkIRect.t)
               : option SkIRect.t :=
               match rest with
               | [] => Some totalBounds
               | filter :: rest =>
                   match (match filter with
                          | Some filter =>
                              filterBounds filter src ctm direction
                          | None => Some src
                          end) with
                   | None => None
                   | Some rect => loop rest (SkIRect_join totalBounds rect)
                   end
               end) rest rect
        end
    end = onFilterBounds (MkNode inputs uses crop id nb) src ctm direction)
    as Hon.
  { intros src0. unfold FilterGraph.onFilterBounds. simpl.
    destruct inputs as [|first rest]; [done|].
    unfold FilterGraph.input_bounds at 1.
    destruct (match first with
              | Some filter => filterBounds filter src0 ctm direction
              | None => Some src0
              end) as [rect|]; [|done].
    revert rect. induction rest as [|filter rest IHr]; intros rect; [done|].
    simpl. unfold FilterGraph.input_bounds at 1.
    destruct (match filter with
              | Some filter => filterBounds filter src0 ctm direction
              | None => Some src0
              end); [apply IHr|done]. }
  destruct direction; simpl; by rewrite Hon.
Qed.

Lemma join_inputs_all_src src ctm direction rest :
  (∀ r, SkIRect_join r r = r) →
  (∀ i, Some i ∈ rest → filterBounds i src ctm direction = Some src) →
  join_inputs src ctm direction rest src = Some src.
Proof.
  intros Hjoin. induction rest as [|filter rest IH]; intros Hin; [done|].
  simpl. unfold FilterGraph.input_bounds at 1.
  assert (match filter with
          | Some filter => filterBounds filter src ctm direction
          | None => Some src
          end = Some src) as ->.
  { destruct filter as [i|]; [|done]. apply Hin. by left. }
  rewrite Hjoin. apply IH. intros i Hi. apply Hin. by right.
Qed.

Lemma onFilterBounds_all_src n src ctm direction :
  (∀ r, SkIRect_join r r = r) →
  (∀ i, Some i ∈ fInputs n → filterBounds i src ctm direction = Some src) →
  onFilterBounds n src ctm direction = Some src.
Proof.
  intros Hjoin Hin. unfold FilterGraph.onFilterBounds.
  destruct (fInputs n) as [|first rest]; [done|].
  unfold FilterGraph.input_bounds at 1.
  assert (match first with
          | Some filter => filterBounds filter src ctm direction
          | None => Some src
          end = Some src) as ->.
  { destruct first as [i|]; [|done]. apply Hin. by left. }
  apply join_inputs_all_src; [done|]. intros i Hi. apply Hin. by right.
Qed.

(** X14.  A graph that leaves bounds alone passes them through: when no node
    overrides [onFilterNodeBounds] and, in the forward direction, no node has
    a crop edge set, [filterBounds] succeeds with [*dst = src] for any shape
    of graph.  (Joining a rectangle with itself gives that rectangle.) *)
Theorem filterBounds_passes_src_through n src ctm direction :
  (∀ r, SkIRect_join r r = r) →
  passes_bounds direction n →
  filterBounds n src ctm direction = Some src.
Proof.
  intros Hjoin Hpass. revert src.
  induction Hpass as [n Hnode Hcrop Hin IH]. intros src.
  rewrite filterBounds_unfold. destruct direction.
  - rewrite onFilterBounds_all_src by (done || intros; by apply IH).
    rewrite Hnode. unfold CropRect.applyTo. by rewrite Hcrop.
  - rewrite Hnode. apply onFilterBounds_all_src; [done|]. intros.
    by apply IH.
Qed.

(** X15.  With the base class's [onFilterBounds] in every node,
    [filterBounds] never returns false: the only [return false] hands on a
    failure of an input, and a node without inputs succeeds. *)
Theorem filterBounds_never_fails n src ctm direction :
  is_Some (filterBounds n src ctm direction).
Proof.
  revert src. induction n as [n IH] using Node_inputs_ind. intros src.
  assert (∀ src, is_Some (onFilterBounds n src ctm direction)) as Hon.
  { intros src0. unfold FilterGraph.onFilterBounds.
    assert (∀ filter, filter ∈ fInputs n →
              is_Some (input_bounds src0 ctm direction filter)) as Hin.
    { intros [i|] Hi; [by apply IH|done]. }
    destruct (fInputs n) as [|first rest]; [done|].
    destruct (Hin first) as [rect ->]; [by left|].
    assert (∀ filter, filter ∈ rest →
              is_Some (input_bounds src0 ctm direction filter)) as Hrest
      by (intros; apply Hin; by right).
    clear Hin IH. revert rect.
    induction rest as [|filter rest IHr]; intros rect; [done|]. simpl.
    destruct (Hrest filter) as [rect' ->]; [by left|].
    apply IHr. intros. apply Hrest. by right. }
  rewrite filterBounds_unfold. destruct direction.
  - by destruct (Hon src) as [bounds ->].
  - apply Hon.
Qed.

(** X16.  With the base class's [computeFastBounds] in every node the fast
    bound of a graph is [src] itself, whatever its shape, and
    [canComputeFastBounds] holds: every leaf and every null slot contributes
    [src], and the joins are joins of [src] with [src]. *)
Theorem computeFastBounds_is_src n src :
  (∀ r, SkRect_join r r = r) →
  computeFastBounds n src = src ∧ canComputeFastBounds n = true.
Proof.
  intros Hjoin. induction n as [n IH] using Node_inputs_ind.
  destruct n as [inputs uses crop id nb]. simpl in IH. split.
  - simpl. destruct inputs as [|first rest]; [done|].
    assert (match first with
            | Some input => computeFastBounds input src
            | None => src
            end = src) as ->.
    { destruct first as [i|]; [|done]. apply IH. by left. }
    assert (∀ i, Some i ∈ rest → computeFastBounds i src = src) as Hrest
      by (intros; apply IH; by right).
    clear IH. induction rest as [|input rest IHr]; [done|]. simpl.
    assert (match input with
            | Some input => SkRect_join src (computeFastBounds input src)
            | None => SkRect_join src src
            end = src) as ->.
    { destruct input as [i|]; [|done]. rewrite Hrest by by left. done. }
    apply IHr. intros. apply Hrest. by right.
  - simpl. apply forallb_forall. intros [i|] Hi; [|done].
    apply IH. by apply list_elem_of_In.
Qed.

End GraphTheory.

(** ** The evaluator *)

Section EvaluatorTheory.
Context {SkMatrix : Type} `{Countable SkMatrix}.
Context {Proxy : Type}.
Variable size_t_bits : Z.
Variable Proxy_filterImage :
  Proxy → Deprecated.SkImageFilter (SkMatrix:=SkMatrix) (Proxy:=Proxy) →
  Deprecated.BitmapFilter (SkMatrix:=SkMatrix).
Variable internal_getBM : SkSpecialImage → option SkBitmap.
Variable internal_getProxy : SkSpecialImage → option Proxy.
Variable internal_fromBM : option Proxy → SkBitmap → option SkSpecialImage.
Import ImageFilter.

Local Abbreviation CacheImpl := (Cache.CacheImpl (SkMatrix:=SkMatrix)).
Local Abbreviation Key := (Cache.Key (SkMatrix:=SkMatrix)).
Local Abbreviation State := (ImageFilter.State (SkMatrix:=SkMatrix)).
Local Abbreviation Context := (ImageFilter.Context (SkMatrix:=SkMatrix)).
Local Abbreviation wf := (Cache.wf (SkMatrix:=SkMatrix) size_t_bits).
Local Abbreviation DeprecatedFilter :=
  (Deprecated.SkImageFilter (SkMatrix:=SkMatrix) (Proxy:=Proxy)).
Local Abbreviation SkImageFilter :=
  (Evaluator.SkImageFilter (SkMatrix:=SkMatrix) (Proxy:=Proxy)).
Local Abbreviation filterImageDeprecated :=
  (Deprecated.filterImageDeprecated (SkMatrix:=SkMatrix) size_t_bits
     Proxy_filterImage).
Local Abbreviation step_keeps_wf :=
  (Deprecated.step_keeps_wf (SkMatrix:=SkMatrix) size_t_bits).
Local Abbreviation call_onFilterImage :=
  (Evaluator.call_onFilterImage size_t_bits Proxy_filterImage internal_getBM
     internal_getProxy internal_fromBM).
Local Abbreviation filterImage :=
  (Evaluator.filterImage size_t_bits Proxy_filterImage internal_getBM
     internal_getProxy internal_fromBM).
Local Abbreviation reachable :=
  (Evaluator.reachable size_t_bits Proxy_filterImage internal_getBM
     internal_getProxy internal_fromBM).
Local Abbreviation keeps_wf :=
  (Evaluator.keeps_wf size_t_bits Proxy_filterImage).
Local Abbreviation stores_nothing_own :=
  (Evaluator.stores_nothing_own Proxy_filterImage).

Implicit Types (s : State) (context : Context) (c : CacheImpl).
Implicit Types (f : SkImageFilter) (d : DeprecatedFilter) (k key : Key).

(** *** Steps that record what they store *)

Lemma records_stores_same id s s' :
  fCacheKeys s' = fCacheKeys s → insertedKeys s' = insertedKeys s →
  foreign_to id (the_cache s) (the_cache s') →
  records_stores id [] s s'.
Proof.
  intros Hk Hi Hfor. unfold records_stores. rewrite !app_nil_r.
  split; [done|]. split; [done|]. split; [by intros k Hin%elem_of_nil|].
  intros k Hid Hlive. left. by apply Hfor.
Qed.

Lemma records_stores_trans id new1 new2 s s1 s2 :
  records_stores id new1 s s1 → records_stores id new2 s1 s2 →
  records_stores id (new1 ++ new2) s s2.
Proof.
  intros (Hk1 & Hi1 & Hid1 & Hl1) (Hk2 & Hi2 & Hid2 & Hl2).
  unfold records_stores. rewrite Hk2, Hk1, Hi2, Hi1, !app_assoc.
  split; [done|]. split; [done|]. split.
  - intros k [Hin|Hin]%elem_of_app; auto.
  - intros k Hid Hlive. rewrite elem_of_app.
    destruct (Hl2 k Hid Hlive) as [Hold|Hin]; [|auto].
    destruct (Hl1 k Hid Hold) as [Hold'|Hin]; auto.
Qed.

Lemma foreign_to_refl id c : foreign_to id c c.
Proof. by intros k _ Hk. Qed.

Lemma set_bitmap_lookup_subset c key result offset k :
  k ≠ key →
  is_Some (Cache.fLookup (Cache.set_bitmap size_t_bits key result offset c)
             !! k) →
  is_Some (Cache.fLookup c !! k).
Proof.
  intros Hne [x Hx]. unfold Cache.set_bitmap, Cache.insert_value in Hx.
  apply evict_lookup_Some in Hx. simpl in Hx.
  rewrite lookup_insert_ne in Hx by done.
  apply remove_if_present_lookup_Some in Hx. by exists x.
Qed.

(** [set] followed by [push_back], as [filterImage] has them. *)
Lemma records_stores_set id key image offset s :
  Cache.fUniqueID key = id →
  records_stores id [key] s
    (push_back key (cache_set size_t_bits key image offset s)).
Proof.
  intros Hid. unfold records_stores. simpl.
  split; [done|]. split; [done|]. split.
  - intros k Hk%list_elem_of_singleton. by subst k.
  - intros k _ Hlive. destruct (decide (k = key)) as [->|Hne].
    + right. by left.
    + left. by eapply set_lookup_subset.
Qed.

Lemma records_stores_set_bitmap id key result offset s :
  Cache.fUniqueID key = id →
  records_stores id [key] s
    (push_back key (cache_set_bitmap size_t_bits key result offset s)).
Proof.
  intros Hid. unfold records_stores. simpl.
  split; [done|]. split; [done|]. split.
  - intros k Hk%list_elem_of_singleton. by subst k.
  - intros k _ Hlive. destruct (decide (k = key)) as [->|Hne].
    + right. by left.
    + left. by eapply set_bitmap_lookup_subset.
Qed.

(** *** The deprecated bitmap path *)

Lemma get_bitmap_lookup c key result offset :
  Cache.fLookup (Cache.get_bitmap key result offset c).2 = Cache.fLookup c.
Proof. unfold Cache.get_bitmap. by destruct (Cache.fLookup c !! key). Qed.

(** The three ways [filterImageDeprecated] ends, with the cache as the probe
    and the two hooks leave it. *)
Lemma filterImageDeprecated_cases d proxy src context result offset s :
  let key := Deprecated.make_key d src context in
  let r := filterImageDeprecated d proxy src context result offset s in
  (∃ c, r.2 = with_cache c s ∧
        Cache.fLookup c = Cache.fLookup (the_cache s) ∧
        (wf (the_cache s) → wf c)) ∨
  (∃ c bm off,
     let s1 := Deprecated.past_probe c s in
     (r = (false, bm, off, s1) ∨
      (cache context = false ∧ r = (true, bm, off, s1)) ∨
      (cache context = true ∧
       r = (true, bm, off,
            push_back key (cache_set_bitmap size_t_bits key bm off s1)))) ∧
     (step_keeps_wf (Deprecated.onFilterImageDeprecated d proxy) →
      (∀ p, proxy = Some p → step_keeps_wf (Proxy_filterImage p d)) →
      wf (the_cache s) → wf c) ∧
     (Deprecated.step_stores_nothing_under (Deprecated.fUniqueID d)
        (Deprecated.onFilterImageDeprecated d proxy) →
      (∀ p, proxy = Some p →
            Deprecated.step_stores_nothing_under (Deprecated.fUniqueID d)
              (Proxy_filterImage p d)) →
      foreign_to (Deprecated.fUniqueID d) (the_cache s) c)).
Proof.
  intros key r. subst r. unfold Deprecated.filterImageDeprecated. fold key.
  assert (∃ hit result0 offset0 c0,
            (if cache context
             then Cache.get_bitmap key result offset (the_cache s)
             else (false, result, offset, the_cache s))
            = (hit, result0, offset0, c0) ∧
            Cache.fLookup c0 = Cache.fLookup (the_cache s) ∧
            (wf (the_cache s) → wf c0))
    as (hit & result0 & offset0 & c0 & -> & Hl0 & Hwf0).
  { destruct (cache context).
    - pose proof (get_bitmap_lookup (the_cache s) key result offset) as Hl.
      pose proof (wf_get_bitmap size_t_bits (the_cache s) key result offset)
        as Hw.
      destruct (Cache.get_bitmap key result offset (the_cache s))
        as [[[hit r0] o0] c0].
      by exists hit, r0, o0, c0.
    - by exists false, result, offset, (the_cache s). }
  destruct hit; [left; by exists c0|]. right.
  assert (foreign_to (Deprecated.fUniqueID d) (the_cache s) c0) as Hfor0.
  { intros k _ Hk. by rewrite <-Hl0. }
  destruct (match proxy with
            | Some p => Proxy_filterImage p d src context result0 offset0 c0
            | None => (false, result0, offset0, c0)
            end) as [[[ok1 result1] offset1] c1] eqn:Hp.
  assert ((step_keeps_wf (Deprecated.onFilterImageDeprecated d proxy) →
           (∀ p, proxy = Some p → step_keeps_wf (Proxy_filterImage p d)) →
           wf (the_cache s) → wf c1) ∧
          ((∀ p, proxy = Some p →
                 Deprecated.step_stores_nothing_under (Deprecated.fUniqueID d)
                   (Proxy_filterImage p d)) →
           foreign_to (Deprecated.fUniqueID d) (the_cache s) c1))
    as [Hwf1 Hfor1].
  { destruct proxy as [p|].
    - split.
      + intros _ Hpw Hwf.
        pose proof (Hpw p eq_refl src context result0 offset0 c0 (Hwf0 Hwf))
          as Hw.
        by rewrite Hp in Hw.
      + intros Hpf k Hid Hk. apply Hfor0; [done|].
        pose proof (Hpf p eq_refl src context result0 offset0 c0 k Hid) as Hf.
        rewrite Hp in Hf. by apply Hf.
    - injection Hp as <- <- <- <-. split; [by auto|done]. }
  destruct (if ok1 then (true, result1, offset1, c1)
            else Deprecated.onFilterImageDeprecated d proxy src context
                   result1 offset1 c1)
    as [[[ok2 result2] offset2] c2] eqn:Ho.
  assert ((step_keeps_wf (Deprecated.onFilterImageDeprecated d proxy) →
           (∀ p, proxy = Some p → step_keeps_wf (Proxy_filterImage p d)) →
           wf (the_cache s) → wf c2) ∧
          (Deprecated.step_stores_nothing_under (Deprecated.fUniqueID d)
             (Deprecated.onFilterImageDeprecated d proxy) →
           (∀ p, proxy = Some p →
                 Deprecated.step_stores_nothing_under (Deprecated.fUniqueID d)
                   (Proxy_filterImage p d)) →
           foreign_to (Deprecated.fUniqueID d) (the_cache s) c2))
    as [Hwf2 Hfor2].
  { destruct ok1.
    - injection Ho as <- <- <- <-. split; [done|]. intros _. apply Hfor1.
    - split.
      + intros How Hpw Hwf.
        pose proof (How src context result1 offset1 c1 (Hwf1 How Hpw Hwf))
          as Hw.
        by rewrite Ho in Hw.
      + intros Hof Hpf k Hid Hk. apply (Hfor1 Hpf); [done|].
        pose proof (Hof src context result1 offset1 c1 k Hid) as Hf.
        rewrite Ho in Hf. by apply Hf. }
  exists c2, result2, offset2. split; [|done].
  destruct ok2; [|by left]. right.
  destruct (cache context); [right|left]; done.
Qed.

(** After a call that returns true the result sits at the head of the
    cache under the call's key. *)
Lemma filterImageDeprecated_cached d proxy src context result offset
    s s1 bm off :
  cache context = true →
  wf (the_cache s) →
  step_keeps_wf (Deprecated.onFilterImageDeprecated d proxy) →
  (∀ p, proxy = Some p → step_keeps_wf (Proxy_filterImage p d)) →
  filterImageDeprecated d proxy src context result offset s
    = (true, bm, off, s1) →
  ∃ v, Cache.fLookup (the_cache s1) !! Deprecated.make_key d src context
         = Some v ∧
       head (Cache.fLRU (the_cache s1)) = Some v ∧
       Cache.fBitmap v = bm ∧ Cache.fOffset v = off.
Proof.
  intros Hc Hwf Hown Hproxy. unfold Deprecated.filterImageDeprecated.
  rewrite Hc. set (key := Deprecated.make_key d src context).
  unfold Cache.get_bitmap.
  set (c0 := the_cache s) in *.
  destruct (Cache.fLookup c0 !! key) as [v|] eqn:Hv.
  - (* the probe hits *)
    intros [= <- <- <-]. exists v.
    cbn [with_cache the_cache Cache.fLookup Cache.fLRU].
    pose proof (proj1 (Cache.wf_lookup _ _ Hwf key v) Hv) as [Hin _].
    rewrite touch_front by (done || apply Hwf). done.
  - (* the probe misses *)
    assert (∃ ok1 result1 offset1 c1,
              match proxy with
              | Some p => Proxy_filterImage p d src context result offset c0
              | None => (false, result, offset, c0)
              end = (ok1, result1, offset1, c1) ∧ wf c1)
      as (ok1 & result1 & offset1 & c1 & -> & Hwf1).
    { destruct proxy as [p|].
      - pose proof (Hproxy p eq_refl src context result offset c0 Hwf) as Hw.
        destruct (Proxy_filterImage p d src context result offset c0)
          as [[[ok1 r1'] o1] c1].
        by exists ok1, r1', o1, c1.
      - by exists false, result, offset, c0. }
    assert (∃ ok2 result2 offset2 c2,
              (if ok1 then (true, result1, offset1, c1)
               else Deprecated.onFilterImageDeprecated d proxy src context
                      result1 offset1 c1) = (ok2, result2, offset2, c2) ∧
              wf c2)
      as (ok2 & result2 & offset2 & c2 & -> & Hwf2).
    { destruct ok1.
      - by exists true, result1, offset1, c1.
      - pose proof (Hown src context result1 offset1 c1 Hwf1) as Hw.
        destruct (Deprecated.onFilterImageDeprecated d proxy src context
                    result1 offset1 c1) as [[[ok2 r2'] o2] c2].
        by exists ok2, r2', o2, c2. }
    destruct ok2; [|done]. intros [= <- <- <-].
    cbn [push_back cache_set_bitmap Deprecated.past_probe the_cache].
    destruct (set_bitmap_spec size_t_bits c2 key result2 offset2 Hwf2)
      as (_ & Hhead & Hk).
    eexists. split; [exact Hk|]. split; [exact Hhead|]. done.
Qed.

(** X17.  The bitmap path memoizes too.  With a cache in the context, when a
    call of [filterImageDeprecated] returns true, the same call again
    returns true with the same bitmap and offset out of the cache: neither
    the proxy nor [onFilterImageDeprecated] runs, nothing is stored or
    recorded, and the cache is left as it was. *)
Theorem filterImageDeprecated_memoizes
    (f : DeprecatedFilter) (proxy : option Proxy)
    src (context : Context) result offset result' offset' (s : State) :
  ImageFilter.cache context = true →
  wf (ImageFilter.the_cache s) →
  step_keeps_wf (Deprecated.onFilterImageDeprecated f proxy) →
  (∀ p, proxy = Some p → step_keeps_wf (Proxy_filterImage p f)) →
  let r1 := filterImageDeprecated f proxy src context result offset s in
  r1.1.1.1 = true →
  filterImageDeprecated f proxy src context result' offset' r1.2 =
    (true, r1.1.1.2, r1.1.2, r1.2).
Proof.
  intros Hc Hwf Hown Hproxy r1 Hok.
  destruct r1 as [[[ok bm] off] s1] eqn:Hr1. simpl in Hok. subst ok.
  destruct (filterImageDeprecated_cached f proxy src context result offset
              s s1 bm off Hc Hwf Hown Hproxy Hr1)
    as (v & Hk & Hhead & <- & <-).
  cbn [fst snd]. unfold Deprecated.filterImageDeprecated. rewrite Hc.
  rewrite (get_bitmap_head _ _ result' offset' v Hk Hhead).
  by destruct s1.
Qed.

Lemma filterImageDeprecated_records d proxy src context result offset s :
  Deprecated.step_stores_nothing_under (Deprecated.fUniqueID d)
    (Deprecated.onFilterImageDeprecated d proxy) →
  (∀ p, proxy = Some p →
        Deprecated.step_stores_nothing_under (Deprecated.fUniqueID d)
          (Proxy_filterImage p d)) →
  ∃ new, records_stores (Deprecated.fUniqueID d) new s
           (filterImageDeprecated d proxy src context result offset s).2.
Proof.
  intros Hof Hpf.
  destruct (filterImageDeprecated_cases d proxy src context result offset s)
    as [(c & -> & Hl & _)|(c & bm & off & Hr & _ & Hfor)].
  - exists []. apply records_stores_same; [done|done|].
    intros k _ Hk. simpl in Hk. by rewrite <-Hl.
  - specialize (Hfor Hof Hpf).
    assert (records_stores (Deprecated.fUniqueID d) [] s
              (Deprecated.past_probe c s)) as Hpast
      by by apply records_stores_same.
    destruct Hr as [->|[[_ ->]|[_ ->]]]; [by exists []|by exists []|].
    exists ([] ++ [Deprecated.make_key d src context]).
    eapply records_stores_trans; [exact Hpast|].
    by apply records_stores_set_bitmap.
Qed.

Lemma filterImageDeprecated_keeps_wf d proxy src context result offset s :
  step_keeps_wf (Deprecated.onFilterImageDeprecated d proxy) →
  (∀ p, proxy = Some p → step_keeps_wf (Proxy_filterImage p d)) →
  wf (the_cache s) →
  wf (the_cache
        (filterImageDeprecated d proxy src context result offset s).2).
Proof.
  intros How Hpw Hwf.
  destruct (filterImageDeprecated_cases d proxy src context result offset s)
    as [(c & -> & _ & Hw)|(c & bm & off & Hr & Hw & _)].
  - by apply Hw.
  - specialize (Hw How Hpw Hwf).
    destruct Hr as [->|[[_ ->]|[_ ->]]]; [done|done|].
    by apply wf_set_bitmap.
Qed.

Lemma filterImageDeprecated_computeCalls d proxy src context result offset s :
  computeCalls (filterImageDeprecated d proxy src context result offset s).2
  = computeCalls s.
Proof.
  destruct (filterImageDeprecated_cases d proxy src context result offset s)
    as [(c & -> & _)|(c & bm & off & Hr & _)]; [done|].
  by destruct Hr as [->|[[_ ->]|[_ ->]]].
Qed.

(** *** One run of [onFilterImage] *)

Lemma call_onFilterImage_computeCalls f src context offset s :
  computeCalls (call_onFilterImage f src context offset s).2
  = S (computeCalls s).
Proof.
  unfold Evaluator.call_onFilterImage.
  destruct (Evaluator.onFilterImage f) as [override|].
  - by destruct (override src context offset (the_cache s)) as [[r o] c].
  - unfold Evaluator.base_onFilterImage.
    destruct (internal_getBM src) as [srcBM|]; [|done].
    pose proof (filterImageDeprecated_computeCalls
                  (Evaluator.deprecated_part f) (internal_getProxy src) srcBM
                  context SkBitmap_empty offset (Evaluator.count_run s))
      as Hcalls.
    destruct (filterImageDeprecated _ _ _ _ _ _ _) as [[[ok bm] off] s1].
    simpl in Hcalls. by destruct ok.
Qed.

Lemma call_onFilterImage_keeps_wf f src context offset s :
  keeps_wf f → wf (the_cache s) →
  wf (the_cache (call_onFilterImage f src context offset s).2).
Proof.
  unfold Evaluator.keeps_wf, Evaluator.call_onFilterImage.
  destruct (Evaluator.onFilterImage f) as [override|].
  - intros Hkeep Hwf. specialize (Hkeep src context offset _ Hwf).
    by destruct (override src context offset (the_cache s)) as [[r o] c].
  - intros [How Hpw] Hwf. unfold Evaluator.base_onFilterImage.
    destruct (internal_getBM src) as [srcBM|]; [|done].
    pose proof (filterImageDeprecated_keeps_wf
                  (Evaluator.deprecated_part f) (internal_getProxy src) srcBM
                  context SkBitmap_empty offset (Evaluator.count_run s)
                  (How _) (λ p _, Hpw p) Hwf) as Hw.
    destruct (filterImageDeprecated _ _ _ _ _ _ _) as [[[ok bm] off] s1].
    simpl in Hw. by destruct ok.
Qed.

Lemma call_onFilterImage_records f src context offset s :
  stores_nothing_own f →
  ∃ new, records_stores (Evaluator.fUniqueID f) new s
           (call_onFilterImage f src context offset s).2.
Proof.
  unfold Evaluator.stores_nothing_own, Evaluator.call_onFilterImage.
  destruct (Evaluator.onFilterImage f) as [override|].
  - intros Hown. specialize (Hown src context offset (the_cache s)).
    destruct (override src context offset (the_cache s)) as [[r o] c].
    exists []. by apply records_stores_same.
  - intros [Hof Hpf]. unfold Evaluator.base_onFilterImage.
    assert (records_stores (Evaluator.fUniqueID f) [] s
              (Evaluator.count_run s)) as Hrun
      by (apply records_stores_same; [done|done|apply foreign_to_refl]).
    destruct (internal_getBM src) as [srcBM|]; [|by exists []].
    destruct (filterImageDeprecated_records
                (Evaluator.deprecated_part f) (internal_getProxy src) srcBM
                context SkBitmap_empty offset (Evaluator.count_run s)
                (Hof _) (λ p _, Hpf p)) as [new Hnew].
    destruct (filterImageDeprecated _ _ _ _ _ _ _) as [[[ok bm] off] s1].
    simpl in Hnew. exists ([] ++ new).
    destruct ok; by eapply records_stores_trans.
Qed.

(** What [onFilterImage] appends to [fCacheKeys] it appends to the history
    of stores, and it is under the node's id; this needs nothing of the
    overrides. *)
Lemma call_onFilterImage_appends f src context offset s :
  ∃ new,
    fCacheKeys (call_onFilterImage f src context offset s).2
      = fCacheKeys s ++ new ∧
    insertedKeys (call_onFilterImage f src context offset s).2
      = insertedKeys s ++ new ∧
    ∀ k, k ∈ new → Cache.fUniqueID k = Evaluator.fUniqueID f.
Proof.
  unfold Evaluator.call_onFilterImage.
  destruct (Evaluator.onFilterImage f) as [override|].
  - destruct (override src context offset (the_cache s)) as [[r o] c].
    exists []. simpl. rewrite !app_nil_r.
    split; [done|]. split; [done|]. by intros k Hk%elem_of_nil.
  - unfold Evaluator.base_onFilterImage.
    destruct (internal_getBM src) as [srcBM|].
    2:{ exists []. simpl. rewrite !app_nil_r.
        split; [done|]. split; [done|]. by intros k Hk%elem_of_nil. }
    destruct (filterImageDeprecated_cases
                (Evaluator.deprecated_part f) (internal_getProxy src) srcBM
                context SkBitmap_empty offset (Evaluator.count_run s))
      as [(c & Hr & _)|(c & bm & off & Hr & _)].
    + destruct (filterImageDeprecated _ _ _ _ _ _ _) as [[[ok bm] off] s1].
      simpl in Hr. subst s1. exists []. rewrite !app_nil_r.
      destruct ok; simpl; (split; [done|]; split; [done|]);
        by intros k Hk%elem_of_nil.
    + destruct Hr as [->|[[_ ->]|[_ ->]]].
      * exists []. simpl. rewrite !app_nil_r.
        split; [done|]. split; [done|]. by intros k Hk%elem_of_nil.
      * exists []. simpl. rewrite !app_nil_r.
        split; [done|]. split; [done|]. by intros k Hk%elem_of_nil.
      * exists [Deprecated.make_key (Evaluator.deprecated_part f) srcBM
                  context].
        simpl. split; [done|]. split; [done|].
        intros k Hk%list_elem_of_singleton. by subst k.
Qed.

(** *** One call of [filterImage] *)

Lemma make_key_fingerprint f src src' context context' :
  ctm context' = ctm context →
  clipBounds context' = clipBounds context →
  (Evaluator.fUsesSrcInput f = true →
   uniqueID src' = uniqueID src ∧ subset src' = subset src) →
  Evaluator.make_key f src' context' = Evaluator.make_key f src context.
Proof.
  intros Hctm Hclip Hsrc. unfold Evaluator.make_key.
  rewrite Hctm, Hclip. destruct (Evaluator.fUsesSrcInput f); [|done].
  by destruct (Hsrc eq_refl) as [-> ->].
Qed.

(** A probe that finds an image: nothing is computed, nothing recorded. *)
Lemma filterImage_hit f src context offset s v image :
  cache context = true →
  Cache.fLookup (the_cache s) !! Evaluator.make_key f src context = Some v →
  Cache.fImage v = Some image →
  filterImage f src context offset s =
    (Some image, Cache.fOffset v,
     with_cache
       (Cache.MkCache (Cache.fLookup (the_cache s))
          (Cache.touch v (Cache.fLRU (the_cache s)))
          (Cache.fMaxBytes (the_cache s)) (Cache.fCurrentBytes (the_cache s))
          (Cache.fNextAddr (the_cache s))) s).
Proof.
  intros Hc Hv Himg. unfold Evaluator.filterImage, Cache.get.
  by rewrite Hc, Hv, Himg.
Qed.

(** The probe of [filterImage], and the state [onFilterImage] starts in when
    it finds no image. *)
Lemma filterImage_probe f src context offset s :
  ∃ hit off1 c1,
    (if cache context
     then Cache.get (Evaluator.make_key f src context) offset (the_cache s)
     else (None, offset, the_cache s)) = (hit, off1, c1) ∧
    Cache.fLookup c1 = Cache.fLookup (the_cache s) ∧
    (wf (the_cache s) → wf c1).
Proof.
  destruct (cache context).
  - pose proof (get_lookup (the_cache s) (Evaluator.make_key f src context)
                  offset) as Hl.
    pose proof (wf_get size_t_bits (the_cache s)
                  (Evaluator.make_key f src context) offset) as Hw.
    destruct (Cache.get _ offset (the_cache s)) as [[hit off1] c1].
    by exists hit, off1, c1.
  - by exists None, offset, (the_cache s).
Qed.

Lemma filterImage_keeps_wf f src context offset s :
  keeps_wf f → wf (the_cache s) →
  wf (the_cache (filterImage f src context offset s).2).
Proof.
  intros Hkeep Hwf. unfold Evaluator.filterImage.
  destruct (filterImage_probe f src context offset s)
    as (hit & off1 & c1 & -> & _ & Hwf1).
  destruct hit as [result|]; [by apply Hwf1|].
  pose proof (call_onFilterImage_keeps_wf f src context off1
                (with_cache c1 s) Hkeep (Hwf1 Hwf)) as Hwf2.
  destruct (call_onFilterImage f src context off1 (with_cache c1 s))
    as [[result off2] s2].
  simpl in Hwf2. destruct result as [image|]; [|done].
  destruct (cache context); [|done]. by apply wf_set.
Qed.

Lemma filterImage_records f src context offset s :
  stores_nothing_own f →
  ∃ new, records_stores (Evaluator.fUniqueID f) new s
           (filterImage f src context offset s).2.
Proof.
  intros Hown. unfold Evaluator.filterImage.
  destruct (filterImage_probe f src context offset s)
    as (hit & off1 & c1 & -> & Hl1 & _).
  assert (records_stores (Evaluator.fUniqueID f) [] s (with_cache c1 s))
    as Hprobe.
  { apply records_stores_same; [done|done|]. intros k _ Hk. simpl in Hk.
    by rewrite <-Hl1. }
  destruct hit as [result|]; [by exists []|].
  destruct (call_onFilterImage_records f src context off1 (with_cache c1 s)
              Hown) as [new Hnew].
  destruct (call_onFilterImage f src context off1 (with_cache c1 s))
    as [[result off2] s2].
  simpl in Hnew.
  assert (records_stores (Evaluator.fUniqueID f) ([] ++ new) s s2) as Hrun
    by by eapply records_stores_trans.
  destruct result as [image|]; [|by eexists].
  destruct (cache context); [|by eexists].
  eexists. eapply records_stores_trans; [exact Hrun|].
  by apply records_stores_set.
Qed.

Lemma filterImage_appends f src context offset s :
  ∃ new,
    fCacheKeys (filterImage f src context offset s).2
      = fCacheKeys s ++ new ∧
    insertedKeys (filterImage f src context offset s).2
      = insertedKeys s ++ new ∧
    ∀ k, k ∈ new → Cache.fUniqueID k = Evaluator.fUniqueID f.
Proof.
  unfold Evaluator.filterImage.
  destruct (filterImage_probe f src context offset s)
    as (hit & off1 & c1 & -> & _ & _).
  destruct hit as [result|].
  { exists []. simpl. rewrite !app_nil_r.
    split; [done|]. split; [done|]. by intros k Hk%elem_of_nil. }
  destruct (call_onFilterImage_appends f src context off1 (with_cache c1 s))
    as (new & Hk & Hi & Hid).
  destruct (call_onFilterImage f src context off1 (with_cache c1 s))
    as [[result off2] s2].
  simpl in Hk, Hi.
  destruct result as [image|]; [|by exists new].
  destruct (cache context); [|by exists new].
  exists (new ++ [Evaluator.make_key f src context]). simpl.
  rewrite Hk, Hi, !app_assoc. split; [done|]. split; [done|].
  intros k [Hin|Hin%list_elem_of_singleton]%elem_of_app; [by apply Hid|].
  by subst k.
Qed.

(** C3, as the code has it.  With a cache in both contexts, when a first
    call returns an image, a second call with the same fingerprint (the same
    transform and clip and, where the node reads the source, the same source
    id and subset; any source otherwise) returns that image and offset from
    the cache and does not run [onFilterImage] or record a key; over the two
    calls [onFilterImage] has run exactly once when the first probe missed
    (and not at all when it hit). *)
Theorem filterImage_memoizes f src src' context context' offset offset' s :
  cache context = true → cache context' = true →
  ctm context' = ctm context →
  clipBounds context' = clipBounds context →
  (Evaluator.fUsesSrcInput f = true →
   uniqueID src' = uniqueID src ∧ subset src' = subset src) →
  wf (the_cache s) →
  keeps_wf f →
  let r1 := filterImage f src context offset s in
  is_Some r1.1.1 →
  let r2 := filterImage f src' context' offset' r1.2 in
  r2.1.1 = r1.1.1 ∧ r2.1.2 = r1.1.2 ∧
  computeCalls r2.2 = computeCalls r1.2 ∧
  deprecatedCalls r2.2 = deprecatedCalls r1.2 ∧
  fCacheKeys r2.2 = fCacheKeys r1.2 ∧
  computeCalls r1.2 =
    match (Cache.get (Evaluator.make_key f src context) offset
             (the_cache s)).1.1 with
    | Some _ => computeCalls s
    | None => S (computeCalls s)
    end.
Proof.
  intros Hc Hc' Hctm Hclip Hsrc Hwf Hkeep r1 Hsome r2.
  pose proof (make_key_fingerprint f src src' context context' Hctm Hclip
                Hsrc) as Hkey.
  set (key := Evaluator.make_key f src context) in *.
  (* what the first call leaves: the image under the key *)
  assert (∃ v image,
            Cache.fLookup (the_cache r1.2) !! key = Some v ∧
            Cache.fImage v = Some image ∧
            r1.1.1 = Some image ∧ r1.1.2 = Cache.fOffset v ∧
            computeCalls r1.2 =
              match (Cache.get key offset (the_cache s)).1.1 with
              | Some _ => computeCalls s
              | None => S (computeCalls s)
              end) as (v & image & Hv & Himg & Hres & Hoff & Hcount).
  { subst r1. unfold Cache.get.
    destruct (Cache.fLookup (the_cache s) !! key) as [v|] eqn:Hl.
    - destruct (Cache.fImage v) as [image|] eqn:Himg.
      + rewrite (filterImage_hit f src context offset s v image Hc Hl Himg).
        by exists v, image.
      + (* an entry without an image: the probe misses, as below *)
        unfold Evaluator.filterImage, Cache.get in *. fold key in Hsome |- *.
        rewrite Hc, Hl, Himg in *. cbn [fst snd] in *.
        set (s0 := with_cache _ s) in *.
        pose proof (call_onFilterImage_keeps_wf f src context
                      (Cache.fOffset v) s0 Hkeep) as Hwf2.
        pose proof (call_onFilterImage_computeCalls f src context
                      (Cache.fOffset v) s0) as Hcalls.
        destruct (call_onFilterImage f src context (Cache.fOffset v) s0)
          as [[result off2] s2].
        simpl in Hwf2, Hcalls.
        destruct result as [img|]; [|by destruct Hsome].
        assert (wf (the_cache s2)) as Hw2.
        { apply Hwf2. subst s0. simpl.
          pose proof (wf_get size_t_bits (the_cache s) key offset Hwf) as Hg.
          unfold Cache.get in Hg. by rewrite Hl in Hg. }
        eexists _, img. cbn [fst snd push_back cache_set the_cache
                              computeCalls].
        split; [by apply set_lookup|]. by rewrite Hcalls.
    - unfold Evaluator.filterImage, Cache.get in *. fold key in Hsome |- *.
      rewrite Hc, Hl in *. cbn [fst snd] in *.
      set (s0 := with_cache _ s) in *.
      pose proof (call_onFilterImage_keeps_wf f src context offset s0 Hkeep)
        as Hwf2.
      pose proof (call_onFilterImage_computeCalls f src context offset s0)
        as Hcalls.
      destruct (call_onFilterImage f src context offset s0)
        as [[result off2] s2].
      simpl in Hwf2, Hcalls.
      destruct result as [img|]; [|by destruct Hsome].
      assert (wf (the_cache s2)) as Hw2.
      { apply Hwf2. subst s0. simpl. by destruct (the_cache s). }
      eexists _, img. cbn [fst snd push_back cache_set the_cache
                            computeCalls].
      split; [by apply set_lookup|]. by rewrite Hcalls. }
  subst r2. rewrite <-Hkey in Hv.
  rewrite (filterImage_hit f src' context' offset' r1.2 v image Hc' Hv Himg).
  by rewrite Hres, Hoff.
Qed.

(** *** What a node records *)

Lemma reachable_appends f s :
  reachable f s →
  fCacheKeys s = insertedKeys s ∧
  ∀ k, k ∈ fCacheKeys s → Cache.fUniqueID k = Evaluator.fUniqueID f.
Proof.
  induction 1 as [c Hnone|s src context offset Hreach [IH1 IH2]
                  |s src context offset Hreach [IH1 IH2]
                  |s c' Hreach [IH1 IH2] Hfor].
  - simpl. split; [done|]. by intros k Hk%elem_of_nil.
  - destruct (filterImage_appends f src context offset s)
      as (new & -> & -> & Hid).
    split; [by rewrite IH1|].
    intros k [Hk|Hk]%elem_of_app; [by apply IH2|by apply Hid].
  - destruct (call_onFilterImage_appends f src context offset s)
      as (new & -> & -> & Hid).
    split; [by rewrite IH1|].
    intros k [Hk|Hk]%elem_of_app; [by apply IH2|by apply Hid].
  - done.
Qed.

Lemma reachable_live_recorded f s :
  stores_nothing_own f → reachable f s →
  ∀ k, Cache.fUniqueID k = Evaluator.fUniqueID f →
       is_Some (Cache.fLookup (the_cache s) !! k) → k ∈ fCacheKeys s.
Proof.
  intros Hown.
  induction 1 as [c Hnone|s src context offset Hreach IH
                  |s src context offset Hreach IH
                  |s c' Hreach IH Hfor]; intros k Hid Hk.
  - simpl in Hk. rewrite (Hnone k Hid) in Hk. by destruct Hk.
  - destruct (filterImage_records f src context offset s Hown)
      as (new & Hkeys & _ & _ & Hlive).
    rewrite Hkeys. apply elem_of_app.
    destruct (Hlive k Hid Hk) as [Hold|Hin]; [left|by right]. by apply IH.
  - destruct (call_onFilterImage_records f src context offset s Hown)
      as (new & Hkeys & _ & _ & Hlive).
    rewrite Hkeys. apply elem_of_app.
    destruct (Hlive k Hid Hk) as [Hold|Hin]; [left|by right]. by apply IH.
  - simpl. apply IH; [done|]. by apply Hfor.
Qed.

(** C8, as the code has it.  In every state a node's evaluation can reach:
    the recorded keys are the keys the node's [filterImage] and
    [filterImageDeprecated] have passed to [Cache::set], one record per store
    and in that order, whether or not the entry is still cached; they are
    keys of this node; a further evaluation only appends to the record; and,
    when the node's virtual methods store nothing under the node's id
    themselves, every entry still cached under that id has its key
    recorded. *)
Theorem recorded_keys_invariant f s :
  reachable f s →
  fCacheKeys s = insertedKeys s ∧
  (∀ k, k ∈ fCacheKeys s → Cache.fUniqueID k = Evaluator.fUniqueID f) ∧
  (∀ src context offset,
     fCacheKeys s `prefix_of`
       fCacheKeys (filterImage f src context offset s).2) ∧
  (stores_nothing_own f →
   ∀ k, Cache.fUniqueID k = Evaluator.fUniqueID f →
        is_Some (Cache.fLookup (the_cache s) !! k) → k ∈ fCacheKeys s).
Proof.
  intros Hreach. destruct (reachable_appends f s Hreach) as [Heq Hids].
  split; [done|]. split; [done|]. split.
  - intros src context offset.
    destruct (filterImage_appends f src context offset s) as (new & -> & _).
    by apply prefix_app_r.
  - intros Hown. by apply reachable_live_recorded.
Qed.

(** X18.  Destroying a node clears the cache of its entries and of nothing
    else.  In any state the node's evaluations can reach, run against the
    process-wide cache, when neither the node's virtual methods nor the rest
    of the program store under the node's id themselves, the destructor's
    [purgeByKeys] leaves no entry under the node's id and every entry of
    another node as it was. *)
Theorem destructor_purges_own_entries f s :
  stores_nothing_own f →
  reachable f s →
  wf (the_cache s) →
  let c' := Lifecycle.destructor size_t_bits s (the_cache s) in
  wf c' ∧
  (∀ k, Cache.fUniqueID k = Evaluator.fUniqueID f →
        Cache.fLookup c' !! k = None) ∧
  (∀ k, Cache.fUniqueID k ≠ Evaluator.fUniqueID f →
        Cache.fLookup c' !! k = Cache.fLookup (the_cache s) !! k).
Proof.
  intros Hown Hreach Hwf c'.
  destruct (reachable_appends f s Hreach) as [_ Hids].
  pose proof (reachable_live_recorded f s Hown Hreach) as Hlive.
  destruct (purgeByKeys_spec size_t_bits (fCacheKeys s) (the_cache s) Hwf)
    as [Hl _].
  split; [by apply wf_purgeByKeys|]. split.
  - intros k Hid. unfold c', Lifecycle.destructor. rewrite Hl.
    case_decide as Hk; [done|].
    destruct (Cache.fLookup (the_cache s) !! k) eqn:Hv; [|done].
    exfalso. apply Hk, Hlive; [done|]. by rewrite Hv.
  - intros k Hid. unfold c', Lifecycle.destructor. rewrite Hl.
    case_decide as Hk; [|done]. by apply Hids in Hk.
Qed.

End EvaluatorTheory.

(** *** The examples' nodes *)

Lemma bridged_keeps_wf :
  Evaluator.keeps_wf 64 Scenario.declining_proxy Scenario.bridged.
Proof. split; by intros p src context result offset c Hwf. Qed.

Lemma bridged_stores_nothing_own :
  Evaluator.stores_nothing_own Scenario.declining_proxy Scenario.bridged.
Proof. split; by intros p src context result offset c k Hid Hk. Qed.

Lemma bitmap_leaf_keeps_wf proxy :
  Deprecated.step_keeps_wf 64
    (Deprecated.onFilterImageDeprecated Scenario.bitmap_leaf proxy).
Proof. by intros src context result offset c Hwf. Qed.

Lemma declining_proxy_keeps_wf p f :
  Deprecated.step_keeps_wf 64 (Scenario.declining_proxy p f).
Proof. by intros src context result offset c Hwf. Qed.

(** C3 on the bridged node over an empty cache: the node does not read the
    source, and the second call, with another source and another incoming
    offset, is answered from the cache. *)
Lemma filterImage_memoizes_witness :
  Evaluator.keeps_wf 64 Scenario.declining_proxy Scenario.bridged ∧
  Scenario.image 6 200 ≠ Scenario.image 5 400 ∧
  let r1 := Scenario.filterImage Scenario.bridged (Scenario.image 5 400)
              (Scenario.context 64) Scenario.origin (Scenario.fresh 300) in
  let r2 := Scenario.filterImage Scenario.bridged (Scenario.image 6 200)
              (Scenario.context 64) (SkIPoint.Make 7 7) r1.2 in
  r2.1.1 = r1.1.1 ∧ r2.1.2 = r1.1.2 ∧
  ImageFilter.computeCalls r2.2 = ImageFilter.computeCalls r1.2 ∧
  ImageFilter.deprecatedCalls r2.2 = ImageFilter.deprecatedCalls r1.2 ∧
  ImageFilter.fCacheKeys r2.2 = ImageFilter.fCacheKeys r1.2 ∧
  ImageFilter.computeCalls r1.2 = 1%nat.
Proof.
  split; [exact bridged_keeps_wf|]. split; [done|].
  refine (filterImage_memoizes 64 Scenario.declining_proxy
            Scenario.internal_getBM Scenario.internal_getProxy
            Scenario.internal_fromBM Scenario.bridged
            (Scenario.image 5 400) (Scenario.image 6 200)
            (Scenario.context 64) (Scenario.context 64)
            Scenario.origin (SkIPoint.Make 7 7) (Scenario.fresh 300)
            _ _ _ _ _ _ bridged_keeps_wf _).
  - reflexivity.
  - reflexivity.
  - reflexivity.
  - reflexivity.
  - intros [=].
  - apply wf_Create.
  - vm_compute. by eexists.
Defined.

(** C3 fails as stated: a node whose [onFilterImage] returns nullptr is
    evaluated twice with the same fingerprint and a cache in the context, and
    [onFilterImage] runs both times; nothing was stored to be found. *)
Lemma filterImage_failure_recomputed :
  let r1 := Scenario.filterImage Scenario.failing (Scenario.image 5 400)
              (Scenario.context 64) Scenario.origin (Scenario.fresh 300) in
  let r2 := Scenario.filterImage Scenario.failing (Scenario.image 5 400)
              (Scenario.context 64) Scenario.origin r1.2 in
  ImageFilter.cache (Scenario.context 64) = true ∧
  ImageFilter.computeCalls r1.2 = 1%nat ∧ r1.1.1 = None ∧
  ImageFilter.computeCalls r2.2 = 2%nat ∧ r2.1.1 = None.
Proof. by vm_compute. Qed.

(** The source is part of the fingerprint of a node that reads it: the same
    node evaluated on an image with another id computes again, and on the
    same image it does not. *)
Example filterImage_source_in_fingerprint :
  let r1 := Scenario.filterImage Scenario.source_leaf (Scenario.image 5 400)
              (Scenario.context 64) Scenario.origin (Scenario.fresh 300) in
  let r2 := Scenario.filterImage Scenario.source_leaf (Scenario.image 6 400)
              (Scenario.context 64) Scenario.origin r1.2 in
  let r3 := Scenario.filterImage Scenario.source_leaf (Scenario.image 5 400)
              (Scenario.context 64) Scenario.origin r2.2 in
  ImageFilter.computeCalls r1.2 = 1%nat ∧
  ImageFilter.computeCalls r2.2 = 2%nat ∧
  ImageFilter.computeCalls r3.2 = 2%nat.
Proof. by vm_compute. Qed.

(** A node on the base class's [onFilterImage] records two keys for one
    evaluation: [filterImageDeprecated] stores the bitmap and records its
    key, then [filterImage] stores the image and records its own; here the
    two keys are equal, and the second store replaces the first entry. *)
Example bridged_records_two_keys :
  let r1 := Scenario.filterImage Scenario.bridged (Scenario.image 5 400)
              (Scenario.context 64) Scenario.origin (Scenario.fresh 300) in
  r1.1.1 = Some (Scenario.image 11 64) ∧
  ImageFilter.fCacheKeys r1.2 = [Scenario.key 6 64; Scenario.key 6 64] ∧
  ImageFilter.insertedKeys r1.2 = [Scenario.key 6 64; Scenario.key 6 64] ∧
  ImageFilter.computeCalls r1.2 = 1%nat ∧
  ImageFilter.deprecatedCalls r1.2 = 1%nat ∧
  length (Cache.fLRU (ImageFilter.the_cache r1.2)) = 1%nat.
Proof. by vm_compute. Qed.

(** The bridged node evaluated under two clips over a cache of 100 bytes. *)
Lemma two_clips_reachable :
  Evaluator.reachable 64 Scenario.declining_proxy Scenario.internal_getBM
    Scenario.internal_getProxy Scenario.internal_fromBM Scenario.bridged
    (Scenario.filterImage Scenario.bridged (Scenario.image 5 400)
       (Scenario.context 32) Scenario.origin
       (Scenario.filterImage Scenario.bridged (Scenario.image 5 400)
          (Scenario.context 64) Scenario.origin (Scenario.fresh 100)).2).2.
Proof.
  do 2 apply Evaluator.reach_filter.
  apply Evaluator.reach_init.
  intros k _. apply lookup_empty.
Qed.

(** C8 on the bridged node after those two evaluations. *)
Lemma recorded_keys_invariant_witness :
  let s2 := (Scenario.filterImage Scenario.bridged (Scenario.image 5 400)
               (Scenario.context 32) Scenario.origin
               (Scenario.filterImage Scenario.bridged (Scenario.image 5 400)
                  (Scenario.context 64) Scenario.origin
                  (Scenario.fresh 100)).2).2 in
  Evaluator.stores_nothing_own Scenario.declining_proxy Scenario.bridged ∧
  ImageFilter.fCacheKeys s2 = ImageFilter.insertedKeys s2 ∧
  (∀ k, k ∈ ImageFilter.fCacheKeys s2 → Cache.fUniqueID k = 6) ∧
  (∀ src context offset,
     ImageFilter.fCacheKeys s2 `prefix_of`
       ImageFilter.fCacheKeys
         (Scenario.filterImage Scenario.bridged src context offset s2).2) ∧
  (∀ k, Cache.fUniqueID k = 6 →
        is_Some (Cache.fLookup (ImageFilter.the_cache s2) !! k) →
        k ∈ ImageFilter.fCacheKeys s2).
Proof.
  intros s2. split; [exact bridged_stores_nothing_own|].
  destruct (recorded_keys_invariant 64 Scenario.declining_proxy
              Scenario.internal_getBM Scenario.internal_getProxy
              Scenario.internal_fromBM Scenario.bridged s2
              two_clips_reachable) as (Heq & Hids & Hprefix & Hlive).
  split; [exact Heq|]. split; [exact Hids|]. split; [exact Hprefix|].
  exact (Hlive bridged_stores_nothing_own).
Defined.

(** What that record is: four keys for two evaluations, of which the cache
    of 100 bytes still holds the last. *)
Example two_clips_record :
  let s2 := (Scenario.filterImage Scenario.bridged (Scenario.image 5 400)
               (Scenario.context 32) Scenario.origin
               (Scenario.filterImage Scenario.bridged (Scenario.image 5 400)
                  (Scenario.context 64) Scenario.origin
                  (Scenario.fresh 100)).2).2 in
  ImageFilter.fCacheKeys s2 =
    [Scenario.key 6 64; Scenario.key 6 64;
     Scenario.key 6 32; Scenario.key 6 32] ∧
  Cache.fLookup (ImageFilter.the_cache s2) !! Scenario.key 6 64 = None ∧
  is_Some (Cache.fLookup (ImageFilter.the_cache s2) !! Scenario.key 6 32).
Proof.
  split; [by vm_compute|]. split; [by vm_compute|]. vm_compute. by eexists.
Qed.

(** C8 fails as stated: the second store evicts the first entry by capacity,
    and the first key stays in the node's record. *)
Lemma recorded_key_outlives_eviction :
  let s1 := (Scenario.filterImage Scenario.leaf (Scenario.image 5 400)
               (Scenario.context 64) Scenario.origin
               (Scenario.fresh 100)).2 in
  let s2 := (Scenario.filterImage Scenario.leaf (Scenario.image 5 400)
               (Scenario.context 32) Scenario.origin s1).2 in
  is_Some (Cache.fLookup (ImageFilter.the_cache s1) !! Scenario.key 7 64) ∧
  Cache.fLookup (ImageFilter.the_cache s2) !! Scenario.key 7 64 = None ∧
  ImageFilter.fCacheKeys s2 = [Scenario.key 7 64; Scenario.key 7 32] ∧
  ImageFilter.insertedKeys s2 = [Scenario.key 7 64; Scenario.key 7 32] ∧
  ¬ Evaluator.recorded_are_live_inserted s2.
Proof.
  split; [by vm_compute; eexists|].
  split; [by vm_compute|]. split; [by vm_compute|]. split; [by vm_compute|].
  intros Hclaim. destruct (Hclaim (Scenario.key 7 64)) as [Hlive _].
  destruct Hlive as [_ [v Hv]]; [|by vm_compute in Hv].
  change (Scenario.key 7 64 ∈ [Scenario.key 7 64; Scenario.key 7 32]).
  by left.
Qed.

(** X17 on the bitmap node over an empty cache, behind a proxy that
    declines. *)
Lemma filterImageDeprecated_memoizes_witness :
  ImageFilter.cache (Scenario.context 64) = true ∧
  let r1 := Deprecated.filterImageDeprecated 64 Scenario.declining_proxy
              Scenario.bitmap_leaf (Some tt) SkBitmap_empty
              (Scenario.context 64) SkBitmap_empty Scenario.origin
              (Scenario.fresh 300) in
  r1.1.1.1 = true ∧
  Deprecated.filterImageDeprecated 64 Scenario.declining_proxy
    Scenario.bitmap_leaf (Some tt) SkBitmap_empty (Scenario.context 64)
    SkBitmap_empty (SkIPoint.Make 7 7) r1.2
  = (true, r1.1.1.2, r1.1.2, r1.2).
Proof.
  split; [reflexivity|]. split; [by vm_compute|].
  apply (filterImageDeprecated_memoizes 64 Scenario.declining_proxy
           Scenario.bitmap_leaf (Some tt) SkBitmap_empty (Scenario.context 64)
           SkBitmap_empty Scenario.origin SkBitmap_empty (SkIPoint.Make 7 7)
           (Scenario.fresh 300)).
  - reflexivity.
  - apply wf_Create.
  - apply bitmap_leaf_keeps_wf.
  - intros p _. apply declining_proxy_keeps_wf.
  - by vm_compute.
Defined.

(** X18 on the bridged node after its evaluations under two clips. *)
Lemma destructor_purges_own_entries_witness :
  let s2 := (Scenario.filterImage Scenario.bridged (Scenario.image 5 400)
               (Scenario.context 32) Scenario.origin
               (Scenario.filterImage Scenario.bridged (Scenario.image 5 400)
                  (Scenario.context 64) Scenario.origin
                  (Scenario.fresh 100)).2).2 in
  let c' := Lifecycle.destructor 64 s2 (ImageFilter.the_cache s2) in
  Evaluator.stores_nothing_own Scenario.declining_proxy Scenario.bridged ∧
  Cache.wf 64 (ImageFilter.the_cache s2) ∧
  Cache.wf 64 c' ∧
  (∀ k, Cache.fUniqueID k = 6 → Cache.fLookup c' !! k = None) ∧
  (∀ k, Cache.fUniqueID k ≠ 6 →
        Cache.fLookup c' !! k
        = Cache.fLookup (ImageFilter.the_cache s2) !! k).
Proof.
  intros s2 c'. split; [exact bridged_stores_nothing_own|].
  assert (Cache.wf 64 (ImageFilter.the_cache s2)) as Hwf.
  { do 2 (apply filterImage_keeps_wf; [exact bridged_keeps_wf|]).
    apply wf_Create. }
  split; [exact Hwf|].
  exact (destructor_purges_own_entries 64 Scenario.declining_proxy
           Scenario.internal_getBM Scenario.internal_getProxy
           Scenario.internal_fromBM Scenario.bridged s2
           bridged_stores_nothing_own two_clips_reachable Hwf).
Defined.

(** ** The crop rectangle, applied twice *)

Section CropRectLaws.
Context {SkScalar SkMatrix : Type}.
Variable mapRect : SkMatrix → SkRect.t SkScalar → SkRect.t SkScalar.
Variable roundOut : SkRect.t SkScalar → SkIRect.t.

(** X19.  [applyTo] is idempotent: cropping bounds that have been cropped
    already (as [applyCropRect] does to the bounds [filterBounds] hands on)
    changes nothing, for every crop rectangle, edge mask, transform and
    input, overflowing ones included. *)
Theorem applyTo_idempotent (self : CropRect.t SkScalar) imageBounds
    (ctm : SkMatrix) :
  CropRect.applyTo mapRect roundOut self
    (CropRect.applyTo mapRect roundOut self imageBounds ctm) ctm =
  CropRect.applyTo mapRect roundOut self imageBounds ctm.
Proof.
  unfold CropRect.applyTo.
  destruct (negb (CropRect.fFlags self =? 0)); [|done].
  destruct imageBounds as [l t r b].
  by destruct (CropRect.has_edge _ CropRect.kHasLeft_CropEdge),
    (CropRect.has_edge _ CropRect.kHasTop_CropEdge),
    (CropRect.has_edge _ CropRect.kHasWidth_CropEdge),
    (CropRect.has_edge _ CropRect.kHasHeight_CropEdge).
Qed.

End CropRectLaws.

Lemma graph_leaf_constructed :
  FilterGraph.constructed (SkRect.Make 0 0 0 0) Scenario.graph_leaf.
Proof. constructor. by intros i Hi%elem_of_nil. Qed.

Lemma graph_root_inputs i :
  Some i ∈ FilterGraph.fInputs Scenario.graph_root → i = Scenario.graph_leaf.
Proof.
  simpl. intros [Hi|Hi]%elem_of_cons; [congruence|].
  by apply list_elem_of_singleton in Hi.
Qed.

Lemma graph_root_constructed :
  FilterGraph.constructed (SkRect.Make 0 0 0 0) Scenario.graph_root.
Proof.
  constructor. intros i Hi. rewrite (graph_root_inputs i Hi).
  apply graph_leaf_constructed.
Qed.

Lemma graph_root_passes direction :
  FilterGraph.passes_bounds direction Scenario.graph_root.
Proof.
  constructor; [done|done|]. intros i Hi. rewrite (graph_root_inputs i Hi).
  constructor; [done|done|]. by intros j Hj%elem_of_nil.
Qed.

Lemma join_idempotent r : Scenario.join r r = r.
Proof.
  destruct r. unfold Scenario.join. simpl.
  by rewrite !Z.min_id, !Z.max_id.
Qed.

Lemma join_scalar_idempotent r : Scenario.join_scalar r r = r.
Proof.
  destruct r. unfold Scenario.join_scalar. simpl.
  by rewrite !Z.min_id, !Z.max_id.
Qed.

(** X13 on the two-node graph: the root has a null slot. *)
Lemma usesSrcInput_iff_reaches_null_witness :
  FilterGraph.constructed (SkRect.Make 0 0 0 0) Scenario.graph_root ∧
  FilterGraph.reaches_null Scenario.graph_root.
Proof.
  split; [exact graph_root_constructed|].
  by apply (usesSrcInput_iff_reaches_null (SkRect.Make 0 0 0 0)
              Scenario.graph_root graph_root_constructed).
Defined.

(** X14 on the two-node graph, forward. *)
Lemma filterBounds_passes_src_through_witness :
  (∀ r, Scenario.join r r = r) ∧
  FilterGraph.filterBounds Scenario.mapRect Scenario.roundOut Scenario.join
    Scenario.graph_root (SkIRect.MakeWH 10 10) (0, 0)
    FilterGraph.kForward_MapDirection = Some (SkIRect.MakeWH 10 10).
Proof.
  split; [exact join_idempotent|].
  exact (filterBounds_passes_src_through Scenario.mapRect Scenario.roundOut
           Scenario.join Scenario.graph_root (SkIRect.MakeWH 10 10) (0, 0)
           FilterGraph.kForward_MapDirection join_idempotent
           (graph_root_passes _)).
Defined.

(** X16 on the two-node graph. *)
Lemma computeFastBounds_is_src_witness :
  (∀ r, Scenario.join_scalar r r = r) ∧
  FilterGraph.computeFastBounds Scenario.join_scalar Scenario.graph_root
    (SkRect.Make 1 2 3 4) = SkRect.Make 1 2 3 4.
Proof.
  split; [exact join_scalar_idempotent|].
  exact (proj1 (computeFastBounds_is_src Scenario.join_scalar
                  Scenario.graph_root (SkRect.Make 1 2 3 4)
                  join_scalar_idempotent)).
Defined.

(** ** Vertical fusion, edge by edge *)

Local Ltac split_comparisons :=
  repeat match goal with
         | |- context [?a =? ?b] => destruct (Z.eqb_spec a b)
         | |- context [?a <? ?b] => destruct (Z.ltb_spec a b)
         | |- context [?a <=? ?b] => destruct (Z.leb_spec a b)
         end.

(** X20.  Fusing two vertical edges does not change the winding count of any
    scan line.  For edges with [fFirstY <= fLastY] and windings of +1 or -1,
    whatever [combineVertical] decides (drop both, rewrite the previous edge,
    or keep both), the edges [addLine] is left with contribute to every scan
    line [y] what the previous edge and the new one contributed together. *)
Theorem combineVertical_preserves_winding edge last y :
  SkEdge.fFirstY edge <= SkEdge.fLastY edge →
  SkEdge.fFirstY last <= SkEdge.fLastY last →
  - 2 ^ 31 < SkEdge.fFirstY edge ∧ SkEdge.fLastY edge < 2 ^ 31 - 1 →
  - 2 ^ 31 < SkEdge.fFirstY last ∧ SkEdge.fLastY last < 2 ^ 31 - 1 →
  SkEdge.fWinding edge = 1 ∨ SkEdge.fWinding edge = -1 →
  SkEdge.fWinding last = 1 ∨ SkEdge.fWinding last = -1 →
  let r := SkEdge.combineVertical edge last in
  foldr (λ e acc, SkEdge_winding_at e y + acc) 0
        (SkEdge_after_combine r.1 r.2 edge)
  = SkEdge_winding_at last y + SkEdge_winding_at edge y.
Proof.
  intros He Hl Hre Hrl Hwe Hwl r. subst r. unfold SkEdge.combineVertical.
  rewrite !wrap_int32_id by (unfold is_int32; lia).
  rewrite Z.gtb_ltb.
  destruct edge as [ex edx ef el ec ew], last as [lx ldx lf ll lc lw].
  cbn [SkEdge.fX SkEdge.fDX SkEdge.fFirstY SkEdge.fLastY SkEdge.fCurveCount
       SkEdge.fWinding] in *.
  destruct (negb (lc =? 0) || negb (ldx =? 0) || negb (ex =? lx));
    [cbn; lia|].
  split_comparisons;
    cbn [fst snd SkEdge_after_combine foldr]; unfold SkEdge_winding_at;
    cbn [SkEdge.fFirstY SkEdge.fLastY SkEdge.fWinding];
    split_comparisons; cbn [andb]; lia.
Qed.

(** X21.  [combineVertical] keeps the previous edge a well-formed vertical
    edge: when it rewrites it (kPartial_Combine) the edge still has
    [fFirstY <= fLastY], stays at the same [fX] with [fDX = 0] and no curve,
    and carries the winding of one of the two edges; under kNo_Combine and
    kTotal_Combine it is left untouched. *)
Theorem combineVertical_keeps_edge_valid edge last :
  SkEdge.fFirstY edge <= SkEdge.fLastY edge →
  SkEdge.fFirstY last <= SkEdge.fLastY last →
  - 2 ^ 31 < SkEdge.fFirstY edge ∧ SkEdge.fLastY edge < 2 ^ 31 - 1 →
  - 2 ^ 31 < SkEdge.fFirstY last ∧ SkEdge.fLastY last < 2 ^ 31 - 1 →
  let r := SkEdge.combineVertical edge last in
  match r.1 with
  | kPartial_Combine =>
      SkEdge.fFirstY r.2 <= SkEdge.fLastY r.2 ∧
      SkEdge.is_vertical r.2 = true ∧ SkEdge.fX r.2 = SkEdge.fX edge ∧
      SkEdge.fX r.2 = SkEdge.fX last ∧
      (SkEdge.fWinding r.2 = SkEdge.fWinding last ∨
       SkEdge.fWinding r.2 = SkEdge.fWinding edge) ∧
      Z.min (SkEdge.fFirstY edge) (SkEdge.fFirstY last) <= SkEdge.fFirstY r.2 ∧
      SkEdge.fLastY r.2 <= Z.max (SkEdge.fLastY edge) (SkEdge.fLastY last)
  | _ => r.2 = last
  end.
Proof.
  intros He Hl Hre Hrl r. subst r.
  unfold SkEdge.combineVertical, SkEdge.is_vertical.
  rewrite !wrap_int32_id by (unfold is_int32; lia).
  rewrite Z.gtb_ltb.
  destruct edge as [ex edx ef el ec ew], last as [lx ldx lf ll lc lw].
  cbn [SkEdge.fX SkEdge.fDX SkEdge.fFirstY SkEdge.fLastY SkEdge.fCurveCount
       SkEdge.fWinding] in *.
  destruct (Z.eqb_spec lc 0) as [->|?]; [|done].
  destruct (Z.eqb_spec ldx 0) as [->|?]; [|done].
  destruct (Z.eqb_spec ex lx) as [->|?]; [|done].
  cbn [negb orb].
  split_comparisons;
    cbn [fst snd SkEdge.fX SkEdge.fDX SkEdge.fFirstY SkEdge.fLastY
         SkEdge.fCurveCount SkEdge.fWinding];
    try done; repeat split; try done; try lia; auto.
Qed.

Lemma approximately_equal_cases a b :
  - 2 ^ 31 < a - b < 2 ^ 31 →
  (SkAnalyticEdge.approximately_equal a b = true ∧ Z.abs (a - b) < 0x100) ∨
  (SkAnalyticEdge.approximately_equal a b = false ∧ 0x100 <= Z.abs (a - b)).
Proof.
  intros Hab. pose proof (approximately_equal_spec a b Hab) as Hspec.
  destruct (SkAnalyticEdge.approximately_equal a b).
  - left. split; [done|]. by apply Hspec.
  - right. split; [done|].
    destruct (Z.lt_ge_cases (Z.abs (a - b)) 0x100) as [Hlt|Hge]; [|done].
    apply Hspec in Hlt. done.
Qed.

(** X22.  The analytic [combineVertical] keeps the previous edge well formed
    when that edge is at least [0x100] tall: a rewritten edge still has
    [fUpperY < fLowerY], stays vertical at the same [fX], and if [fY] was at
    [fUpperY] it is again; under kNo_Combine and kTotal_Combine the edge is
    left untouched. *)
Theorem analytic_combineVertical_keeps_edge_valid edge last :
  SkAnalyticEdge.fUpperY edge < SkAnalyticEdge.fLowerY edge →
  SkAnalyticEdge.fUpperY last < SkAnalyticEdge.fLowerY last →
  - 2 ^ 30 < SkAnalyticEdge.fUpperY edge ∧
    SkAnalyticEdge.fLowerY edge < 2 ^ 30 →
  - 2 ^ 30 < SkAnalyticEdge.fUpperY last ∧
    SkAnalyticEdge.fLowerY last < 2 ^ 30 →
  0x100 <= SkAnalyticEdge.fLowerY last - SkAnalyticEdge.fUpperY last →
  let r := SkAnalyticEdge.combineVertical edge last in
  match r.1 with
  | kPartial_Combine =>
      SkAnalyticEdge.fUpperY r.2 < SkAnalyticEdge.fLowerY r.2 ∧
      SkAnalyticEdge.is_vertical r.2 = true ∧
      SkAnalyticEdge.fX r.2 = SkAnalyticEdge.fX last ∧
      (SkAnalyticEdge.fY last = SkAnalyticEdge.fUpperY last →
       SkAnalyticEdge.fY r.2 = SkAnalyticEdge.fUpperY r.2)
  | _ => r.2 = last
  end.
Proof.
  intros He Hl Hre Hrl Htall r. subst r.
  unfold SkAnalyticEdge.combineVertical, SkAnalyticEdge.is_vertical.
  rewrite Z.gtb_ltb.
  destruct edge as [ex edx eu el ey ec ew], last as [lx ldx lu ll ly lc lw].
  cbn [SkAnalyticEdge.fX SkAnalyticEdge.fDX SkAnalyticEdge.fUpperY
       SkAnalyticEdge.fLowerY SkAnalyticEdge.fY SkAnalyticEdge.fCurveCount
       SkAnalyticEdge.fWinding] in *.
  destruct (Z.eqb_spec lc 0) as [->|?]; [|done].
  destruct (Z.eqb_spec ldx 0) as [->|?]; [|done].
  destruct (Z.eqb_spec ex lx) as [->|?]; [|done].
  cbn [negb orb].
  destruct (approximately_equal_cases eu ll) as [[-> ?]|[-> ?]]; [lia| |];
    destruct (approximately_equal_cases eu lu) as [[-> ?]|[-> ?]];
    try lia;
    destruct (approximately_equal_cases el ll) as [[-> ?]|[-> ?]];
    try lia;
    split_comparisons;
    cbn [fst snd SkAnalyticEdge.fX SkAnalyticEdge.fDX SkAnalyticEdge.fUpperY
         SkAnalyticEdge.fLowerY SkAnalyticEdge.fY SkAnalyticEdge.fCurveCount
         SkAnalyticEdge.fWinding];
    try done; repeat split; try done; try lia.
Qed.

(** ** The two routes of the builder *)

Section EdgeBuilderLaws.
Context {SkScalar : Type}.
Variable size_t_bits : Z.
Variable SkScalarIsFinite : SkScalar → bool.
Variable kMaxClippedLineSegments : Z.
Variable ClipLine :
  SkPoint.t SkScalar → SkPoint.t SkScalar → SkRect.t SkScalar → bool →
  list (SkPoint.t SkScalar).
Variable clipLine :
  bool → SkPoint.t SkScalar → SkPoint.t SkScalar → SkRect.t SkScalar →
  option (list (EdgeBuilder.Segment (SkScalar:=SkScalar))).
Variable clipQuad :
  bool → SkPoint.t SkScalar → SkPoint.t SkScalar → SkPoint.t SkScalar →
  SkRect.t SkScalar → option (list (EdgeBuilder.Segment (SkScalar:=SkScalar))).
Variable clipCubic :
  bool → SkPoint.t SkScalar → SkPoint.t SkScalar → SkPoint.t SkScalar →
  SkPoint.t SkScalar → SkRect.t SkScalar →
  option (list (EdgeBuilder.Segment (SkScalar:=SkScalar))).
Variable computeQuads :
  SkPoint.t SkScalar → SkPoint.t SkScalar → SkPoint.t SkScalar → SkScalar →
  list (SkPoint.t SkScalar * SkPoint.t SkScalar * SkPoint.t SkScalar).
Variable SkChopQuadAtYExtrema :
  SkPoint.t SkScalar → SkPoint.t SkScalar → SkPoint.t SkScalar →
  list (SkPoint.t SkScalar * SkPoint.t SkScalar * SkPoint.t SkScalar).
Variable SkChopCubicAtYExtrema :
  SkPoint.t SkScalar → SkPoint.t SkScalar → SkPoint.t SkScalar →
  SkPoint.t SkScalar →
  list (SkPoint.t SkScalar * SkPoint.t SkScalar * SkPoint.t SkScalar
        * SkPoint.t SkScalar).
Import EdgeBuilder.

Local Abbreviation Segment := (EdgeBuilder.Segment (SkScalar:=SkScalar)).
Local Abbreviation SkPath := (EdgeBuilder.SkPath (SkScalar:=SkScalar)).

Section AnyFlavour.
Context {E : Type} `{!EdgeBuilder.Flavour (SkScalar:=SkScalar) E}.

Local Abbreviation build_loop :=
  (EdgeBuilder.build_loop SkScalarIsFinite clipLine clipQuad clipCubic
     computeQuads SkChopQuadAtYExtrema SkChopCubicAtYExtrema (E:=E)).
Local Abbreviation build :=
  (EdgeBuilder.build SkScalarIsFinite clipLine clipQuad clipCubic
     computeQuads SkChopQuadAtYExtrema SkChopCubicAtYExtrema (E:=E)).
Local Abbreviation buildPoly :=
  (EdgeBuilder.buildPoly size_t_bits kMaxClippedLineSegments ClipLine (E:=E)).
Local Abbreviation poly_verb := (EdgeBuilder.poly_verb ClipLine (E:=E)).

Implicit Types (seg : Segment) (segs : list Segment).
Implicit Types (b : EdgeBuilder.t E) (path : SkPath).

Lemma build_verbs_poly segs b canCullToTheRight :
  (∀ p0 p1 l el al,
     fList (addLine p0 p1 (MkBuilder l el al)) = poly_line p0 p1 l) →
  (∀ seg, seg ∈ segs →
          seg_verb seg ∈ [kMove_Verb; kLine_Verb; kClose_Verb]) →
  fList (foldl (λ b seg, build_verb computeQuads SkChopQuadAtYExtrema
                           SkChopCubicAtYExtrema seg b) b segs)
  = foldl (λ edgePtr seg, poly_verb None canCullToTheRight seg edgePtr)
          (fList b) segs.
Proof.
  intros Hlaw. revert b. induction segs as [|seg segs IH]; intros b Hpoly;
    [done|].
  simpl. rewrite IH by (intros; apply Hpoly; by right). f_equal.
  pose proof (Hpoly seg (list_elem_of_here _ _)) as Hseg.
  destruct seg; simpl in *; try done.
  - destruct b as [l el al]. apply Hlaw.
  - exfalso. repeat (apply elem_of_cons in Hseg as [?|Hseg]; [done|]).
    by apply elem_of_nil in Hseg.
  - exfalso. repeat (apply elem_of_cons in Hseg as [?|Hseg]; [done|]).
    by apply elem_of_nil in Hseg.
  - exfalso. repeat (apply elem_of_cons in Hseg as [?|Hseg]; [done|]).
    by apply elem_of_nil in Hseg.
Qed.

(** X23.  On a path of lines only and without a clip the two routes build
    the same edges: [buildPoly], with its contiguous array and
    [addPolyLine], returns the count and leaves the edge list that [build],
    with [addLine], returns and leaves.  It holds for every flavour whose
    [addPolyLine] decides as its [addLine] does, which the three flavours
    do. *)
Theorem buildPoly_agrees_with_build path canCullToTheRight b :
  (∀ p0 p1 l el al,
     fList (addLine p0 p1 (MkBuilder l el al)) = poly_line p0 p1 l) →
  (∀ seg, seg ∈ iter path →
          seg_verb seg ∈ [kMove_Verb; kLine_Verb; kClose_Verb]) →
  fList b = [] →
  (buildPoly path None canCullToTheRight b).1
    = (build path None canCullToTheRight b).1 ∧
  fEdgeList (buildPoly path None canCullToTheRight b).2
    = fEdgeList (build path None canCullToTheRight b).2.
Proof.
  intros Hlaw Hpoly Hb.
  unfold EdgeBuilder.buildPoly, EdgeBuilder.build, EdgeBuilder.build_loop.
  cbn [negb fst snd fEdgeList fList].
  rewrite (build_verbs_poly _ b canCullToTheRight Hlaw Hpoly), Hb. done.
Qed.

Lemma foldl_length_le {A B} (f : list A → B → list A) (k : nat) l bs :
  (∀ l x, (length (f l x) ≤ length l + k)%nat) →
  (length (foldl f l bs) ≤ length l + k * length bs)%nat.
Proof.
  intros Hf. revert l. induction bs as [|x bs IH]; intros l; simpl; [lia|].
  etrans; [apply IH|]. pose proof (Hf l x). lia.
Qed.

Lemma poly_verbs_length clip canCullToTheRight (k : nat) segs l :
  (∀ p0 p1 l, (length (poly_line p0 p1 l) ≤ S (length l))%nat) →
  (∀ c p0 p1 cull,
     clip = Some c →
     (length (line_segments (ClipLine p0 p1 c cull)) ≤ k)%nat) →
  (1 ≤ k)%nat →
  (length (foldl (λ edgePtr seg, poly_verb clip canCullToTheRight seg edgePtr)
             l segs)
   ≤ length l
     + k * length (filter (λ seg, seg_verb seg = kLine_Verb) segs))%nat.
Proof.
  intros Hone Hclip Hk. revert l.
  induction segs as [|seg segs IH]; intros l; simpl; [lia|].
  etrans; [apply IH|]. rewrite filter_cons.
  destruct seg; simpl; try lia.
  destruct clip as [clip|].
  - pose proof (Hclip clip p0 p1 canCullToTheRight eq_refl).
    assert (length
              (foldl (λ edgePtr l0, poly_line l0.1 l0.2 edgePtr) l
                 (line_segments (ClipLine p0 p1 clip canCullToTheRight)))
            ≤ length l
              + 1 * length (line_segments
                              (ClipLine p0 p1 clip canCullToTheRight)))%nat.
    { apply (foldl_length_le (λ edgePtr l0, poly_line l0.1 l0.2 edgePtr)).
      intros l1 x. pose proof (Hone x.1 x.2 l1). lia. }
    lia.
  - pose proof (Hone p0 p1 l). lia.
Qed.

(** X24.  [buildPoly] stays within the arrays it allocates.  When every line
    verb of the path is matched by a point ([countPoints] fits [size_t]),
    [ClipLine] returns at most [kMaxClippedLineSegments] lines, and the
    product does not overflow, the count returned is at most
    [maxEdgeCount], the number of edges and of pointers allocated at the
    start: the assertion at the end of [buildPoly].  (For every flavour
    whose [addPolyLine] hands back the pointers it was given, at most one
    rewritten; the three flavours do.) *)
Theorem buildPoly_count_within_allocation path iclip canCullToTheRight b :
  (∀ p0 p1 l, (length (poly_line p0 p1 l) ≤ S (length l))%nat) →
  (∀ p0 p1 clip cull,
     Z.of_nat (length (line_segments (ClipLine p0 p1 clip cull)))
       <= kMaxClippedLineSegments) →
  1 <= kMaxClippedLineSegments →
  Z.of_nat (length (filter (λ seg, seg_verb seg = kLine_Verb) (iter path)))
    <= countPoints path →
  let maxEdgeCount :=
    match iclip with
    | Some _ => countPoints path * kMaxClippedLineSegments
    | None => countPoints path
    end in
  countPoints path < 2 ^ size_t_bits → maxEdgeCount < 2 ^ size_t_bits →
  let r := buildPoly path iclip canCullToTheRight b in
  0 <= r.1 <= maxEdgeCount ∧
  r.1 = Z.of_nat (length (fEdgeList r.2)) ∧
  last (fAlloc r.2) = Some (alloc_pointers maxEdgeCount).
Proof.
  intros Hone Hclip Hk Hlines maxEdgeCount Hpoints Hmax r.
  assert (0 <= countPoints path) as Hnn by lia.
  assert (wrap_unsigned size_t_bits (countPoints path) = countPoints path)
    as Hwrap by (apply wrap_small; lia).
  subst r. unfold EdgeBuilder.buildPoly. rewrite Hwrap.
  destruct iclip as [clip|]; simpl in maxEdgeCount.
  - pose proof (poly_verbs_length (Some (recoverClip clip)) canCullToTheRight
                  (Z.to_nat kMaxClippedLineSegments) (iter path) [] Hone)
      as Hlen.
    simpl in Hlen.
    unfold SkSafeMath_mul.
    destruct (Z.ltb_spec (countPoints path * kMaxClippedLineSegments)
                (2 ^ size_t_bits)) as [_|?]; [|lia].
    rewrite wrap_small by (subst maxEdgeCount; nia).
    cbn [negb fst snd fEdgeList fAlloc fmap option_fmap option_map].
    split; [|split; [done|]].
    + split; [lia|]. subst maxEdgeCount.
      assert (length
                (foldl (λ edgePtr seg,
                          poly_verb (Some (recoverClip clip))
                                    canCullToTheRight seg edgePtr)
                       [] (iter path))
              ≤ Z.to_nat kMaxClippedLineSegments
                * length (filter (λ seg, seg_verb seg = kLine_Verb)
                            (iter path)))%nat as Hl.
      { apply Hlen; [|lia]. intros c p0 p1 cull _.
        pose proof (Hclip p0 p1 c cull). lia. }
      nia.
    + by rewrite last_snoc.
  - pose proof (poly_verbs_length None canCullToTheRight 1 (iter path) []
                  Hone) as Hlen.
    simpl in Hlen.
    cbn [negb fst snd fEdgeList fAlloc fmap option_fmap option_map].
    split; [|split; [done|]].
    + split; [lia|]. subst maxEdgeCount.
      assert (length
                (foldl (λ edgePtr seg,
                          poly_verb None canCullToTheRight seg edgePtr)
                       [] (iter path))
              ≤ length (filter (λ seg, seg_verb seg = kLine_Verb)
                          (iter path)) + 0)%nat as Hl.
      { etrans; [apply Hlen; [by intros|lia]|]. lia. }
      lia.
    + by rewrite last_snoc.
Qed.

(** *** Builders that only append *)

Local Abbreviation apply_clipper :=
  (EdgeBuilder.apply_clipper SkScalarIsFinite (E:=E)).
Local Abbreviation build_clipped_verb :=
  (EdgeBuilder.build_clipped_verb SkScalarIsFinite clipLine clipQuad clipCubic
     computeQuads (E:=E)).

Lemma foldl_prefix {A} (f : EdgeBuilder.t E → A → EdgeBuilder.t E) xs b :
  (∀ b x, fList b `prefix_of` fList (f b x)) →
  fList b `prefix_of` fList (foldl f b xs).
Proof.
  intros Hf. revert b. induction xs as [|x xs IH]; intros b; simpl; [done|].
  etrans; [apply Hf|apply IH].
Qed.

Lemma foldl_prefix_fst {A}
    (f : EdgeBuilder.t E * bool → A → EdgeBuilder.t E * bool) xs st :
  (∀ st x, fList st.1 `prefix_of` fList (f st x).1) →
  fList st.1 `prefix_of` fList (foldl f st xs).1.
Proof.
  intros Hf. revert st. induction xs as [|x xs IH]; intros st; simpl; [done|].
  etrans; [apply Hf|apply IH].
Qed.

Lemma build_loop_only_appends path iclip canCullToTheRight b :
  (∀ p0 p1 b, fList b `prefix_of` fList (addLine p0 p1 b)) →
  (∀ p0 p1 p2 b, fList b `prefix_of` fList (addQuad p0 p1 p2 b)) →
  (∀ p0 p1 p2 p3 b, fList b `prefix_of` fList (addCubic p0 p1 p2 p3 b)) →
  fList b `prefix_of` fList (build_loop path iclip canCullToTheRight b).1.
Proof.
  intros HL HQ HC.
  assert (∀ seg b, fList b `prefix_of` fList (add_segment seg b)) as Hadd.
  { intros [] b0; simpl; auto. }
  assert (∀ segs st, fList st.1 `prefix_of` fList (apply_clipper segs st).1)
    as Hdrain.
  { induction segs as [|seg segs IH]; intros st; simpl; [done|].
    case_match; [done|]. etrans; [|apply IH]. simpl. apply Hadd. }
  assert (∀ r st, fList st.1 `prefix_of`
                    fList (clipped SkScalarIsFinite r st).1) as Hclipped.
  { intros [segs|] st; simpl; [apply Hdrain|done]. }
  unfold EdgeBuilder.build_loop. destruct iclip as [iclip|].
  - apply (foldl_prefix_fst
             (λ st seg, build_clipped_verb (recoverClip iclip)
                          canCullToTheRight seg st) (iter path) (b, true)).
    intros st [] ; simpl; try done; try apply Hclipped.
    apply (foldl_prefix_fst
             (λ st q, clipped SkScalarIsFinite
                        (clipQuad canCullToTheRight q.1.1 q.1.2 q.2
                           (recoverClip iclip)) st)).
    intros st0 q. apply Hclipped.
  - simpl. apply foldl_prefix. intros b0 []; simpl; try done; auto.
    + unfold handle_quad. apply foldl_prefix. auto.
    + apply foldl_prefix. intros b1 q. unfold handle_quad.
      apply foldl_prefix. auto.
    + destruct (negb chopCubics); [auto|]. apply foldl_prefix. auto.
Qed.

End AnyFlavour.

(** *** The three flavours *)

Section Flavours.
Variable SkIntToScalar : Z → SkScalar.
Variable fClipShift : Z.
Variable chops : bool.

Lemma set_top_length {A} (top top' : A) l :
  last l = Some top → length (set_top top' l) = length l.
Proof.
  intros [l' ->]%last_Some. unfold set_top.
  rewrite removelast_last, !length_app. done.
Qed.

Lemma removelast_set_top_length {A} (top top' : A) l :
  last l = Some top → (length (removelast (set_top top' l)) ≤ length l)%nat.
Proof.
  intros [l' ->]%last_Some. unfold set_top.
  rewrite !removelast_last, length_app. lia.
Qed.

Section Basic.
Variable setLine :
  SkPoint.t SkScalar → SkPoint.t SkScalar → Z → option SkEdge.t.
Variable setQuadratic :
  SkPoint.t SkScalar → SkPoint.t SkScalar → SkPoint.t SkScalar → Z →
  option SkEdge.t.
Variable setCubic :
  SkPoint.t SkScalar → SkPoint.t SkScalar → SkPoint.t SkScalar →
  SkPoint.t SkScalar → Z → option SkEdge.t.

Local Abbreviation basic :=
  (SkBasicEdgeBuilder SkIntToScalar setLine setQuadratic setCubic fClipShift
     chops).

Lemma basic_addLine_poly_line p0 p1 l el al :
  fList (addLine (Flavour:=basic) p0 p1 (MkBuilder l el al)) =
  poly_line (H:=basic) p0 p1 l.
Proof.
  unfold poly_line. simpl. destruct (setLine p0 p1 fClipShift); [|done].
  destruct (combine_with_top _ _) as [[] l']; done.
Qed.

Lemma basic_poly_line_length p0 p1 l :
  (length (poly_line (H:=basic) p0 p1 l) ≤ S (length l))%nat.
Proof.
  unfold poly_line. simpl.
  destruct (setLine p0 p1 fClipShift) as [edge|]; [|lia].
  unfold combine_with_top.
  destruct (if SkEdge.is_vertical edge then last l else None) as [top|] eqn:Ht.
  - assert (last l = Some top) as Hlast
      by (destruct (SkEdge.is_vertical edge); done).
    destruct (SkEdge.combineVertical edge top) as [[] top'];
      rewrite ?length_app, ?(set_top_length top top' l Hlast); simpl;
      try lia.
    pose proof (removelast_set_top_length top top' l Hlast). lia.
  - rewrite length_app. simpl. lia.
Qed.
End Basic.

Section Analytic.
Variable setLine :
  SkPoint.t SkScalar → SkPoint.t SkScalar → option SkAnalyticEdge.t.
Variable setQuadratic :
  SkPoint.t SkScalar → SkPoint.t SkScalar → SkPoint.t SkScalar →
  option SkAnalyticEdge.t.
Variable setCubic :
  SkPoint.t SkScalar → SkPoint.t SkScalar → SkPoint.t SkScalar →
  SkPoint.t SkScalar → option SkAnalyticEdge.t.

Local Abbreviation analytic :=
  (SkAnalyticEdgeBuilder SkIntToScalar setLine setQuadratic setCubic chops).

Lemma analytic_addLine_poly_line p0 p1 l el al :
  fList (addLine (Flavour:=analytic) p0 p1 (MkBuilder l el al)) =
  poly_line (H:=analytic) p0 p1 l.
Proof.
  unfold poly_line. simpl. destruct (setLine p0 p1); [|done].
  destruct (analytic_combine_with_top _ _) as [[] l']; done.
Qed.

Lemma analytic_poly_line_length p0 p1 l :
  (length (poly_line (H:=analytic) p0 p1 l) ≤ S (length l))%nat.
Proof.
  unfold poly_line. simpl.
  destruct (setLine p0 p1) as [edge|]; [|lia].
  unfold analytic_combine_with_top.
  destruct (if SkAnalyticEdge.is_vertical edge then last l else None)
    as [top|] eqn:Ht.
  - assert (last l = Some top) as Hlast
      by (destruct (SkAnalyticEdge.is_vertical edge); done).
    destruct (SkAnalyticEdge.combineVertical edge top) as [[] top'];
      rewrite ?length_app, ?(set_top_length top top' l Hlast); simpl;
      try lia.
    pose proof (removelast_set_top_length top top' l Hlast). lia.
  - rewrite length_app. simpl. lia.
Qed.
End Analytic.

Section Bezier.
Variable line_set : SkPoint.t SkScalar → SkPoint.t SkScalar → bool.
Variable quad_set :
  SkPoint.t SkScalar → SkPoint.t SkScalar → SkPoint.t SkScalar → bool.
Variable cubic_set :
  SkPoint.t SkScalar → SkPoint.t SkScalar → SkPoint.t SkScalar →
  SkPoint.t SkScalar → bool.

Local Abbreviation bezier :=
  (SkBezierEdgeBuilder SkIntToScalar line_set quad_set cubic_set chops).

Lemma bezier_addLine_poly_line p0 p1 l el al :
  fList (addLine (Flavour:=bezier) p0 p1 (MkBuilder l el al)) =
  poly_line (H:=bezier) p0 p1 l.
Proof. unfold poly_line. simpl. by destruct (line_set p0 p1). Qed.

Lemma bezier_poly_line_length p0 p1 l :
  (length (poly_line (H:=bezier) p0 p1 l) ≤ S (length l))%nat.
Proof.
  unfold poly_line. simpl. destruct (line_set p0 p1); [|lia].
  rewrite length_app. simpl. lia.
Qed.

(** X25.  The Bezier builder never fuses and never drops: whatever the path
    and the clip, the primitives in the list before [build] are still there
    afterwards, in place and unchanged, with the new ones after them; and
    without a clip [buildPoly] leaves exactly the lines its [set] accepted,
    in path order. *)
Theorem bezier_build_only_appends path iclip canCullToTheRight
    (b : EdgeBuilder.t (SkBezier (SkScalar:=SkScalar))) :
  fList b `prefix_of`
    fEdgeList (EdgeBuilder.build SkScalarIsFinite clipLine clipQuad clipCubic
                 computeQuads SkChopQuadAtYExtrema SkChopCubicAtYExtrema
                 (H:=bezier) path iclip canCullToTheRight b).2 ∧
  fEdgeList (EdgeBuilder.buildPoly size_t_bits kMaxClippedLineSegments
               ClipLine (H:=bezier) path None canCullToTheRight b).2
  = omap (λ seg, match seg with
                 | Line p0 p1 =>
                     if line_set p0 p1 then Some (SkLine p0 p1) else None
                 | _ => None
                 end) (iter path).
Proof.
  split.
  - pose proof (build_loop_only_appends (H:=bezier) path iclip
                  canCullToTheRight b) as Happ.
    unfold EdgeBuilder.build.
    destruct (EdgeBuilder.build_loop _ _ _ _ _ _ _ _ _ _ _) as [b' fin].
    simpl in *. apply Happ.
    + intros p0 p1 b0. simpl. destruct (line_set p0 p1); [|done].
      by apply prefix_app_r.
    + intros p0 p1 p2 b0. simpl. destruct (quad_set p0 p1 p2); [|done].
      by apply prefix_app_r.
    + intros p0 p1 p2 p3 b0. simpl.
      destruct (cubic_set p0 p1 p2 p3); [|done]. by apply prefix_app_r.
  - unfold EdgeBuilder.buildPoly. cbn [negb fst snd fEdgeList].
    change (recoverClip <$> None) with (@None (SkRect.t SkScalar)).
    rewrite <-(app_nil_l (omap _ (iter path))).
    generalize (@nil (SkBezier (SkScalar:=SkScalar))).
    induction (iter path) as [|seg segs IH]; intros l; simpl.
    + by rewrite app_nil_r.
    + rewrite IH. destruct seg; simpl; try done.
      unfold poly_line. simpl. destruct (line_set p0 p1); [|done].
      by rewrite <-app_assoc.
Qed.
End Bezier.

End Flavours.

End EdgeBuilderLaws.

(** The tolerance is what makes the height matter: with a previous edge
    shorter than [0x100] the same-winding fusion can leave it upside down. *)
Example analytic_fusion_of_short_edges :
  SkAnalyticEdge.combineVertical
    (SkAnalyticEdge.Make 0 0 900 950 900 0 1)
    (SkAnalyticEdge.Make 0 0 1000 1100 1000 0 1)
  = (kPartial_Combine, SkAnalyticEdge.Make 0 0 1000 950 1000 0 1).
Proof. by vm_compute. Qed.

(** X20 on a new edge over rows 0..9 that cancels the top of a previous edge
    over rows 0..19 of the opposite winding. *)
Lemma combineVertical_preserves_winding_witness :
  SkEdge.fFirstY (SkEdge.Make 0 0 0 9 0 1)
    <= SkEdge.fLastY (SkEdge.Make 0 0 0 9 0 1) ∧
  foldr (λ e acc, SkEdge_winding_at e 5 + acc) 0
    (SkEdge_after_combine
       (SkEdge.combineVertical (SkEdge.Make 0 0 0 9 0 1)
          (SkEdge.Make 0 0 0 19 0 (-1))).1
       (SkEdge.combineVertical (SkEdge.Make 0 0 0 9 0 1)
          (SkEdge.Make 0 0 0 19 0 (-1))).2
       (SkEdge.Make 0 0 0 9 0 1))
  = SkEdge_winding_at (SkEdge.Make 0 0 0 19 0 (-1)) 5
    + SkEdge_winding_at (SkEdge.Make 0 0 0 9 0 1) 5.
Proof.
  split; [simpl; lia|].
  apply (combineVertical_preserves_winding (SkEdge.Make 0 0 0 9 0 1)
           (SkEdge.Make 0 0 0 19 0 (-1)) 5); simpl; first [lia | auto].
Defined.

(** X21 on the same two edges. *)
Lemma combineVertical_keeps_edge_valid_witness :
  SkEdge.fFirstY (SkEdge.Make 0 0 0 9 0 1)
    <= SkEdge.fLastY (SkEdge.Make 0 0 0 9 0 1) ∧
  match (SkEdge.combineVertical (SkEdge.Make 0 0 0 9 0 1)
           (SkEdge.Make 0 0 0 19 0 (-1))).1 with
  | kPartial_Combine =>
      SkEdge.fFirstY (SkEdge.combineVertical (SkEdge.Make 0 0 0 9 0 1)
                        (SkEdge.Make 0 0 0 19 0 (-1))).2
      <= SkEdge.fLastY (SkEdge.combineVertical (SkEdge.Make 0 0 0 9 0 1)
                          (SkEdge.Make 0 0 0 19 0 (-1))).2
  | _ => True
  end.
Proof.
  split; [simpl; lia|].
  pose proof (combineVertical_keeps_edge_valid (SkEdge.Make 0 0 0 9 0 1)
                (SkEdge.Make 0 0 0 19 0 (-1))) as Hvalid.
  simpl in Hvalid. simpl. apply Hvalid; lia.
Defined.

(** X22 on two analytic edges of opposite winding that start together. *)
Lemma analytic_combineVertical_keeps_edge_valid_witness :
  0x100 <= SkAnalyticEdge.fLowerY (SkAnalyticEdge.Make 0 0 0 0x30000 0 0 1)
           - SkAnalyticEdge.fUpperY (SkAnalyticEdge.Make 0 0 0 0x30000 0 0 1) ∧
  match (SkAnalyticEdge.combineVertical
           (SkAnalyticEdge.Make 0 0 0x10 0x10000 0x10 0 (-1))
           (SkAnalyticEdge.Make 0 0 0 0x30000 0 0 1)).1 with
  | kPartial_Combine =>
      SkAnalyticEdge.fUpperY
        (SkAnalyticEdge.combineVertical
           (SkAnalyticEdge.Make 0 0 0x10 0x10000 0x10 0 (-1))
           (SkAnalyticEdge.Make 0 0 0 0x30000 0 0 1)).2
      < SkAnalyticEdge.fLowerY
          (SkAnalyticEdge.combineVertical
             (SkAnalyticEdge.Make 0 0 0x10 0x10000 0x10 0 (-1))
             (SkAnalyticEdge.Make 0 0 0 0x30000 0 0 1)).2
  | _ => True
  end.
Proof.
  split; [simpl; lia|].
  pose proof (analytic_combineVertical_keeps_edge_valid
                (SkAnalyticEdge.Make 0 0 0x10 0x10000 0x10 0 (-1))
                (SkAnalyticEdge.Make 0 0 0 0x30000 0 0 1)) as Hvalid.
  simpl in Hvalid. simpl. apply Hvalid; lia.
Defined.

Lemma square_is_polyline seg :
  seg ∈ EdgeBuilder.iter Grid.square →
  EdgeBuilder.seg_verb seg ∈ [kMove_Verb; kLine_Verb; kClose_Verb].
Proof.
  revert seg. apply Forall_forall. unfold Grid.square. simpl.
  repeat constructor.
Qed.

Lemma Grid_ClipLine_bound p0 p1 clip cull :
  Z.of_nat (length (EdgeBuilder.line_segments (Grid.ClipLine p0 p1 clip cull)))
    <= 3.
Proof.
  unfold Grid.ClipLine. repeat case_match; simpl; lia.
Qed.

(** X23 on the square, with the basic builder. *)
Lemma buildPoly_agrees_with_build_witness :
  EdgeBuilder.fList Grid.empty = [] ∧
  (EdgeBuilder.buildPoly 32 3 Grid.ClipLine (H:=Grid.basic) Grid.square None
     false Grid.empty).1
  = (EdgeBuilder.build (λ _ : Z, true) Grid.clipLine Grid.clipQuad
       Grid.clipCubic (λ p0 p1 p2 w, [(p0, p1, p2)])
       (λ p0 p1 p2, [(p0, p1, p2)]) (λ p0 p1 p2 p3, [(p0, p1, p2, p3)])
       (H:=Grid.basic) Grid.square None false Grid.empty).1.
Proof.
  split; [reflexivity|].
  refine (proj1 (buildPoly_agrees_with_build 32 (λ _ : Z, true) 3
            Grid.ClipLine Grid.clipLine Grid.clipQuad Grid.clipCubic
            (λ p0 p1 p2 w, [(p0, p1, p2)]) (λ p0 p1 p2, [(p0, p1, p2)])
            (λ p0 p1 p2 p3, [(p0, p1, p2, p3)]) (H:=Grid.basic)
            Grid.square false Grid.empty _ square_is_polyline eq_refl)).
  intros p0 p1 l el al. apply basic_addLine_poly_line.
Defined.

(** X24 on the square under the window clip, with the basic builder. *)
Lemma buildPoly_count_within_allocation_witness :
  EdgeBuilder.countPoints Grid.square < 2 ^ 32 ∧
  0 <= (EdgeBuilder.buildPoly 32 3 Grid.ClipLine (H:=Grid.basic) Grid.square
          (Some Grid.window) false Grid.empty).1 <= 4 * 3.
Proof.
  split; [by vm_compute|].
  refine (proj1 (buildPoly_count_within_allocation 32 3 Grid.ClipLine
            (H:=Grid.basic) Grid.square (Some Grid.window) false Grid.empty
            _ Grid_ClipLine_bound _ _ _ _)).
  - intros p0 p1 l. apply basic_poly_line_length.
  - lia.
  - by vm_compute.
  - by vm_compute.
  - by vm_compute.
Defined.
